(** * vcdb: a TF-IDF vector database, embedded and verified

    A shallow embedding of [vc-database/vcdb.py].  Python values are modelled
    as follows.

    - [str] is [string]; the character tables ([str.lower], [str.strip],
      the regular-expression classes [\w] and [\s]) are the ASCII ones, so
      the development speaks about ASCII text.
    - [int] counters are [nat]; [top_k] is a [Z] because a slice bound may
      be negative.
    - [float] arithmetic is an interface ([Arith], [Log]) with two
      interpretations: exact real arithmetic ([R]) and IEEE-754 binary64
      (the primitive floats).  Unless said otherwise theorems are about the
      exact interpretation.
    - [dict] is an insertion-ordered association list with unique keys.
    - exceptions are the left summand of [result].
    - files are a [world] passed explicitly: what [open]/[json.load] finds
      at a path, and what a directory lists.  A [.dat] file holds text that
      [json.load] rejects, or a JSON value: an object, of which each member
      the program reads is absent or present, or a value that is no object.
      A present member has the shape [vectorize_file] writes; Python's
      dynamic typing of members of another shape (a number where a list is
      read) is outside the model. *)

From Stdlib Require Import List String Ascii Bool Arith ZArith Lia.
From Stdlib Require Import Permutation Sorted DecimalString DecimalNat.
From Stdlib Require Import Reals Lra.
From Stdlib Require PrimFloat Uint63.
Import ListNotations.

Set Implicit Arguments.
Local Open Scope string_scope.
Local Open Scope list_scope.
Local Open Scope nat_scope.

(** ** Exceptions *)

Inductive exn : Set :=
| KeyError
| IndexError
| ValueError
| ZeroDivisionError
| TypeError
| FileNotFoundError
| JSONDecodeError.

Definition result (A : Type) : Type := (exn + A)%type.

Definition ret {A} (a : A) : result A := inr a.
Definition raise {A} (e : exn) : result A := inl e.

Definition bind {A B} (m : result A) (k : A -> result B) : result B :=
  match m with
  | inl e => inl e
  | inr a => k a
  end.

Notation "x <- m ;; k" := (bind m (fun x => k))
  (at level 61, m at next level, right associativity).
Notation "' p <- m ;; k" := (bind m (fun p => k))
  (at level 61, p pattern, m at next level, right associativity).

(** [[f(x) for x in xs]] where [f] may raise: the first exception wins. *)
Fixpoint mapM {A B} (f : A -> result B) (xs : list A) : result (list B) :=
  match xs with
  | [] => ret []
  | x :: xs' =>
      y <- f x ;;
      ys <- mapM f xs' ;;
      ret (y :: ys)
  end.

(** [enumerate(xs)] *)
Definition enumerate {A} (xs : list A) : list (nat * A) :=
  combine (seq 0 (List.length xs)) xs.

(** [xs[:k]] for a Python integer [k]: a negative bound counts from the end. *)
Definition slice_to {A} (xs : list A) (k : Z) : list A :=
  if (0 <=? k)%Z then firstn (Z.to_nat k) xs
  else firstn (List.length xs - Z.to_nat (- k)) xs.

(** ** Strings *)

Module Str.

Definition code (c : ascii) : nat := nat_of_ascii c.

Definition in_range (lo hi : nat) (c : ascii) : bool :=
  (lo <=? code c) && (code c <=? hi).

(** [str.isspace] on ASCII: tab..carriage return, the four separators
    FS..US, and the space. *)
Definition is_space (c : ascii) : bool :=
  in_range 9 13 c || in_range 28 31 c || (code c =? 32).

Definition is_upper (c : ascii) : bool := in_range 65 90 c.
Definition is_lower (c : ascii) : bool := in_range 97 122 c.
Definition is_digit (c : ascii) : bool := in_range 48 57 c.

(** The class [\w]: letters, digits and the underscore. *)
Definition is_word (c : ascii) : bool :=
  is_upper c || is_lower c || is_digit c || (code c =? 95).

Definition lower_char (c : ascii) : ascii :=
  if is_upper c then ascii_of_nat (code c + 32) else c.

(** [s.lower()] *)
Fixpoint lower (s : string) : string :=
  match s with
  | EmptyString => EmptyString
  | String c s' => String (lower_char c) (lower s')
  end.

Fixpoint rev_onto (s acc : string) : string :=
  match s with
  | EmptyString => acc
  | String c s' => rev_onto s' (String c acc)
  end.

Definition rev (s : string) : string := rev_onto s EmptyString.

(** [s.lstrip()], [s.rstrip()], [s.strip()] *)
Fixpoint lstrip (s : string) : string :=
  match s with
  | EmptyString => EmptyString
  | String c s' => if is_space c then lstrip s' else s
  end.

Definition rstrip (s : string) : string := rev (lstrip (rev s)).

Definition strip (s : string) : string := rstrip (lstrip s).

(** [s.split(sep)] for a non-empty [sep]: a left-to-right scan for
    non-overlapping occurrences.  [skip] counts the characters of a
    separator still to be passed over, [cur] is the piece being read
    (reversed). *)
Fixpoint split_scan (sep s : string) (skip : nat) (cur : string)
  : list string :=
  match s with
  | EmptyString => [rev cur]
  | String c s' =>
      match skip with
      | S k => split_scan sep s' k cur
      | O =>
          if prefix sep s
          then rev cur :: split_scan sep s' (String.length sep - 1) EmptyString
          else split_scan sep s' 0 (String c cur)
      end
  end.

Definition split (sep s : string) : list string :=
  split_scan sep s 0 EmptyString.

(** [s.split(c, 1)]: at most one cut, at the first [c].  The list Python
    returns is never empty; it is given as its head and its tail. *)
Fixpoint split1 (c : ascii) (s : string) : string * list string :=
  match s with
  | EmptyString => (EmptyString, [])
  | String a s' =>
      if Ascii.eqb a c then (EmptyString, [s'])
      else let '(h, t) := split1 c s' in (String a h, t)
  end.

(** [s.replace(old, new)] for a non-empty [old]. *)
Fixpoint replace_scan (old new s : string) (skip : nat) : string :=
  match s with
  | EmptyString => EmptyString
  | String c s' =>
      match skip with
      | S k => replace_scan old new s' k
      | O =>
          if prefix old s
          then String.append new (replace_scan old new s' (String.length old - 1))
          else String c (replace_scan old new s' 0)
      end
  end.

Definition replace (old new s : string) : string :=
  replace_scan old new s 0.

(** [sep.join(parts)] *)
Definition join (sep : string) (parts : list string) : string :=
  String.concat sep parts.

(** [str(n)] for a non-negative integer. *)
Definition of_nat (n : nat) : string :=
  NilZero.string_of_uint (Nat.to_uint n).

(** [c in s] for a character. *)
Fixpoint mem (c : ascii) (s : string) : bool :=
  match s with
  | EmptyString => false
  | String a s' => Ascii.eqb a c || mem c s'
  end.

(** [re.findall(r'\w+', s)]: the maximal runs of word characters.
    [cur] is the run being read (reversed). *)
Fixpoint word_runs (s cur : string) : list string :=
  match s with
  | EmptyString =>
      match cur with EmptyString => [] | _ => [rev cur] end
  | String c s' =>
      if is_word c then word_runs s' (String c cur)
      else match cur with
           | EmptyString => word_runs s' EmptyString
           | _ => rev cur :: word_runs s' EmptyString
           end
  end.

End Str.

(** ** The tokenizer *)

(** [re.findall(r'\w+', text.lower())] *)
Definition tokenize (text : string) : list string :=
  Str.word_runs (Str.lower text) EmptyString.

(** ** Dictionaries *)

(** A Python [dict] with string keys: the items in insertion order, every
    key at most once. *)
Module Dict.

Definition t (V : Type) : Type := list (string * V).

Definition keys {V} (d : t V) : list string := map fst d.
Definition values {V} (d : t V) : list V := map snd d.

Fixpoint find {V} (d : t V) (k : string) : option V :=
  match d with
  | [] => None
  | (k', v) :: d' => if String.eqb k' k then Some v else find d' k
  end.

(** [k in d] *)
Definition contains {V} (d : t V) (k : string) : bool :=
  match find d k with Some _ => true | None => false end.

(** [d.get(k, default)] *)
Definition get {V} (d : t V) (k : string) (default : V) : V :=
  match find d k with Some v => v | None => default end.

(** [d.get(k)] *)
Definition get_opt {V} (d : t V) (k : string) : option V := find d k.

(** [d[k]] *)
Definition item {V} (d : t V) (k : string) : result V :=
  match find d k with Some v => ret v | None => raise KeyError end.

(** [d[k] = v]: an existing key keeps its place, a new one goes last. *)
Fixpoint set {V} (d : t V) (k : string) (v : V) : t V :=
  match d with
  | [] => [(k, v)]
  | (k', v') :: d' =>
      if String.eqb k' k then (k', v) :: d' else (k', v') :: set d' k v
  end.

(** [{key(x): value(x) for x in xs}] added to [acc], where computing an
    item may raise. *)
Fixpoint comp {A V} (f : A -> result (string * V)) (xs : list A)
  (acc : t V) : result (t V) :=
  match xs with
  | [] => ret acc
  | x :: xs' =>
      '(k, v) <- f x ;;
      comp f xs' (set acc k v)
  end.

Definition wf {V} (d : t V) : Prop := NoDup (keys d).

End Dict.

(** [set(xs) | set(ys)] as a duplicate-free list. *)
Definition set_union (xs ys : list string) : list string :=
  nodup string_dec (xs ++ ys).

(** ** Numbers *)

(** The arithmetic the program performs on [float]s (and on the [int]s it
    mixes with them). *)
Class Arith (F : Type) : Type := {
  of_int : nat -> F;
  fadd : F -> F -> F;
  fmul : F -> F -> F;
  fdiv : F -> F -> F;
  fneg : F -> F;
  fsqrt : F -> F;
  flt : F -> F -> bool;
  is_zero : F -> bool
}.

(** [math.log] on its domain. *)
Class Log (F : Type) : Type := {
  flog : F -> F
}.

Section PythonArithmetic.

Context {F : Type} {arith : Arith F}.

Definition zero : F := of_int 0.

(** Truth value of a number. *)
Definition truthy (x : F) : bool := negb (is_zero x).

(** [a / b] on two [int]s. *)
Definition py_truediv_int (a b : nat) : result F :=
  if b =? 0 then raise ZeroDivisionError
  else ret (fdiv (of_int a) (of_int b)).

(** [x / y] on two [float]s. *)
Definition py_truediv (x y : F) : result F :=
  if is_zero y then raise ZeroDivisionError else ret (fdiv x y).

(** [math.sqrt(x)] *)
Definition py_sqrt (x : F) : result F :=
  if flt x zero then raise ValueError else ret (fsqrt x).

(** [math.log(x)] *)
Definition py_log {lg : Log F} (x : F) : result F :=
  if flt zero x then ret (flog x) else raise ValueError.

(** [sum(xs)] *)
Definition py_sum (xs : list F) : F := fold_left fadd xs zero.

End PythonArithmetic.

(** *** Exact arithmetic *)

Definition R_ltb (x y : R) : bool := if Rlt_dec x y then true else false.
Definition R_is_zero (x : R) : bool := if Req_dec_T x 0%R then true else false.

#[export] Instance exact : Arith R := {|
  of_int := INR;
  fadd := Rplus;
  fmul := Rmult;
  fdiv := Rdiv;
  fneg := Ropp;
  fsqrt := sqrt;
  flt := R_ltb;
  is_zero := R_is_zero
|}.

#[export] Instance exact_log : Log R := {| flog := ln |}.

(** *** IEEE-754 binary64 *)

(** Counters are far below [2^53], so the conversion is exact. *)
#[export] Instance binary64 : Arith PrimFloat.float := {|
  of_int := fun n => PrimFloat.of_uint63 (Uint63.of_Z (Z.of_nat n));
  fadd := PrimFloat.add;
  fmul := PrimFloat.mul;
  fdiv := PrimFloat.div;
  fneg := PrimFloat.opp;
  fsqrt := PrimFloat.sqrt;
  flt := PrimFloat.ltb;
  is_zero := fun x => PrimFloat.eqb x PrimFloat.zero
|}.

(** ** Entries of a source text *)

Definition newline : string := String "010"%char EmptyString.
Definition blank_line : string := String.append newline newline.

Definition nonempty (s : string) : bool :=
  match s with EmptyString => false | String _ _ => true end.

(** [[e.strip() for e in content.split("\n\n") if e.strip()]] *)
Definition split_entries (content : string) : list string :=
  map Str.strip
    (filter (fun e => nonempty (Str.strip e)) (Str.split blank_line content)).

(** ** The module registry *)

(** One round of the loop of [load_module_id_map]. *)
Definition register (module_map : Dict.t nat) (item : nat * string)
  : Dict.t nat :=
  let '(module_id, entry) := item in
  let name := Str.strip (fst (Str.split1 "|" entry)) in
  if nonempty name then Dict.set module_map name module_id else module_map.

(** [load_module_id_map]; the argument is the text of
    [vector-categories.txt], or [None] when the file does not exist.  The
    [lru_cache] is not modelled: the manifest does not change between
    calls. *)
Definition load_module_id_map (manifest : option string) : Dict.t nat :=
  match manifest with
  | None => []
  | Some content =>
      let entries := split_entries content in
      fold_left register (enumerate entries) []
  end.

(** ** Result enrichment *)

Definition parse_op_name (entry : string) : string :=
  Str.strip (fst (Str.split1 "|" entry)).

(** *** The pattern [Parameters?:\s*([^\.]+)], case-insensitive *)
Module ParamRe.

Definition ci_eqb (a b : ascii) : bool :=
  Ascii.eqb (Str.lower_char a) (Str.lower_char b).

(** A literal, ignoring case; what follows it on success. *)
Fixpoint literal (lit s : string) : option string :=
  match lit, s with
  | EmptyString, _ => Some s
  | String a lit', String b s' =>
      if ci_eqb a b then literal lit' s' else None
  | String _ _, EmptyString => None
  end.

(** The longest prefix whose characters satisfy [p], and the rest. *)
Fixpoint span (p : ascii -> bool) (s : string) : string * string :=
  match s with
  | EmptyString => (EmptyString, EmptyString)
  | String c s' =>
      if p c then let '(a, b) := span p s' in (String c a, b)
      else (EmptyString, s)
  end.

Definition not_dot (c : ascii) : bool := negb (Ascii.eqb c ".").

(** [\s*([^\.]+)]: the group.  [\s*] takes every whitespace character;
    when no character other than a period follows, it gives the last one
    back and the group is that single character. *)
Definition group (s : string) : option string :=
  let '(ws, rest) := span Str.is_space s in
  let '(body, _) := span not_dot rest in
  match body with
  | String _ _ => Some body
  | EmptyString =>
      match Str.rev ws with
      | String c _ => Some (String c EmptyString)
      | EmptyString => None
      end
  end.

(** [s?:] then the group: first with the optional [s], then without. *)
Definition tail (s : string) : option string :=
  let with_s :=
    match literal "s" s with
    | Some r => match literal ":" r with Some r' => group r' | None => None end
    | None => None
    end in
  match with_s with
  | Some g => Some g
  | None => match literal ":" s with Some r => group r | None => None end
  end.

Definition match_here (s : string) : option string :=
  match literal "parameter" s with
  | Some r => tail r
  | None => None
  end.

(** [re.search]: the match at the leftmost position; its group 1. *)
Fixpoint search (s : string) : option string :=
  match match_here s with
  | Some g => Some g
  | None =>
      match s with
      | EmptyString => None
      | String _ s' => search s'
      end
  end.

End ParamRe.

Definition parse_params (entry : string) : list string :=
  match ParamRe.search entry with
  | None => []
  | Some raw =>
      map Str.strip
        (filter (fun p => nonempty (Str.strip p)) (Str.split "," raw))
  end.

Definition make_signature (module_id : option nat) (opcode : nat)
  (params : list string) : string :=
  let mid := match module_id with
             | None => "?"
             | Some m => Str.of_nat m
             end in
  match params with
  | _ :: _ =>
      String.concat ""
        [mid; "."; Str.of_nat opcode; "("; Str.join ", " params; ")"]
  | [] => String.concat "" [mid; "."; Str.of_nat opcode; "()"]
  end.

Record Result (F : Type) : Type := mkResult {
  entry : string;
  opcode : nat;
  similarity : F;
  database : string;
  kind : string;
  module_name : string;
  module_id : option nat;
  op_name : string;
  params : list string;
  signature : string
}.

Arguments mkResult {F}.
Arguments entry {F}.
Arguments opcode {F}.
Arguments similarity {F}.
Arguments database {F}.
Arguments kind {F}.
Arguments module_name {F}.
Arguments module_id {F}.
Arguments op_name {F}.
Arguments params {F}.
Arguments signature {F}.

Definition enrich_result {F} (entry : string) (opcode : nat) (similarity : F)
  (database : string) (module_map : Dict.t nat) : Result F :=
  let op_name := parse_op_name entry in
  let is_category := String.eqb database "vector-categories" in
  let kind := if is_category then "category" else "op" in
  let module_id :=
    Dict.get_opt module_map (if is_category then op_name else database) in
  let module_name := if is_category then op_name else database in
  let params := if is_category then [] else parse_params entry in
  let signature :=
    if is_category then "" else make_signature module_id opcode params in
  mkResult entry opcode similarity database kind module_name module_id
    op_name params signature.

(** ** Sorting *)

(** A stable sort that, like [list.sort], only asks whether one element is
    smaller than another: an element goes in front of the first one that is
    not smaller than it. *)
Section Sort.

Context {A : Type} (lt : A -> A -> bool).

Fixpoint insert_by (x : A) (l : list A) : list A :=
  match l with
  | [] => [x]
  | y :: l' => if lt y x then y :: insert_by x l' else x :: l
  end.

Definition sort_by (l : list A) : list A := fold_right insert_by [] l.

End Sort.

(** The order of [sort(key=lambda x: -key(x))]. *)
Definition descending {F} {arith : Arith F} {A} (key : A -> F) (a b : A)
  : bool :=
  flt (fneg (key a)) (fneg (key b)).

(** [{k: v for k, v in items}] *)
Definition dict_of_list {V} (items : list (string * V)) : Dict.t V :=
  fold_left (fun m kv => Dict.set m (fst kv) (snd kv)) items [].

(** [xs[i]] for [i >= 0] *)
Definition nth_item {A} (xs : list A) (i : nat) : result A :=
  match nth_error xs i with
  | Some x => ret x
  | None => raise IndexError
  end.

(** ** The vectorizer *)

Record tfidf (F : Type) : Type := mkTfidf {
  vocab : list string;
  idf : Dict.t F;
  vectors : list (Dict.t F)
}.

Arguments mkTfidf {F}.
Arguments vocab {F}.
Arguments idf {F}.
Arguments vectors {F}.

(** [sorted(set(w for d in docs for w in d))] *)
Definition vocabulary (docs : list (list string)) : list string :=
  sort_by String.ltb (nodup string_dec (List.concat docs)).

(** [{w: i for i, w in enumerate(vocab)}] *)
Definition word_index (vocab : list string) : Dict.t nat :=
  dict_of_list (map (fun iw => (snd iw, fst iw)) (enumerate vocab)).

Definition str_in (w : string) (d : list string) : bool :=
  if in_dec string_dec w d then true else false.

(** [{w: sum(1 for d in docs if w in d) for w in vocab}] *)
Definition doc_freq (docs : list (list string)) (vocab : list string)
  : Dict.t nat :=
  dict_of_list
    (map (fun w => (w, List.length (filter (str_in w) docs))) vocab).

(** [tf = {}; for w in doc: tf[w] = tf.get(w, 0) + 1] *)
Definition term_counts (doc : list string) : Dict.t nat :=
  fold_left (fun tf w => Dict.set tf w (Dict.get tf w 0 + 1)) doc [].

Section Vectorizer.

Context {F : Type} {arith : Arith F} {lg : Log F}.

(** [{w: math.log(N / df[w]) if df[w] else 0 for w in vocab}] *)
Definition idf_table (N : nat) (df : Dict.t nat) (vocab : list string)
  : result (Dict.t F) :=
  Dict.comp
    (fun w =>
       c <- Dict.item df w ;;
       match c with
       | O => ret (w, zero)
       | S _ =>
           q <- py_truediv_int N c ;;
           x <- py_log q ;;
           ret (w, x)
       end)
    vocab [].

(** The body of the loop over [docs]: the sparse vector of one entry. *)
Definition entry_vector (word_idx : Dict.t nat) (idf : Dict.t F)
  (doc : list string) : result (Dict.t F) :=
  match doc with
  | [] => ret []
  | _ :: _ =>
      let tf := term_counts doc in
      Dict.comp
        (fun w =>
           i <- Dict.item word_idx w ;;
           c <- Dict.item tf w ;;
           q <- py_truediv_int c (List.length doc) ;;
           x <- Dict.item idf w ;;
           ret (Str.of_nat i, fmul q x))
        (Dict.keys tf) []
  end.

Definition build_tfidf (entries : list string) : result (tfidf F) :=
  let docs := map tokenize entries in
  let vocab := vocabulary docs in
  let word_idx := word_index vocab in
  let N := List.length docs in
  let df := doc_freq docs vocab in
  idf <- idf_table N df vocab ;;
  vectors <- mapM (entry_vector word_idx idf) docs ;;
  ret (mkTfidf vocab idf vectors).

End Vectorizer.

(** ** Cosine similarity *)

Section Cosine.

Context {F : Type} {arith : Arith F}.

(** [math.sqrt(sum(x*x for x in v.values())) if v else 0] *)
Definition norm (v : Dict.t F) : result F :=
  match v with
  | [] => ret zero
  | _ :: _ => py_sqrt (py_sum (map (fun x => fmul x x) (Dict.values v)))
  end.

Definition cosine_sim (v1 v2 : Dict.t F) : result F :=
  let keys := set_union (Dict.keys v1) (Dict.keys v2) in
  let dot :=
    py_sum (map (fun k => fmul (Dict.get v1 k zero) (Dict.get v2 k zero)) keys) in
  n1 <- norm v1 ;;
  n2 <- norm v2 ;;
  if truthy n1 && truthy n2 then py_truediv dot (fmul n1 n2) else ret zero.

End Cosine.

(** ** Files *)

(** An index document: the five members [vectorize_file] gives it. *)
Record document (F : Type) : Type := mkDocument {
  db_vocab : list string;
  db_idf : Dict.t F;
  db_vectors : list (Dict.t F);
  db_entries : list string;
  db_metadata : Dict.t string
}.

Arguments mkDocument {F}.
Arguments db_vocab {F}.
Arguments db_idf {F}.
Arguments db_vectors {F}.
Arguments db_entries {F}.
Arguments db_metadata {F}.

(** A JSON object as [json.load] returns it, seen through the keys of an
    index document: each member is absent or present.  [{}] has none. *)
Record json_object (F : Type) : Type := mkObject {
  member_vocab : option (list string);
  member_idf : option (Dict.t F);
  member_vectors : option (list (Dict.t F));
  member_entries : option (list string);
  member_metadata : option (Dict.t string)
}.

Arguments mkObject {F}.
Arguments member_vocab {F}.
Arguments member_idf {F}.
Arguments member_vectors {F}.
Arguments member_entries {F}.
Arguments member_metadata {F}.

(** What [json.load] returns: an object, or a list, a string, a number,
    [True], [False] or [None], which the program cannot tell apart (its
    first subscript [db["vocab"]] raises [TypeError] on each of them). *)
Inductive json_value (F : Type) : Type :=
| Object (o : json_object F)
| NotObject.

Arguments Object {F}.
Arguments NotObject {F}.

(** What a [.dat] file holds: JSON text, or text that [json.load]
    rejects. *)
Inductive dat (F : Type) : Type :=
| Json (v : json_value F)
| Unparsable.

Arguments Json {F}.
Arguments Unparsable {F}.

(** The file of an index document: an object with all five members. *)
Definition object_of {F} (db : document F) : json_object F :=
  mkObject (Some (db_vocab db)) (Some (db_idf db)) (Some (db_vectors db))
    (Some (db_entries db)) (Some (db_metadata db)).

Definition Index {F} (db : document F) : dat F := Json (Object (object_of db)).

(** The files the program sees: the text of the default
    [vector-categories.txt] (if it exists), the [.dat] file at a path (if
    there is one), and the names in a directory (if it exists). *)
Record world (F : Type) : Type := mkWorld {
  manifest : option string;
  dat_file : string -> option (dat F);
  listing : string -> option (list string)
}.

Arguments mkWorld {F}.
Arguments manifest {F}.
Arguments dat_file {F}.
Arguments listing {F}.

Module Path.

(** [dir / name] *)
Definition join (dir name : string) : string :=
  String.append dir (String.append "/" name).

(** The final component of a path. *)
Definition name (p : string) : string :=
  Str.rev (fst (Str.split1 "/" (Str.rev p))).

(** [Path(p).stem]: the final component without its last suffix; a dot
    that starts or ends the name does not begin a suffix. *)
Definition stem (p : string) : string :=
  let n := name p in
  match Str.split1 "." (Str.rev n) with
  | (_, []) => n
  | (EmptyString, _) => n
  | (String _ _, r :: _) =>
      match r with
      | EmptyString => n
      | String _ _ => Str.rev r
      end
  end.

(** [fnmatch(name, "*.dat")] *)
Definition is_dat (name : string) : bool :=
  prefix "tad." (Str.rev name).

End Path.

(** ** The query engine *)

Section Search.

Context {F : Type} {arith : Arith F}.

(** [open(db_path)] followed by [json.load]. *)
Definition load_index (w : world F) (db_path : string)
  : result (json_value F) :=
  match dat_file w db_path with
  | None => raise FileNotFoundError
  | Some Unparsable => raise JSONDecodeError
  | Some (Json db) => ret db
  end.

(** [db[key]]: [TypeError] when [db] is no object, [KeyError] when the
    object has no such member. *)
Definition subscript {A} (db : json_value F)
  (member : json_object F -> option A) : result A :=
  match db with
  | NotObject => raise TypeError
  | Object o =>
      match member o with
      | None => raise KeyError
      | Some v => ret v
      end
  end.

(** The counts of the query words that are in the vocabulary. *)
Definition query_counts (word_idx : Dict.t nat) (words : list string)
  : Dict.t nat :=
  fold_left
    (fun tf w =>
       if Dict.contains word_idx w
       then Dict.set tf w (Dict.get tf w 0 + 1)
       else tf)
    words [].

(** The query vector [q_vec]. *)
Definition query_vector (vocab : list string) (idf : Dict.t F)
  (words : list string) : result (Dict.t F) :=
  let word_idx := word_index vocab in
  let tf := query_counts word_idx words in
  Dict.comp
    (fun w =>
       i <- Dict.item word_idx w ;;
       c <- Dict.item tf w ;;
       q <- py_truediv_int c (List.length words) ;;
       ret (Str.of_nat i, fmul q (Dict.get idf w zero)))
    (Dict.keys tf) [].

(** [[(i, cosine_sim(q_vec, v)) for i, v in enumerate(vectors)]] *)
Definition score_all (q_vec : Dict.t F) (vectors : list (Dict.t F))
  : result (list (nat * F)) :=
  mapM (fun iv => s <- cosine_sim q_vec (snd iv) ;; ret (fst iv, s))
    (enumerate vectors).

(** The order of [sort(key=lambda x: -x[1])]. *)
Definition by_score : nat * F -> nat * F -> bool := descending snd.

Definition _search (w : world F) (query db_path : string) (top_k : Z)
  (module_map : Dict.t nat) : result (list (Result F)) :=
  let database := Path.stem db_path in
  db <- load_index w db_path ;;
  let words := tokenize query in
  match words with
  | [] => ret []
  | _ :: _ =>
      vocab <- subscript db member_vocab ;;
      idf <- subscript db member_idf ;;
      q_vec <- query_vector vocab idf words ;;
      vectors <- subscript db member_vectors ;;
      scores <- score_all q_vec vectors ;;
      let scores := sort_by by_score scores in
      mapM
        (fun is_ =>
           entries <- subscript db member_entries ;;
           entry <- nth_item entries (fst is_) ;;
           ret (enrich_result entry (fst is_) (snd is_) database module_map))
        (slice_to scores top_k)
  end.

Definition search (w : world F) (query db_path : string) (top_k : Z)
  : result (list (Result F)) :=
  let module_map := load_module_id_map (manifest w) in
  _search w query db_path top_k module_map.

(** [build_dir.glob('*.dat')]: nothing when the directory is missing. *)
Definition glob_dat (w : world F) (build_dir : string) : list string :=
  match listing w build_dir with
  | None => []
  | Some names => map (Path.join build_dir) (filter Path.is_dat names)
  end.

(** The order of [sort(key=lambda x: -x['similarity'])]. *)
Definition by_similarity : Result F -> Result F -> bool :=
  descending similarity.

Definition search_all (w : world F) (query build_dir : string) (top_k : Z)
  : result (list (Result F)) :=
  let module_map := load_module_id_map (manifest w) in
  per_file <-
    mapM (fun dat => _search w query dat top_k module_map)
      (glob_dat w build_dir) ;;
  let results := List.concat per_file in
  ret (slice_to (sort_by by_similarity results) top_k).

End Search.

(** ** Building an index file *)

Section Build.

Context {F : Type} {arith : Arith F} {lg : Log F}.

(** [json.dump(data, f)] into [build_dir / name], creating the directory
    if need be.  The world keeps of a file what [json.load] returns for
    it: for the file written here the object of [data] (the index store,
    further down, has the conversions). *)
Definition write_index (w : world F) (build_dir name : string)
  (data : document F) : world F :=
  let out_path := Path.join build_dir name in
  let names := match listing w build_dir with
               | None => []
               | Some ns => ns
               end in
  mkWorld (manifest w)
    (fun p => if String.eqb p out_path then Some (Index data)
              else dat_file w p)
    (fun d => if String.eqb d build_dir
              then Some (if str_in name names then names else names ++ [name])
              else listing w d).

(** [vectorize_file]; [source_name] is [source_file.name] and [content]
    the text read from the file. *)
Definition vectorize_file (w : world F) (source_name content : string)
  (build_dir : string) : result (bool * world F) :=
  let entries := split_entries content in
  match entries with
  | [] => ret (false, w)
  | _ :: _ =>
      t <- build_tfidf entries ;;
      let data :=
        mkDocument (vocab t) (idf t) (vectors t) entries
          [("source", source_name)] in
      let out_name := Str.replace ".txt" ".dat" source_name in
      ret (true, write_index w build_dir out_name data)
  end.

End Build.

(** A world with no files at all. *)
Definition no_files {F} : world F :=
  mkWorld None (fun _ => None) (fun _ => None).


(** ** Vocabulary of the statements *)

(** The name of a manifest record: what precedes the first bar, trimmed. *)
Definition record_name (entry : string) : string :=
  Str.strip (fst (Str.split1 "|" entry)).

(** The names of the records of a manifest, in file order. *)
Definition record_names (content : string) : list string :=
  map record_name (split_entries content).

(** [id] is the position of the last record called [name]. *)
Definition last_position (names : list string) (name : string) (id : nat)
  : Prop :=
  nth_error names id = Some name /\
  forall j, id < j -> nth_error names j <> Some name.

(** The registry as the specification words it: the named records, each
    with its position among the named records. *)
Definition dense_registry (content : string) : Dict.t nat :=
  let named := filter nonempty (record_names content) in
  combine named (seq 0 (List.length named)).

(** The position of the last record called [name], counted from [s]. *)
Fixpoint last_named (names : list string) (name : string) (s : nat)
  : option nat :=
  match names with
  | [] => None
  | n :: ns =>
      match last_named ns name (S s) with
      | Some j => Some j
      | None => if String.eqb n name then Some s else None
      end
  end.

(** ** The values computed when nothing raises *)

Section Values.

Context {F : Type} {arith : Arith F}.

(** The item of a sparse vector for the word [w]: the numeral of its
    position in the vocabulary, and its weight. *)
Definition weight_item (word_idx : Dict.t nat) (idf : Dict.t F)
  (tf : Dict.t nat) (len : nat) (w : string) : string * F :=
  (Str.of_nat (Dict.get word_idx w 0),
   fmul (fdiv (of_int (Dict.get tf w 0)) (of_int len)) (Dict.get idf w zero)).

Definition entry_vector_value (word_idx : Dict.t nat) (idf : Dict.t F)
  (doc : list string) : Dict.t F :=
  match doc with
  | [] => []
  | _ :: _ =>
      let tf := term_counts doc in
      dict_of_list
        (map (weight_item word_idx idf tf (List.length doc)) (Dict.keys tf))
  end.

Definition doc_count (docs : list (list string)) (w : string) : nat :=
  List.length (filter (str_in w) docs).

Definition idf_value {lg : Log F} (docs : list (list string))
  (vocab : list string) : Dict.t F :=
  map (fun w =>
         (w, flog (fdiv (of_int (List.length docs)) (of_int (doc_count docs w)))))
    vocab.

Definition tfidf_value {lg : Log F} (entries : list string) : tfidf F :=
  let docs := map tokenize entries in
  let vocab := vocabulary docs in
  let idf := idf_value docs vocab in
  mkTfidf vocab idf (map (entry_vector_value (word_index vocab) idf) docs).

Definition dot_value (v1 v2 : Dict.t F) : F :=
  py_sum
    (map (fun k => fmul (Dict.get v1 k zero) (Dict.get v2 k zero))
       (set_union (Dict.keys v1) (Dict.keys v2))).

Definition norm_value (v : Dict.t F) : F :=
  match v with
  | [] => zero
  | _ :: _ => fsqrt (py_sum (map (fun x => fmul x x) (Dict.values v)))
  end.

Definition cosine_value (v1 v2 : Dict.t F) : F :=
  if truthy (norm_value v1) && truthy (norm_value v2)
  then fdiv (dot_value v1 v2) (fmul (norm_value v1) (norm_value v2))
  else zero.

Definition query_vector_value (db : document F) (words : list string)
  : Dict.t F :=
  let word_idx := word_index (db_vocab db) in
  let tf := query_counts word_idx words in
  dict_of_list
    (map (weight_item word_idx (db_idf db) tf (List.length words))
       (Dict.keys tf)).

Definition scores_value (q_vec : Dict.t F) (vectors : list (Dict.t F))
  : list (nat * F) :=
  map (fun iv => (fst iv, cosine_value q_vec (snd iv))) (enumerate vectors).

End Values.

(** The idf of a word that [df] of the [n] entries contain. *)
Definition idf_of {F} {arith : Arith F} {lg : Log F} (n df : nat) : F :=
  flog (fdiv (of_int n) (of_int df)).

(** The tf-idf weight of such a word, seen [c] times in an entry of [len]
    words. *)
Definition weight {F} {arith : Arith F} {lg : Log F} (c len n df : nat) : F :=
  fmul (fdiv (of_int c) (of_int len)) (idf_of n df).

(** The sum of a list of reals. *)
Definition Rsum (xs : list R) : R := fold_right Rplus 0%R xs.

(** The ranking order of scored entries: a higher score first, and among
    equal scores the earlier entry first. *)
Definition ranks_before (a b : nat * R) : Prop :=
  (snd b < snd a)%R \/ (snd a = snd b /\ fst a < fst b).

(** The document written by [vectorize_file] for an index [t]. *)
Definition document_of {F} (t : tfidf F) (entries : list string)
  (source_name : string) : document F :=
  mkDocument (vocab t) (idf t) (vectors t) entries [("source", source_name)].

(** A world whose only file is the index document [db] at [path]. *)
Definition only_index {F} (path : string) (db : document F) : world F :=
  mkWorld None
    (fun p => if String.eqb p path then Some (Index db) else None)
    (fun _ => None).

(** ** Example data *)

Definition manifest_alpha_beta : string :=
  String.concat "" ["alpha | x"; blank_line; "beta | y"; newline].

Definition manifest_unnamed_first : string :=
  String.concat "" ["| x"; blank_line; "beta | y"; newline].

(** A world of three files that hold no index: [empty.dat] holds [{}],
    [list.dat] a JSON list, and [broken.dat] no JSON text at all. *)
Definition broken_world {F} : world F :=
  mkWorld None
    (fun p =>
       if String.eqb p "vectors/empty.dat"
       then Some (Json (Object (mkObject None None None None None)))
       else if String.eqb p "vectors/list.dat" then Some (Json NotObject)
       else if String.eqb p "vectors/broken.dat" then Some Unparsable
       else None)
    (fun d => if String.eqb d "vectors"
              then Some ["empty.dat"; "list.dat"; "broken.dat"] else None).

(** Two entries that share the word [a]. *)
Definition shared_word_entries : list string := ["a b"; "a c"].

(** A hand-written index of three entries over the vocabulary [a], [b]. *)
Definition tiny_db : document R :=
  mkDocument ["a"; "b"] [("a", 1%R); ("b", 1%R)]
    [[("0", 1%R)]; [("1", 1%R)]; [("0", 1%R); ("1", 1%R)]]
    ["a"; "b"; "a b"] [("source", "tiny.txt")].

(** The vector [{"0": 2.0, "1": 3.0}] in binary64. *)
Definition vec_2_3 : Dict.t PrimFloat.float :=
  [("0", of_int 2); ("1", of_int 3)].

(** An index document in binary64 whose second vector holds the weight
    [NaN], which [json.load] accepts. *)
Definition nan_db : document PrimFloat.float :=
  mkDocument ["a"; "b"] [("a", of_int 1); ("b", of_int 1)]
    [[("0", of_int 1); ("1", of_int 1)]; [("0", PrimFloat.nan)];
     [("0", of_int 1)]]
    ["a b"; "a"; "a"] [("source", "nan.txt")].

(** Two vectors with non-negative weights over exact reals. *)
Definition vec_x : Dict.t R := [("0", 1%R); ("2", 2%R)].
Definition vec_y : Dict.t R := [("2", 3%R); ("5", 1%R)].

(** The source file and the manifest of the smoke test. *)
Definition entry_add : string := "add | Adds two numbers. Parameters: a, b.".
Definition entry_print : string := "print | Prints a value. Parameters: value.".

Definition mymod_source : string :=
  String.concat "" [entry_add; blank_line; entry_print; newline].

Definition mymod_manifest : string :=
  String.concat "" ["mymod | Example module for tests."; newline].

Definition mymod_vocab : list string :=
  ["a"; "add"; "adds"; "b"; "numbers"; "parameters"; "print"; "prints";
   "two"; "value"].

Section MymodIndex.

Context {F : Type} {arith : Arith F} {lg : Log F}.

Definition mymod_idf : Dict.t F :=
  [("a", idf_of 2 2); ("add", idf_of 2 1); ("adds", idf_of 2 1);
   ("b", idf_of 2 1); ("numbers", idf_of 2 1); ("parameters", idf_of 2 2);
   ("print", idf_of 2 1); ("prints", idf_of 2 1); ("two", idf_of 2 1);
   ("value", idf_of 2 1)].

Definition mymod_vector_add : Dict.t F :=
  [("1", weight 1 7 2 1); ("2", weight 1 7 2 1); ("8", weight 1 7 2 1);
   ("4", weight 1 7 2 1); ("5", weight 1 7 2 2); ("0", weight 1 7 2 2);
   ("3", weight 1 7 2 1)].

Definition mymod_vector_print : Dict.t F :=
  [("6", weight 1 6 2 1); ("7", weight 1 6 2 1); ("0", weight 1 6 2 2);
   ("9", weight 2 6 2 1); ("5", weight 1 6 2 2)].

Definition mymod_index : tfidf F :=
  mkTfidf mymod_vocab mymod_idf [mymod_vector_add; mymod_vector_print].

Definition mymod_document : document F :=
  document_of mymod_index [entry_add; entry_print] "mymod.txt".

Definition mymod_query_vector : Dict.t F :=
  [("1", weight 1 4 2 1); ("4", weight 1 4 2 1)].

End MymodIndex.

(** A world with one directory, holding [tiny_db] and a stray text file. *)
Definition tiny_world : world R :=
  mkWorld None
    (fun p => if String.eqb p "vectors/tiny.dat" then Some (Index tiny_db)
              else None)
    (fun d => if String.eqb d "vectors" then Some ["tiny.dat"; "notes.txt"]
              else None).

(** A source text of blank lines only. *)
Definition blank_source : string :=
  String.concat "" [newline; blank_line; "  "; newline].

(** ** Strings as lists of characters *)

Definition chars (s : string) : list ascii := list_ascii_of_string s.

(** [s.lstrip()] on the list of characters. *)
Fixpoint drop_spaces (cs : list ascii) : list ascii :=
  match cs with
  | [] => []
  | c :: cs' => if Str.is_space c then drop_spaces cs' else cs
  end.

(** A string without surrounding whitespace. *)
Definition trimmed (s : string) : Prop := Str.strip s = s.

(** A character of a token: a lowercase letter, a digit or the underscore. *)
Definition token_char (c : ascii) : bool :=
  Str.is_word c && negb (Str.is_upper c).

(** A manifest of two modules, as the index document of the category
    database holds it, and a world with both. *)
Definition category_db : document R :=
  mkDocument ["alpha"; "beta"; "x"; "y"]
    [("alpha", 1%R); ("beta", 1%R); ("x", 1%R); ("y", 1%R)]
    [[("0", 1%R); ("2", 1%R)]; [("1", 1%R); ("3", 1%R)]]
    ["alpha | x"; "beta | y"] [("source", "vector-categories.txt")].

Definition category_world : world R :=
  mkWorld (Some manifest_alpha_beta)
    (fun p => if String.eqb p "vectors/vector-categories.dat"
              then Some (Index category_db) else None)
    (fun d => if String.eqb d "vectors" then Some ["vector-categories.dat"]
              else None).

(** An index document with one vector more than it has entries. *)
Definition lopsided_db : document R :=
  mkDocument ["a"] [("a", 1%R)] [[("0", 1%R)]; [("0", 1%R)]] ["a"]
    [("source", "lopsided.txt")].

(** Strictly before, in the order of [sorted] on strings. *)
Definition str_lt (a b : string) : Prop := String.ltb a b = true.

(** Two corpora with the same words, in another order. *)
Definition docs_ab_c : list (list string) := [["b"; "a"]; ["c"]].
Definition docs_c_ba : list (list string) := [["c"; "a"]; ["a"; "b"; "c"]].

(** ** Building every index *)

Section BuildAll.

Context {F : Type} {arith : Arith F} {lg : Log F}.

(** The loop of [vectorize_all]: what [vectorize_file] returns is dropped,
    what it raises is passed on. *)
Fixpoint vectorize_each (w : world F) (sources : list (string * string))
  (build_dir : string) : result (world F) :=
  match sources with
  | [] => ret w
  | (source_name, content) :: rest =>
      '(_, w') <- vectorize_file w source_name content build_dir ;;
      vectorize_each w' rest build_dir
  end.

(** [vectorize_all]; [sources] are the [.txt] files of the source
    directory, each with its name and its text, in the order [glob] yields
    them.  Without any the function only prints a message. *)
Definition vectorize_all (w : world F) (sources : list (string * string))
  (build_dir : string) : result (world F) :=
  match sources with
  | [] => ret w
  | _ :: _ => vectorize_each w sources build_dir
  end.

End BuildAll.

(** The name of the index file written for a source file. *)
Definition out_name (source_name : string) : string :=
  Str.replace ".txt" ".dat" source_name.

(** A text with a character other than whitespace. *)
Definition has_text (content : string) : Prop :=
  exists c, Str.mem c content = true /\ Str.is_space c = false.

(** Two source files, one of them blank. *)
Definition two_sources : list (string * string) :=
  [("mymod.txt", mymod_source); ("empty.txt", blank_source)].

(** ** The index store *)

Module Json.

(** Modelled from the spec: the durable document format of the index
    store, a flat JSON-like document.  [vectorize_file] hands the index to
    [json.dump] and [_search] reads it with [json.load]; both are functions
    of Python's library, not of the sources, and are taken from the
    conversion tables in the documentation of the [json] module.  [key] is
    a dictionary key that [json.dump] accepts (a float key, which it
    accepts too, is left out). *)
Inductive key : Set :=
| KStr (s : string)
| KInt (z : Z)
| KBool (b : bool)
| KNone.

(** Modelled from the spec: a Python object as [json.dump] is given it and
    as [json.load] returns it. *)
#[local] Unset Elimination Schemes.

Inductive value (F : Type) : Type :=
| VNone
| VBool (b : bool)
| VInt (z : Z)
| VFloat (x : F)
| VStr (s : string)
| VList (items : list (value F))
| VTuple (items : list (value F))
| VDict (items : list (key * value F)).

Arguments VNone {F}.
Arguments VBool {F}.
Arguments VInt {F}.
Arguments VFloat {F}.
Arguments VStr {F}.
Arguments VList {F}.
Arguments VTuple {F}.
Arguments VDict {F}.

(** Modelled from the spec: the JSON document in the file, by its
    structure; indentation and escapes are not part of it.  A number
    carries its value: a float is written as [repr] prints it, which
    [float] reads back to the same float. *)
Inductive json (F : Type) : Type :=
| JNull
| JBool (b : bool)
| JInt (z : Z)
| JReal (x : F)
| JString (s : string)
| JArray (items : list (json F))
| JObject (members : list (string * json F)).

Arguments JNull {F}.
Arguments JBool {F}.
Arguments JInt {F}.
Arguments JReal {F}.
Arguments JString {F}.
Arguments JArray {F}.
Arguments JObject {F}.

#[local] Set Elimination Schemes.

(** [str(z)] *)
Definition int_text (z : Z) : string :=
  match z with
  | Zneg p => String "-" (Str.of_nat (Pos.to_nat p))
  | _ => Str.of_nat (Z.to_nat z)
  end.

(** Modelled from the spec: the name of a member; [json.dump] coerces
    every key to a string. *)
Definition key_text (k : key) : string :=
  match k with
  | KStr s => s
  | KInt z => int_text z
  | KBool true => "true"
  | KBool false => "false"
  | KNone => "null"
  end.

(** Modelled from the spec: [json.dump].  A dict becomes an object, a list
    and a tuple an array, a str a string, an int and a float a number. *)
Fixpoint dump {F} (v : value F) : json F :=
  match v with
  | VNone => JNull
  | VBool b => JBool b
  | VInt z => JInt z
  | VFloat x => JReal x
  | VStr s => JString s
  | VList items => JArray (map dump items)
  | VTuple items => JArray (map dump items)
  | VDict items =>
      JObject (map (fun kv => (key_text (fst kv), dump (snd kv))) items)
  end.

(** Modelled from the spec: [json.load].  An object becomes a dict with
    str keys (of a repeated name the last value is kept), an array a list,
    a number an int or a float. *)
Fixpoint load {F} (j : json F) : value F :=
  match j with
  | JNull => VNone
  | JBool b => VBool b
  | JInt z => VInt z
  | JReal x => VFloat x
  | JString s => VStr s
  | JArray items => VList (map load items)
  | JObject members =>
      VDict
        (map (fun kv => (KStr (fst kv), snd kv))
           (dict_of_list (map (fun m => (fst m, load (snd m))) members)))
  end.

(** A dict with str keys as a Python object. *)
Definition dict_value {F V} (item : V -> value F) (d : Dict.t V) : value F :=
  VDict (map (fun kv => (KStr (fst kv), item (snd kv))) d).

(** The dictionary [data] that [vectorize_file] hands to [json.dump]: the
    three members [build_tfidf] returns, then [entries] and [metadata]. *)
Definition data_object {F} (data : document F) : value F :=
  VDict
    [(KStr "vocab", VList (map VStr (db_vocab data)));
     (KStr "idf", dict_value VFloat (db_idf data));
     (KStr "vectors", VList (map (dict_value VFloat) (db_vectors data)));
     (KStr "entries", VList (map VStr (db_entries data)));
     (KStr "metadata", dict_value VStr (db_metadata data))].

(** The objects that are read back as they were written: no tuple, and
    dictionaries whose keys are strings, each once. *)
Fixpoint stable {F} (v : value F) : Prop :=
  match v with
  | VList items =>
      (fix all (l : list (value F)) : Prop :=
         match l with
         | [] => True
         | x :: r => stable x /\ all r
         end) items
  | VTuple _ => False
  | VDict items =>
      NoDup (map fst items) /\
      (fix all (l : list (key * value F)) : Prop :=
         match l with
         | [] => True
         | kv :: r => (exists s, fst kv = KStr s) /\ stable (snd kv) /\ all r
         end) items
  | _ => True
  end.

End Json.

(** A dictionary with the key [1], and a pair. *)
Definition int_keyed : Json.value R :=
  Json.VDict [(Json.KInt 1, Json.VTuple [Json.VFloat 0%R; Json.VStr "a"])].
(** * Properties *)

(** ** The error monad *)

Lemma bind_ok {A B} (m : result A) (k : A -> result B) (b : B) :
  bind m k = inr b -> exists a, m = inr a /\ k a = inr b.
Proof.
  destruct m as [e | a]; simpl; intros H.
  - discriminate.
  - exists a. split; [reflexivity | exact H].
Qed.

Lemma bind_ret {A B} (a : A) (k : A -> result B) : bind (ret a) k = k a.
Proof. reflexivity. Qed.

Ltac inv_bind H :=
  let a := fresh "a" in
  let Ha := fresh "Ha" in
  apply bind_ok in H; destruct H as (a & Ha & H).

(** A comprehension whose body never raises is a [map]. *)
Lemma mapM_pure {A B} (f : A -> result B) (g : A -> B) (xs : list A) :
  (forall x, In x xs -> f x = inr (g x)) ->
  mapM f xs = inr (map g xs).
Proof.
  induction xs as [| x xs IH]; intros Hf; simpl.
  - reflexivity.
  - rewrite (Hf x (or_introl eq_refl)). simpl.
    rewrite IH by (intros y Hy; apply Hf; right; exact Hy).
    reflexivity.
Qed.

Lemma mapM_ok {A B} (f : A -> result B) (xs : list A) (ys : list B) :
  mapM f xs = inr ys -> Forall2 (fun x y => f x = inr y) xs ys.
Proof.
  revert ys. induction xs as [| x xs IH]; intros ys H; simpl in H.
  - injection H as <-. constructor.
  - inv_bind H. inv_bind H. injection H as <-.
    constructor; [assumption | apply IH; assumption].
Qed.

Lemma mapM_length {A B} (f : A -> result B) (xs : list A) (ys : list B) :
  mapM f xs = inr ys -> List.length ys = List.length xs.
Proof.
  intros H. apply mapM_ok in H. symmetry. eapply Forall2_length; eassumption.
Qed.

(** ** Dictionaries *)

Module DictFacts.

Import Dict.

Section Facts.

Context {V : Type}.
Implicit Types (d : t V) (k : string) (v : V).

Lemma find_set_same d k v : find (set d k v) k = Some v.
Proof.
  induction d as [| [k' v'] d IH]; simpl.
  - rewrite String.eqb_refl. reflexivity.
  - destruct (String.eqb k' k) eqn:E; simpl; rewrite E; auto.
Qed.

Lemma find_set_other d k k' v :
  k <> k' -> find (set d k v) k' = find d k'.
Proof.
  intros Hne. induction d as [| [k0 v0] d IH]; simpl.
  - apply String.eqb_neq in Hne. rewrite Hne. reflexivity.
  - destruct (String.eqb k0 k) eqn:E; simpl.
    + apply String.eqb_eq in E. subst k0.
      apply String.eqb_neq in Hne. rewrite Hne. reflexivity.
    + rewrite IH. reflexivity.
Qed.

Lemma find_some_in d k v : find d k = Some v -> In (k, v) d.
Proof.
  induction d as [| [k' v'] d IH]; simpl; intros H.
  - discriminate.
  - destruct (String.eqb k' k) eqn:E.
    + apply String.eqb_eq in E. injection H as <-. subst. left. reflexivity.
    + right. apply IH. exact H.
Qed.

Lemma find_none_iff d k : find d k = None <-> ~ In k (keys d).
Proof.
  induction d as [| [k' v'] d IH]; simpl.
  - split; auto.
  - destruct (String.eqb k' k) eqn:E.
    + apply String.eqb_eq in E. subst. split; [discriminate | intuition].
    + apply String.eqb_neq in E. rewrite IH. intuition.
Qed.

Lemma find_in_keys d k : In k (keys d) -> exists v, find d k = Some v.
Proof.
  intros Hin. destruct (find d k) as [v |] eqn:E.
  - exists v. reflexivity.
  - apply find_none_iff in E. contradiction.
Qed.

Lemma contains_iff d k : contains d k = true <-> In k (keys d).
Proof.
  unfold contains. destruct (find d k) eqn:E.
  - split; [intros _ | reflexivity].
    apply find_some_in in E. apply (in_map fst) in E. exact E.
  - apply find_none_iff in E. split; [discriminate | contradiction].
Qed.

Lemma keys_set_in d k v :
  In k (keys d) -> keys (set d k v) = keys d.
Proof.
  induction d as [| [k' v'] d IH]; simpl; intros Hin.
  - contradiction.
  - destruct (String.eqb k' k) eqn:E; simpl.
    + reflexivity.
    + apply String.eqb_neq in E. f_equal. apply IH.
      destruct Hin; [contradiction | assumption].
Qed.

Lemma keys_set_fresh d k v :
  ~ In k (keys d) -> set d k v = d ++ [(k, v)].
Proof.
  induction d as [| [k' v'] d IH]; simpl; intros Hin.
  - reflexivity.
  - destruct (String.eqb k' k) eqn:E.
    + apply String.eqb_eq in E. subst. exfalso. apply Hin. left. reflexivity.
    + f_equal. apply IH. intuition.
Qed.

Lemma in_keys_set d k v k' :
  In k' (keys (set d k v)) <-> k' = k \/ In k' (keys d).
Proof.
  destruct (in_dec string_dec k (keys d)) as [Hin | Hout].
  - rewrite keys_set_in by assumption. split; [auto |].
    intros [-> | H]; assumption.
  - rewrite keys_set_fresh by assumption. unfold keys.
    rewrite map_app, in_app_iff. simpl. intuition.
Qed.

Lemma wf_set d k v : wf d -> wf (set d k v).
Proof.
  unfold wf. intros Hwf.
  destruct (in_dec string_dec k (keys d)) as [Hin | Hout].
  - rewrite keys_set_in by assumption. exact Hwf.
  - rewrite keys_set_fresh by assumption. unfold keys in *.
    rewrite map_app. simpl.
    apply NoDup_app; [exact Hwf | repeat constructor; auto |].
    intros a Ha [<- | []]. contradiction.
Qed.

Lemma wf_nil : wf (@nil (string * V)).
Proof. constructor. Qed.

(** A comprehension whose body never raises folds [set]. *)
Lemma comp_pure {A} (f : A -> result (string * V)) (g : A -> string * V)
  (xs : list A) (acc : t V) :
  (forall x, In x xs -> f x = inr (g x)) ->
  comp f xs acc =
  inr (fold_left (fun m x => set m (fst (g x)) (snd (g x))) xs acc).
Proof.
  revert acc. induction xs as [| x xs IH]; intros acc Hf; simpl.
  - reflexivity.
  - rewrite (Hf x (or_introl eq_refl)). simpl.
    destruct (g x) as [k v]. simpl.
    apply IH. intros y Hy. apply Hf. right. exact Hy.
Qed.

(** Keys of a comprehension come from the accumulator or from an item. *)
Lemma comp_keys {A} (f : A -> result (string * V)) (xs : list A)
  (acc d : t V) :
  comp f xs acc = inr d ->
  forall k, In k (keys d) ->
    In k (keys acc) \/ exists x v, In x xs /\ f x = inr (k, v).
Proof.
  revert acc. induction xs as [| x xs IH]; intros acc H k Hk; simpl in H.
  - injection H as <-. left. exact Hk.
  - inv_bind H. destruct a as [k0 v0].
    destruct (IH _ H k Hk) as [Hacc | (y & v & Hy & Hfy)].
    + apply in_keys_set in Hacc. destruct Hacc as [-> | Hacc].
      * right. exists x, v0. split; [left; reflexivity | exact Ha].
      * left. exact Hacc.
    + right. exists y, v. split; [right; exact Hy | exact Hfy].
Qed.

Lemma comp_wf {A} (f : A -> result (string * V)) (xs : list A)
  (acc d : t V) :
  wf acc -> comp f xs acc = inr d -> wf d.
Proof.
  revert acc. induction xs as [| x xs IH]; intros acc Hwf H; simpl in H.
  - injection H as <-. exact Hwf.
  - inv_bind H. destruct a as [k0 v0].
    eapply IH; [| exact H]. apply wf_set. exact Hwf.
Qed.

End Facts.

End DictFacts.

(** ** Strings *)

Lemma split1_absent (c : ascii) (s : string) :
  Str.mem c s = false -> Str.split1 c s = (s, []).
Proof.
  induction s as [| a s IH]; simpl; intros H.
  - reflexivity.
  - apply orb_false_elim in H. destruct H as [Ha Hs].
    rewrite Ha, (IH Hs). reflexivity.
Qed.

Lemma nonempty_true (s : string) : nonempty s = true <-> s <> "".
Proof.
  destruct s; simpl; split; intros H; try congruence; discriminate.
Qed.

(** ** Operation names (C10) *)

(** C10.  An entry text without a bar is its own operation name: the name
    parsed from it is the whole text, trimmed, and the result built by
    [enrich_result] carries that name. *)
Theorem op_name_without_bar {F : Type} (entry : string) (opcode : nat)
  (similarity : F) (database : string) (module_map : Dict.t nat) :
  Str.mem "|" entry = false ->
  parse_op_name entry = Str.strip entry /\
  exists r : Result F,
    enrich_result entry opcode similarity database module_map = r /\
    op_name r = Str.strip entry.
Proof.
  intros Hbar.
  assert (Hname : parse_op_name entry = Str.strip entry).
  { unfold parse_op_name. rewrite (split1_absent _ _ Hbar). reflexivity. }
  split; [exact Hname |].
  eexists. split; [reflexivity |]. simpl. exact Hname.
Qed.

Lemma op_name_without_bar_witness :
  Str.mem "|" "  clear screen " = false /\
  parse_op_name "  clear screen " = "clear screen" /\
  exists r : Result R,
    enrich_result "  clear screen " 4 0%R "gfx" [("gfx", 2)] = r /\
    op_name r = "clear screen".
Proof.
  split; [reflexivity |].
  exact (@op_name_without_bar R "  clear screen " 4 0%R "gfx" [("gfx", 2)]
           eq_refl).
Defined.

(** ** The module registry (C2) *)

Lemma register_find (module_map : Dict.t nat) (i : nat) (e name : string) :
  Dict.find (register module_map (i, e)) name =
  if String.eqb (record_name e) name && nonempty name then Some i
  else Dict.find module_map name.
Proof.
  unfold register. fold (record_name e).
  destruct (String.eqb (record_name e) name) eqn:E; simpl.
  - apply String.eqb_eq in E. rewrite E.
    destruct (nonempty name); [apply DictFacts.find_set_same | reflexivity].
  - apply String.eqb_neq in E.
    destruct (nonempty (record_name e));
      [apply DictFacts.find_set_other; exact E | reflexivity].
Qed.

Lemma fold_register_find (entries : list string) (s : nat)
  (acc : Dict.t nat) (name : string) :
  Dict.find
    (fold_left register (combine (seq s (List.length entries)) entries) acc)
    name =
  match (if nonempty name then last_named (map record_name entries) name s
         else None) with
  | Some j => Some j
  | None => Dict.find acc name
  end.
Proof.
  revert s acc. induction entries as [| e es IH]; intros s acc;
    cbn [List.length seq combine fold_left map last_named].
  - destruct (nonempty name); reflexivity.
  - rewrite IH, register_find.
    destruct (nonempty name); simpl.
    + destruct (last_named (map record_name es) name (S s)); [reflexivity |].
      rewrite andb_true_r. destruct (String.eqb (record_name e) name); reflexivity.
    + rewrite andb_false_r. reflexivity.
Qed.

Lemma last_named_spec (names : list string) (name : string) (s id : nat) :
  last_named names name s = Some id <->
  exists i, id = s + i /\ last_position names name i.
Proof.
  unfold last_position. revert s id.
  induction names as [| n ns IH]; intros s id; simpl.
  - split; [discriminate |]. intros (i & _ & H & _). destruct i; discriminate.
  - destruct (last_named ns name (S s)) as [j |] eqn:E.
    + apply IH in E. destruct E as (i & -> & Hi & Hlast).
      split.
      * intros [= <-]. exists (S i). split; [lia |]. split; [exact Hi |].
        intros j Hj. destruct j; [lia |]. simpl. apply Hlast. lia.
      * intros (i' & -> & Hi' & Hlast'). f_equal.
        destruct i' as [| i'].
        -- exfalso. apply (Hlast' (S i)); [lia | exact Hi].
        -- simpl in Hi'.
           destruct (Nat.lt_trichotomy i i') as [Hlt | [-> | Hgt]].
           ++ exfalso. apply (Hlast i'); assumption.
           ++ lia.
           ++ exfalso. apply (Hlast' (S i)); [lia | exact Hi].
    + assert (Hnone : forall i, nth_error ns i <> Some name).
      { intros i Hi.
        assert (Hex : exists i0, nth_error ns i0 = Some name /\
                                 forall j, i0 < j -> nth_error ns j <> Some name).
        { clear - Hi. revert i Hi.
          induction ns as [| m ms IHm]; intros i Hi.
          - destruct i; discriminate.
          - destruct (in_dec string_dec name ms) as [Hin | Hout].
            + apply In_nth_error in Hin. destruct Hin as (i1 & Hi1).
              destruct (IHm _ Hi1) as (i0 & H0 & Hl).
              exists (S i0). split; [exact H0 |].
              intros j Hj. destruct j; [lia |]. simpl. apply Hl. lia.
            + exists 0. destruct i as [| i].
              * split; [exact Hi |]. intros j Hj. destruct j; [lia |].
                simpl. intros Hc. apply nth_error_In in Hc. contradiction.
              * simpl in Hi. apply nth_error_In in Hi. contradiction. }
        destruct Hex as (i0 & H0 & Hl).
        assert (Hsome : last_named ns name (S s) = Some (S s + i0)).
        { apply IH. exists i0. split; [reflexivity |]. split; assumption. }
        congruence. }
      destruct (String.eqb n name) eqn:En.
      * apply String.eqb_eq in En. subst n. split.
        -- intros [= <-]. exists 0. split; [lia |]. split; [reflexivity |].
           intros j Hj. destruct j; [lia |]. simpl. apply Hnone.
        -- intros (i & -> & Hi & _). destruct i; [f_equal; lia |].
           simpl in Hi. exfalso. exact (Hnone _ Hi).
      * apply String.eqb_neq in En. split; [discriminate |].
        intros (i & _ & Hi & _). destruct i.
        -- simpl in Hi. congruence.
        -- simpl in Hi. exfalso. exact (Hnone _ Hi).
Qed.

Lemma fold_register_fresh (entries : list string) (s : nat)
  (acc : Dict.t nat) :
  Forall (fun n => n <> "") (map record_name entries) ->
  NoDup (map record_name entries) ->
  (forall n, In n (map record_name entries) -> ~ In n (Dict.keys acc)) ->
  fold_left register (combine (seq s (List.length entries)) entries) acc =
  acc ++ combine (map record_name entries) (seq s (List.length entries)).
Proof.
  revert s acc. induction entries as [| e es IH]; intros s acc Hne Hnd Hfresh;
    cbn [List.length seq combine fold_left map].
  - rewrite app_nil_r. reflexivity.
  - cbn [map] in Hne, Hnd, Hfresh.
    inversion Hne as [| ? ? Hn Hne']; subst.
    inversion Hnd as [| ? ? Hnotin Hnd']; subst.
    assert (Hreg : register acc (s, e) = acc ++ [(record_name e, s)]).
    { unfold register. fold (record_name e).
      apply nonempty_true in Hn. rewrite Hn.
      apply DictFacts.keys_set_fresh. apply Hfresh. left. reflexivity. }
    rewrite Hreg, IH; try assumption.
    + rewrite <- app_assoc. reflexivity.
    + intros n Hin Hkey. unfold Dict.keys in Hkey.
      rewrite map_app, in_app_iff in Hkey. destruct Hkey as [Hkey | Hkey].
      * apply (Hfresh n); [right; exact Hin | exact Hkey].
      * simpl in Hkey. destruct Hkey as [<- | []]. contradiction.
Qed.

(** C2, as the code has it.  A record whose name is empty gets no id but
    still occupies a position: each name is mapped to the position of its
    record (the last one, if the name repeats) among all the records of the
    manifest.  The ids are therefore below the number of records, and they
    are exactly [0, 1, ..., n-1], in file order, when every record is named
    and no name repeats. *)
Theorem load_module_id_map_positions (content : string) :
  let names := record_names content in
  let module_map := load_module_id_map (Some content) in
  (forall name id,
      Dict.get_opt module_map name = Some id <->
      name <> "" /\ last_position names name id) /\
  (forall name id,
      Dict.get_opt module_map name = Some id -> id < List.length names) /\
  (Forall (fun n => n <> "") names -> NoDup names ->
   module_map = combine names (seq 0 (List.length names))).
Proof.
  intros names module_map.
  assert (Hfind : forall name id,
             Dict.get_opt module_map name = Some id <->
             name <> "" /\ last_position names name id).
  { intros name id. unfold module_map, load_module_id_map, enumerate,
      Dict.get_opt.
    rewrite fold_register_find. fold (record_names content). fold names.
    simpl Dict.find.
    destruct (nonempty name) eqn:En.
    - apply nonempty_true in En.
      destruct (last_named names name 0) as [j |] eqn:El.
      + apply last_named_spec in El. destruct El as (i & -> & Hi).
        simpl. split.
        * intros [= <-]. split; assumption.
        * intros [_ Hid]. f_equal.
          assert (Hl : last_named names name 0 = Some (0 + id))
            by (apply last_named_spec; exists id; split; [reflexivity | exact Hid]).
          assert (Hl' : last_named names name 0 = Some (0 + i))
            by (apply last_named_spec; exists i; split; [reflexivity | exact Hi]).
          rewrite Hl in Hl'. injection Hl' as Hl'. lia.
      + split; [discriminate |]. intros [_ Hid].
        assert (Hl : last_named names name 0 = Some (0 + id))
          by (apply last_named_spec; exists id; split; [reflexivity | exact Hid]).
        congruence.
    - split; [discriminate |]. intros [Hne _].
      apply nonempty_true in Hne. congruence. }
  split; [exact Hfind |]. split.
  - intros name id H. apply Hfind in H. destruct H as [_ [Hnth _]].
    apply nth_error_Some. congruence.
  - intros Hne Hnd. unfold module_map, load_module_id_map, enumerate.
    rewrite fold_register_fresh.
    + fold (record_names content). fold names. unfold names, record_names.
      rewrite length_map. reflexivity.
    + exact Hne.
    + exact Hnd.
    + intros n _ [].
Qed.

Lemma load_module_id_map_positions_witness :
  load_module_id_map (Some manifest_alpha_beta) = [("alpha", 0); ("beta", 1)].
Proof.
  apply (load_module_id_map_positions manifest_alpha_beta).
  - repeat constructor; discriminate.
  - repeat constructor; simpl; intuition discriminate.
Defined.

(** C2, counterexample.  In a manifest whose first record has no name, the
    second record is the first named one, yet its id is 1 and not 0. *)
Lemma load_module_id_map_counts_unnamed_records :
  record_names manifest_unnamed_first = [""; "beta"] /\
  Dict.get_opt (dense_registry manifest_unnamed_first) "beta" = Some 0 /\
  Dict.get_opt (load_module_id_map (Some manifest_unnamed_first)) "beta"
  = Some 1.
Proof. repeat split; reflexivity. Qed.

(** ** Slices and comprehensions *)

Lemma slice_to_nil {A} (k : Z) : slice_to (@nil A) k = [].
Proof. unfold slice_to. destruct (0 <=? k)%Z; apply firstn_nil. Qed.

Lemma mapM_raises {A B} (f : A -> result B) (xs : list A) (x : A) (e : exn) :
  In x xs -> f x = inl e -> exists e', mapM f xs = inl e'.
Proof.
  induction xs as [| y ys IH]; intros Hin Hf; simpl.
  - contradiction.
  - destruct Hin as [-> | Hin].
    + rewrite Hf. simpl. eauto.
    + destruct (f y) as [e0 | b]; simpl; [eauto |].
      destruct (IH Hin Hf) as (e' & ->). simpl. eauto.
Qed.

(** ** Sorting is a stable rearrangement *)

Section SortFacts.

Context {A : Type} (lt : A -> A -> bool).

Lemma insert_by_perm (x : A) (l : list A) :
  Permutation (insert_by lt x l) (x :: l).
Proof.
  induction l as [| y l IH]; simpl.
  - apply Permutation_refl.
  - destruct (lt y x).
    + eapply perm_trans; [apply perm_skip; exact IH | apply perm_swap].
    + apply Permutation_refl.
Qed.

Lemma sort_by_perm (l : list A) : Permutation (sort_by lt l) l.
Proof.
  induction l as [| x l IH]; simpl.
  - apply perm_nil.
  - eapply perm_trans; [apply insert_by_perm | apply perm_skip; exact IH].
Qed.

Lemma sort_by_length (l : list A) : List.length (sort_by lt l) = List.length l.
Proof. apply Permutation_length, sort_by_perm. Qed.

Lemma sort_by_in (l : list A) (x : A) : In x (sort_by lt l) <-> In x l.
Proof.
  split; apply Permutation_in;
    [apply sort_by_perm | apply Permutation_sym, sort_by_perm].
Qed.

End SortFacts.

(** ** Dictionaries built from lists *)

Lemma fold_set_fresh {V} (items : list (string * V)) (acc : Dict.t V) :
  NoDup (map fst items) ->
  (forall k, In k (map fst items) -> ~ In k (Dict.keys acc)) ->
  fold_left (fun m kv => Dict.set m (fst kv) (snd kv)) items acc = acc ++ items.
Proof.
  revert acc. induction items as [| [k v] items IH]; intros acc Hnd Hfresh; simpl.
  - rewrite app_nil_r. reflexivity.
  - inversion Hnd as [| ? ? Hnotin Hnd']; subst.
    rewrite DictFacts.keys_set_fresh by (apply Hfresh; left; reflexivity).
    rewrite IH.
    + rewrite <- app_assoc. reflexivity.
    + exact Hnd'.
    + intros k' Hin Hkey. unfold Dict.keys in Hkey.
      rewrite map_app, in_app_iff in Hkey. destruct Hkey as [Hkey | Hkey].
      * apply (Hfresh k'); [right; exact Hin | exact Hkey].
      * simpl in Hkey. destruct Hkey as [<- | []]. contradiction.
Qed.

Lemma dict_of_list_nodup {V} (items : list (string * V)) :
  NoDup (map fst items) -> dict_of_list items = items.
Proof.
  intros Hnd. unfold dict_of_list. rewrite fold_set_fresh; auto.
Qed.

Lemma dict_of_list_wf {V} (items : list (string * V)) :
  Dict.wf (dict_of_list items).
Proof.
  unfold dict_of_list.
  assert (H : forall acc : Dict.t V, Dict.wf acc ->
            Dict.wf (fold_left (fun m kv => Dict.set m (fst kv) (snd kv)) items acc)).
  { induction items as [| kv items IH]; intros acc Hacc; simpl.
    - exact Hacc.
    - apply IH. apply DictFacts.wf_set. exact Hacc. }
  apply H. apply DictFacts.wf_nil.
Qed.

Lemma dict_of_list_keys {V} (items : list (string * V)) (k : string) :
  In k (Dict.keys (dict_of_list items)) <-> In k (map fst items).
Proof.
  unfold dict_of_list.
  assert (H : forall acc : Dict.t V,
            In k (Dict.keys
                    (fold_left (fun m kv => Dict.set m (fst kv) (snd kv)) items acc))
            <-> In k (Dict.keys acc) \/ In k (map fst items)).
  { induction items as [| [k0 v0] items IH]; intros acc; simpl.
    - intuition.
    - rewrite IH, DictFacts.in_keys_set. intuition. }
  rewrite H. simpl. intuition.
Qed.

Lemma find_map_self {V} (h : string -> V) (xs : list string) (w : string) :
  In w xs -> Dict.find (map (fun x => (x, h x)) xs) w = Some (h w).
Proof.
  induction xs as [| x xs IH]; simpl; intros Hin.
  - contradiction.
  - destruct (String.eqb x w) eqn:E.
    + apply String.eqb_eq in E. subst. reflexivity.
    + apply String.eqb_neq in E. destruct Hin; [contradiction | auto].
Qed.

Lemma item_get {V} (d : Dict.t V) (k : string) (default : V) :
  In k (Dict.keys d) -> Dict.item d k = inr (Dict.get d k default).
Proof.
  intros Hin. unfold Dict.item, Dict.get.
  destruct (DictFacts.find_in_keys d k Hin) as (v & ->). reflexivity.
Qed.

(** ** The vocabulary and the word index *)

Lemma vocabulary_in (docs : list (list string)) (w : string) :
  In w (vocabulary docs) <-> exists d, In d docs /\ In w d.
Proof.
  unfold vocabulary. rewrite sort_by_in, nodup_In, in_concat.
  split; intros (d & H1 & H2); exists d; split; assumption.
Qed.

Lemma vocabulary_nodup (docs : list (list string)) : NoDup (vocabulary docs).
Proof.
  unfold vocabulary.
  eapply Permutation_NoDup; [apply Permutation_sym, sort_by_perm |].
  apply NoDup_nodup.
Qed.

Lemma enumerate_swap_keys {A} (xs : list A) (s : nat) :
  map fst (map (fun iw : nat * A => (snd iw, fst iw))
             (combine (seq s (List.length xs)) xs)) = xs.
Proof.
  revert s. induction xs as [| x xs IH]; intros s; simpl.
  - reflexivity.
  - rewrite IH. reflexivity.
Qed.

Lemma word_index_nodup (vocab : list string) :
  NoDup vocab ->
  word_index vocab =
  map (fun iw => (snd iw, fst iw)) (enumerate vocab).
Proof.
  intros Hnd. unfold word_index. apply dict_of_list_nodup.
  unfold enumerate. rewrite enumerate_swap_keys. exact Hnd.
Qed.

Lemma word_index_keys (vocab : list string) (w : string) :
  In w (Dict.keys (word_index vocab)) <-> In w vocab.
Proof.
  unfold word_index. rewrite dict_of_list_keys.
  unfold enumerate. rewrite enumerate_swap_keys. reflexivity.
Qed.

Lemma fold_set_values {V} (P : V -> Prop) (items : list (string * V))
  (acc : Dict.t V) :
  Forall P (Dict.values acc) -> Forall P (map snd items) ->
  Forall P
    (Dict.values (fold_left (fun m kv => Dict.set m (fst kv) (snd kv)) items acc)).
Proof.
  revert acc. induction items as [| [k v] items IH]; intros acc Hacc Hit; simpl.
  - exact Hacc.
  - inversion Hit as [| ? ? Hv Hit']; subst. apply IH; [| exact Hit'].
    clear IH Hit Hit'. induction acc as [| [k' v'] acc IHacc]; simpl.
    + constructor; [exact Hv | constructor].
    + inversion Hacc as [| ? ? Hv' Hacc']; subst.
      destruct (String.eqb k' k); simpl.
      * constructor; assumption.
      * constructor; [exact Hv' | apply IHacc; exact Hacc'].
Qed.

Lemma dict_of_list_values {V} (P : V -> Prop) (items : list (string * V)) :
  Forall P (map snd items) -> Forall P (Dict.values (dict_of_list items)).
Proof.
  intros H. unfold dict_of_list. apply fold_set_values; [constructor | exact H].
Qed.

Lemma word_index_bound (vocab : list string) (w : string) (i : nat) :
  Dict.find (word_index vocab) w = Some i -> i < List.length vocab.
Proof.
  intros H. apply DictFacts.find_some_in in H.
  apply (in_map snd) in H. simpl in H.
  assert (Hall : Forall (fun i => i < List.length vocab)
                   (Dict.values (word_index vocab))).
  { unfold word_index. apply dict_of_list_values.
    rewrite map_map. simpl. unfold enumerate.
    apply Forall_forall. intros j Hj. apply in_map_iff in Hj.
    destruct Hj as ([j' x] & <- & Hin). simpl.
    apply in_combine_l in Hin. apply in_seq in Hin. lia. }
  rewrite Forall_forall in Hall. apply Hall. exact H.
Qed.

(** ** Term counts *)

Lemma term_counts_keys_acc (doc : list string) (acc : Dict.t nat) (w : string) :
  In w (Dict.keys
          (fold_left (fun tf w => Dict.set tf w (Dict.get tf w 0 + 1)) doc acc))
  <-> In w (Dict.keys acc) \/ In w doc.
Proof.
  revert acc. induction doc as [| x doc IH]; intros acc; simpl.
  - intuition.
  - rewrite IH, DictFacts.in_keys_set. intuition.
Qed.

Lemma term_counts_keys (doc : list string) (w : string) :
  In w (Dict.keys (term_counts doc)) <-> In w doc.
Proof.
  unfold term_counts. rewrite term_counts_keys_acc. simpl. intuition.
Qed.

Lemma fold_left_set_map {A V} (g : A -> string * V) (xs : list A)
  (acc : Dict.t V) :
  fold_left (fun m x => Dict.set m (fst (g x)) (snd (g x))) xs acc =
  fold_left (fun m kv => Dict.set m (fst kv) (snd kv)) (map g xs) acc.
Proof.
  revert acc. induction xs as [| x xs IH]; intros acc; simpl.
  - reflexivity.
  - apply IH.
Qed.

(** ** The vectorizer never raises *)

Section VectorizerGeneric.

Context {F : Type} {arith : Arith F} {lg : Log F}.

Lemma entry_vector_exact (word_idx : Dict.t nat) (idf : Dict.t F)
  (doc : list string) :
  (forall w, In w doc -> In w (Dict.keys word_idx)) ->
  (forall w, In w doc -> In w (Dict.keys idf)) ->
  entry_vector word_idx idf doc = inr (entry_vector_value word_idx idf doc).
Proof.
  intros Hidx Hidf. destruct doc as [| w0 doc]; [reflexivity |].
  unfold entry_vector, entry_vector_value.
  set (d := w0 :: doc) in *.
  rewrite (DictFacts.comp_pure _
             (weight_item word_idx idf (term_counts d) (List.length d))).
  - unfold dict_of_list. rewrite fold_left_set_map. reflexivity.
  - intros w Hw. pose proof (proj1 (term_counts_keys d w) Hw) as Hin.
    rewrite (item_get word_idx w 0 (Hidx w Hin)). simpl.
    rewrite (item_get (term_counts d) w 0 Hw). simpl.
    unfold py_truediv_int. subst d. simpl List.length. simpl Nat.eqb. simpl.
    rewrite (item_get idf w zero (Hidf w Hin)). reflexivity.
Qed.

Lemma entry_vector_value_keys (vocab : list string) (idf : Dict.t F)
  (doc : list string) (k : string) :
  (forall w, In w doc -> In w vocab) ->
  In k (Dict.keys (entry_vector_value (word_index vocab) idf doc)) ->
  exists i, k = Str.of_nat i /\ i < List.length vocab.
Proof.
  intros Hsub Hk. destruct doc as [| w0 doc]; [contradiction |].
  unfold entry_vector_value in Hk.
  apply (proj1 (dict_of_list_keys _ _)) in Hk.
  rewrite map_map in Hk. apply in_map_iff in Hk.
  destruct Hk as (w & <- & Hw). apply (proj1 (term_counts_keys _ _)) in Hw.
  simpl fst.
  assert (Hin : In w (Dict.keys (word_index vocab)))
    by (apply word_index_keys, Hsub, Hw).
  destruct (DictFacts.find_in_keys _ _ Hin) as (i & Hi).
  exists i. unfold Dict.get. rewrite Hi. split; [reflexivity |].
  eapply word_index_bound. exact Hi.
Qed.

End VectorizerGeneric.

Lemma doc_count_le (docs : list (list string)) (w : string) :
  doc_count docs w <= List.length docs.
Proof. apply filter_length_le. Qed.

Lemma doc_count_pos (docs : list (list string)) (w : string) :
  In w (vocabulary docs) -> 1 <= doc_count docs w.
Proof.
  intros H. apply (proj1 (vocabulary_in _ _)) in H. destruct H as (d & Hd & Hw).
  unfold doc_count.
  assert (Hin : In d (filter (str_in w) docs)).
  { apply filter_In. split; [exact Hd |]. unfold str_in.
    destruct (in_dec string_dec w d); [reflexivity | contradiction]. }
  destruct (filter (str_in w) docs); [contradiction | simpl; lia].
Qed.

Lemma doc_freq_value (docs : list (list string)) (vocab : list string) :
  NoDup vocab ->
  doc_freq docs vocab = map (fun w => (w, doc_count docs w)) vocab.
Proof.
  intros Hnd. unfold doc_freq. apply dict_of_list_nodup.
  rewrite map_map. simpl. rewrite map_id. exact Hnd.
Qed.

(** *** Exact arithmetic *)

Local Open Scope R_scope.

#[local] Arguments INR : simpl never.

Lemma R_ltb_true (x y : R) : x < y -> R_ltb x y = true.
Proof. intros H. unfold R_ltb. destruct (Rlt_dec x y); [reflexivity | contradiction]. Qed.

Lemma R_ltb_false (x y : R) : y <= x -> R_ltb x y = false.
Proof. intros H. unfold R_ltb. destruct (Rlt_dec x y); [lra | reflexivity]. Qed.

Lemma R_is_zero_true (x : R) : x = 0 -> R_is_zero x = true.
Proof. intros H. unfold R_is_zero. destruct (Req_dec_T x 0); [reflexivity | contradiction]. Qed.

Lemma R_is_zero_false (x : R) : x <> 0 -> R_is_zero x = false.
Proof. intros H. unfold R_is_zero. destruct (Req_dec_T x 0); [contradiction | reflexivity]. Qed.

Lemma ratio_pos (n c : nat) : (1 <= c)%nat -> (c <= n)%nat -> 0 < INR n / INR c.
Proof.
  intros Hc Hn. apply Rdiv_lt_0_compat; apply lt_0_INR; lia.
Qed.

Lemma ratio_ge_1 (n c : nat) : (1 <= c)%nat -> (c <= n)%nat -> 1 <= INR n / INR c.
Proof.
  intros Hc Hn.
  assert (H0 : 0 < INR c) by (apply lt_0_INR; lia).
  assert (H1 : INR c <= INR n) by (apply le_INR; exact Hn).
  apply (Rmult_le_reg_r (INR c)); [exact H0 |].
  unfold Rdiv. rewrite Rmult_assoc, Rinv_l by lra. lra.
Qed.

Lemma idf_table_exact (docs : list (list string)) :
  idf_table (List.length docs) (doc_freq docs (vocabulary docs))
    (vocabulary docs)
  = inr (idf_value docs (vocabulary docs)).
Proof.
  unfold idf_table.
  rewrite (DictFacts.comp_pure _
             (fun w => (w, ln (INR (List.length docs) / INR (doc_count docs w))))).
  - rewrite fold_left_set_map. unfold idf_value.
    change (fold_left _ ?l []) with (dict_of_list l).
    rewrite dict_of_list_nodup; [reflexivity |].
    rewrite map_map. simpl. rewrite map_id. apply vocabulary_nodup.
  - intros w Hw.
    rewrite doc_freq_value by apply vocabulary_nodup.
    unfold Dict.item. rewrite find_map_self by exact Hw. simpl.
    pose proof (doc_count_pos docs w Hw) as Hpos.
    pose proof (doc_count_le docs w) as Hle.
    destruct (doc_count docs w) as [| c] eqn:Ec; [lia |].
    unfold py_truediv_int. simpl Nat.eqb. simpl.
    unfold py_log. simpl.
    rewrite R_ltb_true; [reflexivity |].
    apply ratio_pos; lia.
Qed.

Lemma idf_value_keys (docs : list (list string)) (vocab : list string) :
  Dict.keys (idf_value (F:=R) docs vocab) = vocab.
Proof.
  unfold idf_value, Dict.keys. rewrite map_map. simpl. apply map_id.
Qed.

Lemma build_tfidf_exact (entries : list string) :
  build_tfidf (F:=R) entries = inr (tfidf_value entries).
Proof.
  unfold build_tfidf, tfidf_value. rewrite length_map.
  set (docs := map tokenize entries).
  replace (List.length entries) with (List.length docs)
    by (unfold docs; apply length_map).
  rewrite idf_table_exact. simpl.
  rewrite (mapM_pure _
             (entry_vector_value (word_index (vocabulary docs))
                (idf_value docs (vocabulary docs)))).
  - reflexivity.
  - intros doc Hdoc. apply entry_vector_exact.
    + intros w Hw. apply word_index_keys. apply vocabulary_in. eauto.
    + intros w Hw. rewrite idf_value_keys. apply vocabulary_in. eauto.
Qed.

(** *** Sums of reals *)

Lemma fold_left_Rplus (xs : list R) (a : R) :
  fold_left Rplus xs a = a + Rsum xs.
Proof.
  revert a. induction xs as [| x xs IH]; intros a; simpl.
  - lra.
  - rewrite IH. lra.
Qed.

Lemma py_sum_Rsum (xs : list R) : py_sum xs = Rsum xs.
Proof.
  unfold py_sum, zero. simpl. rewrite fold_left_Rplus.
  change (INR 0) with 0. lra.
Qed.

Lemma Rsum_nonneg (xs : list R) : Forall (fun x => 0 <= x) xs -> 0 <= Rsum xs.
Proof.
  induction 1 as [| x xs Hx _ IH]; simpl; lra.
Qed.

Lemma Rsum_zero (xs : list R) : Forall (fun x => x = 0) xs -> Rsum xs = 0.
Proof.
  induction 1 as [| x xs Hx _ IH]; simpl; lra.
Qed.

Lemma Rsum_squares_nonneg (xs : list R) : 0 <= Rsum (map (fun x => x * x) xs).
Proof.
  apply Rsum_nonneg. apply Forall_forall. intros y Hy.
  apply in_map_iff in Hy. destruct Hy as (x & <- & _). nra.
Qed.

(** *** Cosine similarity never raises *)

Lemma norm_exact (v : Dict.t R) : norm v = inr (norm_value v).
Proof.
  destruct v as [| kv v]; [reflexivity |].
  unfold norm, norm_value, py_sqrt.
  rewrite py_sum_Rsum.
  change (flt ?x zero) with (R_ltb x 0).
  rewrite R_ltb_false; [reflexivity |].
  exact (Rsum_squares_nonneg (Dict.values (kv :: v))).
Qed.

Lemma norm_value_nonneg (v : Dict.t R) : 0 <= norm_value v.
Proof.
  destruct v as [| kv v]; simpl.
  - unfold zero. simpl. change (INR 0) with 0. lra.
  - apply sqrt_pos.
Qed.

Lemma truthy_true (x : R) : truthy x = true <-> x <> 0.
Proof.
  unfold truthy. simpl. unfold R_is_zero.
  destruct (Req_dec_T x 0); simpl; split; intros H; congruence.
Qed.

Lemma truthy_false (x : R) : truthy x = false <-> x = 0.
Proof.
  unfold truthy. simpl. unfold R_is_zero.
  destruct (Req_dec_T x 0); simpl; split; intros H; congruence.
Qed.

Lemma cosine_sim_exact (v1 v2 : Dict.t R) :
  cosine_sim v1 v2 = inr (cosine_value v1 v2).
Proof.
  unfold cosine_sim, cosine_value. rewrite !norm_exact. simpl.
  fold (dot_value v1 v2).
  destruct (truthy (norm_value v1)) eqn:E1;
    destruct (truthy (norm_value v2)) eqn:E2; simpl; try reflexivity.
  apply truthy_true in E1. apply truthy_true in E2.
  unfold py_truediv. simpl is_zero.
  rewrite R_is_zero_false; [reflexivity |].
  apply Rmult_integral_contrapositive. split; assumption.
Qed.

(** ** The shape of an index (C7) *)

(** C7.  The vectorizer returns an index for every list of entries; it has
    one vector per entry, and every key of every vector is the decimal
    numeral of a position of the vocabulary. *)
Theorem build_tfidf_shape (entries : list string) :
  exists t : tfidf R,
    build_tfidf entries = inr t /\
    List.length (vectors t) = List.length entries /\
    Forall
      (fun v =>
         Forall
           (fun k => exists i, k = Str.of_nat i /\ (i < List.length (vocab t))%nat)
           (Dict.keys v))
      (vectors t).
Proof.
  exists (tfidf_value entries). split; [apply build_tfidf_exact |].
  unfold tfidf_value. simpl. split.
  - rewrite !length_map. reflexivity.
  - apply Forall_forall. intros v Hv. apply in_map_iff in Hv.
    destruct Hv as (doc & <- & Hdoc).
    apply Forall_forall. intros k Hk.
    eapply (entry_vector_value_keys (F:=R)); [| exact Hk].
    intros w Hw. apply vocabulary_in. eauto.
Qed.

(** ** Zero weights are stored (C1) *)

Lemma shared_word_index_value {F} {arith : Arith F} {lg : Log F} :
  tfidf_value (F:=F) shared_word_entries =
  mkTfidf ["a"; "b"; "c"]
    [("a", idf_of 2 2); ("b", idf_of 2 1); ("c", idf_of 2 1)]
    [[("0", weight 1 2 2 2); ("1", weight 1 2 2 1)];
     [("0", weight 1 2 2 2); ("2", weight 1 2 2 1)]].
Proof. vm_compute. reflexivity. Qed.

Lemma idf_of_all (n : nat) : (1 <= n)%nat -> idf_of (F:=R) n n = 0.
Proof.
  intros Hn. unfold idf_of. simpl.
  replace (INR n / INR n) with 1.
  - apply ln_1.
  - field. apply not_0_INR. lia.
Qed.

Lemma weight_all (c len n : nat) : (1 <= n)%nat -> weight (F:=R) c len n n = 0.
Proof.
  intros Hn. unfold weight. rewrite idf_of_all by exact Hn. simpl. ring.
Qed.

(** C1, on the code.  With the entries [a b] and [a c] the word [a] is in
    every entry, so its weight is zero; both vectors nevertheless store
    the key ["0"] of [a], with the value 0. *)
Theorem build_tfidf_stores_zero_weights :
  exists (t : tfidf R) (v0 v1 : Dict.t R),
    build_tfidf shared_word_entries = inr t /\
    vocab t = ["a"; "b"; "c"] /\
    vectors t = [v0; v1] /\
    Dict.find v0 "0" = Some 0 /\
    Dict.find v1 "0" = Some 0.
Proof.
  exists (tfidf_value shared_word_entries).
  rewrite build_tfidf_exact, shared_word_index_value.
  do 2 eexists. split; [reflexivity |]. split; [reflexivity |].
  split; [reflexivity |].
  split; simpl; f_equal; apply weight_all; lia.
Qed.

(** ** A single entry (C9) *)

Lemma get_all_zero (d : Dict.t R) (k : string) :
  Forall (fun x => x = 0) (Dict.values d) -> Dict.get d k 0 = 0.
Proof.
  intros H. unfold Dict.get. destruct (Dict.find d k) as [x |] eqn:E.
  - apply DictFacts.find_some_in in E. apply (in_map snd) in E.
    rewrite Forall_forall in H. apply H. exact E.
  - reflexivity.
Qed.

Lemma doc_count_single (d : list string) (w : string) :
  In w (vocabulary [d]) -> doc_count [d] w = 1%nat.
Proof.
  intros H. pose proof (doc_count_pos [d] w H).
  pose proof (doc_count_le [d] w). simpl in *. lia.
Qed.

Lemma idf_value_single (d : list string) :
  Forall (fun x => x = 0) (Dict.values (idf_value (F:=R) [d] (vocabulary [d]))).
Proof.
  unfold idf_value, Dict.values. rewrite map_map. simpl.
  apply Forall_forall. intros x Hx. apply in_map_iff in Hx.
  destruct Hx as (w & <- & Hw).
  rewrite doc_count_single by exact Hw. simpl snd.
  change (idf_of (F:=R) 1 1 = 0). apply idf_of_all. lia.
Qed.

Lemma entry_vector_value_zero (word_idx : Dict.t nat) (idf : Dict.t R)
  (doc : list string) :
  Forall (fun x => x = 0) (Dict.values idf) ->
  Forall (fun x => x = 0) (Dict.values (entry_vector_value word_idx idf doc)).
Proof.
  intros Hidf. destruct doc as [| w0 doc]; [constructor |].
  unfold entry_vector_value. apply dict_of_list_values.
  rewrite map_map. apply Forall_forall. intros x Hx.
  apply in_map_iff in Hx. destruct Hx as (w & <- & _).
  unfold weight_item. simpl snd.
  change (Dict.get idf w zero) with (Dict.get idf w 0).
  rewrite get_all_zero by exact Hidf. simpl. ring.
Qed.

Lemma norm_value_zero (v : Dict.t R) :
  Forall (fun x => x = 0) (Dict.values v) -> norm_value v = 0.
Proof.
  intros H. destruct v as [| kv v]; [reflexivity |].
  unfold norm_value. rewrite py_sum_Rsum, Rsum_zero.
  - apply sqrt_0.
  - apply Forall_forall. intros y Hy. apply in_map_iff in Hy.
    destruct Hy as (x & <- & Hx). rewrite Forall_forall in H.
    rewrite (H x Hx). simpl. ring.
Qed.

Lemma cosine_value_zero_r (q v : Dict.t R) :
  norm_value v = 0 -> cosine_value q v = 0.
Proof.
  intros H. unfold cosine_value.
  rewrite (proj2 (truthy_false (norm_value v)) H), andb_false_r. reflexivity.
Qed.

Lemma cosine_value_zero_l (q v : Dict.t R) :
  norm_value q = 0 -> cosine_value q v = 0.
Proof.
  intros H. unfold cosine_value.
  rewrite (proj2 (truthy_false (norm_value q)) H). reflexivity.
Qed.

(** ** The query engine never raises on a well-formed index *)

Lemma query_counts_keys_acc (word_idx : Dict.t nat) (words : list string)
  (acc : Dict.t nat) (w : string) :
  In w (Dict.keys
          (fold_left
             (fun tf w =>
                if Dict.contains word_idx w
                then Dict.set tf w (Dict.get tf w 0 + 1)%nat
                else tf) words acc)) ->
  In w (Dict.keys acc) \/ In w (Dict.keys word_idx).
Proof.
  revert acc. induction words as [| x words IH]; intros acc H; simpl in H.
  - left. exact H.
  - apply IH in H. destruct H as [H | H]; [| right; exact H].
    destruct (Dict.contains word_idx x) eqn:E; [| left; exact H].
    apply DictFacts.in_keys_set in H. destruct H as [-> | H].
    + right. apply DictFacts.contains_iff. exact E.
    + left. exact H.
Qed.

Lemma query_counts_keys (word_idx : Dict.t nat) (words : list string)
  (w : string) :
  In w (Dict.keys (query_counts word_idx words)) ->
  In w (Dict.keys word_idx).
Proof.
  intros H. apply query_counts_keys_acc in H. destruct H as [[] | H]. exact H.
Qed.

Lemma query_vector_exact {F} {arith : Arith F} (db : document F)
  (words : list string) :
  words <> [] ->
  query_vector (db_vocab db) (db_idf db) words
  = inr (query_vector_value db words).
Proof.
  intros Hne. unfold query_vector, query_vector_value.
  set (word_idx := word_index (db_vocab db)).
  set (tf := query_counts word_idx words).
  rewrite (DictFacts.comp_pure _
             (weight_item word_idx (db_idf db) tf (List.length words))).
  - unfold dict_of_list. rewrite fold_left_set_map. reflexivity.
  - intros w Hw.
    rewrite (item_get word_idx w 0%nat (query_counts_keys _ _ _ Hw)). simpl.
    rewrite (item_get tf w 0%nat Hw). simpl.
    unfold py_truediv_int.
    destruct words as [| w0 words]; [contradiction |]. reflexivity.
Qed.

Lemma score_all_exact (q_vec : Dict.t R) (vectors : list (Dict.t R)) :
  score_all q_vec vectors = inr (scores_value q_vec vectors).
Proof.
  unfold score_all, scores_value. apply mapM_pure.
  intros iv _. rewrite cosine_sim_exact. reflexivity.
Qed.

Lemma enumerate_fst {A} (xs : list A) :
  map fst (enumerate xs) = seq 0 (List.length xs).
Proof.
  unfold enumerate. generalize 0%nat.
  induction xs as [| x xs IH]; intros s; simpl; [reflexivity |].
  rewrite IH. reflexivity.
Qed.

Lemma scores_value_fst (q_vec : Dict.t R) (vectors : list (Dict.t R)) :
  map fst (scores_value q_vec vectors) = seq 0 (List.length vectors).
Proof.
  unfold scores_value. rewrite map_map. simpl. apply enumerate_fst.
Qed.

Lemma slice_to_incl {A} (xs : list A) (k : Z) (x : A) :
  In x (slice_to xs k) -> In x xs.
Proof.
  unfold slice_to. destruct (0 <=? k)%Z; intros H;
    match type of H with
    | In _ (firstn ?n _) =>
        rewrite <- (firstn_skipn n xs); apply in_or_app; left; exact H
    end.
Qed.

Lemma slice_to_pos {A} (xs : list A) (k : Z) :
  (0 <= k)%Z -> slice_to xs k = firstn (Z.to_nat k) xs.
Proof.
  intros H. unfold slice_to. apply Z.leb_le in H. rewrite H. reflexivity.
Qed.

(** ** Files that cannot be searched (C3) *)

Section Unreadable.

Context {F : Type} {arith : Arith F}.

(** On the file of an index document every subscript of [_search]
    succeeds. *)
Lemma _search_index (w : world F) (query db_path : string) (top_k : Z)
  (module_map : Dict.t nat) (db : document F) :
  dat_file w db_path = Some (Index db) ->
  _search w query db_path top_k module_map
  = match tokenize query with
    | [] => ret []
    | _ :: _ =>
        q_vec <- query_vector (db_vocab db) (db_idf db) (tokenize query) ;;
        scores <- score_all q_vec (db_vectors db) ;;
        mapM
          (fun is_ =>
             entry <- nth_item (db_entries db) (fst is_) ;;
             ret (enrich_result entry (fst is_) (snd is_)
                    (Path.stem db_path) module_map))
          (slice_to (sort_by by_score scores) top_k)
    end.
Proof.
  intros H. unfold _search, load_index. rewrite H.
  destruct (tokenize query); reflexivity.
Qed.

Lemma _search_missing (w : world F) query db_path top_k module_map :
  dat_file w db_path = None ->
  _search w query db_path top_k module_map = raise FileNotFoundError.
Proof. intros H. unfold _search, load_index. rewrite H. reflexivity. Qed.

Lemma _search_unparsable (w : world F) query db_path top_k module_map :
  dat_file w db_path = Some Unparsable ->
  _search w query db_path top_k module_map = raise JSONDecodeError.
Proof. intros H. unfold _search, load_index. rewrite H. reflexivity. Qed.

Lemma _search_wordless (w : world F) query db_path top_k module_map v :
  dat_file w db_path = Some (Json v) ->
  tokenize query = [] ->
  _search w query db_path top_k module_map = ret [].
Proof.
  intros H Hq. unfold _search, load_index. rewrite H. simpl. rewrite Hq.
  reflexivity.
Qed.

Lemma _search_not_object (w : world F) query db_path top_k module_map :
  dat_file w db_path = Some (Json NotObject) ->
  tokenize query <> [] ->
  _search w query db_path top_k module_map = raise TypeError.
Proof.
  intros H Hq. unfold _search, load_index. rewrite H. simpl.
  destruct (tokenize query); [contradiction | reflexivity].
Qed.

(** The query vector of a query with a word is always computed. *)
Lemma query_vector_returns (vocab : list string) (idf : Dict.t F)
  (words : list string) :
  words <> [] -> exists q_vec, query_vector vocab idf words = inr q_vec.
Proof.
  intros Hne.
  exists (query_vector_value (mkDocument vocab idf [] [] []) words).
  apply (@query_vector_exact F arith (mkDocument vocab idf [] [] []) words Hne).
Qed.

Lemma _search_member_missing (w : world F) query db_path top_k module_map o :
  dat_file w db_path = Some (Json (Object o)) ->
  tokenize query <> [] ->
  member_vocab o = None \/ member_idf o = None \/ member_vectors o = None ->
  _search w query db_path top_k module_map = raise KeyError.
Proof.
  intros H Hq Hmiss. unfold _search, load_index. rewrite H. simpl.
  destruct (tokenize query) as [| w0 ws] eqn:Ew; [contradiction |].
  unfold subscript.
  destruct (member_vocab o) as [vocab |]; [| reflexivity]. simpl.
  destruct (member_idf o) as [idf |]; [| reflexivity]. simpl.
  destruct (@query_vector_returns vocab idf (w0 :: ws)) as (q_vec & ->);
    [discriminate |].
  simpl.
  destruct (member_vectors o) as [vectors |]; [| reflexivity].
  destruct Hmiss as [Hm | [Hm | Hm]]; discriminate Hm.
Qed.

(** What a returned sequence tells about the file. *)
Lemma _search_ok_readable (w : world F) query db_path top_k module_map rs :
  _search w query db_path top_k module_map = inr rs ->
  exists v,
    dat_file w db_path = Some (Json v) /\
    (tokenize query <> [] ->
     exists o vocab idf vectors,
       v = Object o /\
       member_vocab o = Some vocab /\
       member_idf o = Some idf /\
       member_vectors o = Some vectors /\
       (rs <> [] -> exists entries, member_entries o = Some entries)).
Proof.
  unfold _search, load_index. intros H.
  destruct (dat_file w db_path) as [[v |] |]; try discriminate.
  exists v. split; [reflexivity |]. intros Hq. simpl in H.
  destruct (tokenize query) as [| w0 ws]; [contradiction |].
  destruct v as [o |]; [| discriminate]. unfold subscript in H.
  destruct (member_vocab o) as [vocab |] eqn:Ev; [| discriminate].
  destruct (member_idf o) as [idf |] eqn:Ei; [| discriminate]. simpl in H.
  inv_bind H.
  destruct (member_vectors o) as [vectors |] eqn:Evs; [| discriminate].
  simpl in H. inv_bind H.
  exists o, vocab, idf, vectors.
  split; [reflexivity |]. split; [exact Ev |]. split; [exact Ei |].
  split; [exact Evs |]. intros Hrs.
  destruct (member_entries o) as [entries |]; [eauto |].
  match type of H with
  | mapM _ ?l = _ =>
      destruct l; simpl in H;
      [injection H as <-; contradiction | discriminate]
  end.
Qed.

(** C3, as the code has it.  [search] raises whenever the index file is
    missing ([FileNotFoundError]) or holds no JSON text (the decode
    error), whatever the query.  When the file holds JSON that is no index
    document, what happens depends on the query: with a word in it,
    [search] raises [TypeError] (no object) or [KeyError] (an object
    without [vocab], [idf] or [vectors]); without a word it returns the
    empty sequence.  So a sequence returned by [search] comes from a file
    that was parsed, and for a query with a word from an object that has
    the three members (and [entries], when the sequence is not empty).
    [search_all] raises when one of the [.dat] files of an existing
    location holds no JSON text; when the location itself is missing it
    finds no file and answers with the empty sequence. *)
Theorem unreadable_index_is_reported (w : world F) (query : string)
  (top_k : Z) :
  (forall db_path,
      dat_file w db_path = None ->
      search w query db_path top_k = raise FileNotFoundError) /\
  (forall db_path,
      dat_file w db_path = Some Unparsable ->
      search w query db_path top_k = raise JSONDecodeError) /\
  (forall db_path,
      dat_file w db_path = Some (Json NotObject) ->
      tokenize query <> [] ->
      search w query db_path top_k = raise TypeError) /\
  (forall db_path o,
      dat_file w db_path = Some (Json (Object o)) ->
      tokenize query <> [] ->
      member_vocab o = None \/ member_idf o = None \/
      member_vectors o = None ->
      search w query db_path top_k = raise KeyError) /\
  (forall db_path v,
      dat_file w db_path = Some (Json v) ->
      tokenize query = [] ->
      search w query db_path top_k = ret []) /\
  (forall db_path rs,
      search w query db_path top_k = ret rs ->
      exists v,
        dat_file w db_path = Some (Json v) /\
        (tokenize query <> [] ->
         exists o vocab idf vectors,
           v = Object o /\
           member_vocab o = Some vocab /\
           member_idf o = Some idf /\
           member_vectors o = Some vectors /\
           (rs <> [] -> exists entries, member_entries o = Some entries))) /\
  (forall build_dir names name,
      listing w build_dir = Some names ->
      In name names -> Path.is_dat name = true ->
      dat_file w (Path.join build_dir name) = Some Unparsable ->
      exists e, search_all w query build_dir top_k = raise e) /\
  (forall build_dir,
      listing w build_dir = None ->
      search_all w query build_dir top_k = ret []).
Proof.
  split; [intros db_path H; apply _search_missing; exact H |].
  split; [intros db_path H; apply _search_unparsable; exact H |].
  split; [intros db_path H Hq; apply _search_not_object; assumption |].
  split; [intros db_path o H Hq Hm; eapply _search_member_missing; eassumption |].
  split; [intros db_path v H Hq; eapply _search_wordless; eassumption |].
  split; [intros db_path rs H; eapply _search_ok_readable; exact H |].
  split.
  - intros build_dir names name Hls Hin Hdat Hbad.
    unfold search_all, glob_dat. rewrite Hls.
    destruct (@mapM_raises _ _
                (fun dat => _search w query dat top_k
                              (load_module_id_map (manifest w)))
                (map (Path.join build_dir) (filter Path.is_dat names))
                (Path.join build_dir name) JSONDecodeError) as (e & He).
    + apply in_map. apply filter_In. split; assumption.
    + apply _search_unparsable. exact Hbad.
    + rewrite He. exists e. reflexivity.
  - intros build_dir H. unfold search_all, glob_dat. rewrite H. simpl.
    rewrite slice_to_nil. reflexivity.
Qed.

End Unreadable.

Lemma unreadable_index_is_reported_witness :
  search (@broken_world R) "add" "vectors/broken.dat" 1 = raise JSONDecodeError /\
  search (@broken_world R) "add" "vectors/absent.dat" 1 = raise FileNotFoundError /\
  search (@broken_world R) "add" "vectors/list.dat" 1 = raise TypeError /\
  search (@broken_world R) "add" "vectors/empty.dat" 1 = raise KeyError /\
  search (@broken_world R) "?" "vectors/empty.dat" 1 = ret [] /\
  (exists e, search_all (@broken_world R) "add" "vectors" 1 = raise e) /\
  search_all (@broken_world R) "add" "elsewhere" 1 = ret [].
Proof.
  pose proof (@unreadable_index_is_reported R exact broken_world "add" 1%Z)
    as (Hmiss & Hbad & Hlist & Hkey & _ & _ & Hall & Hnone).
  pose proof (@unreadable_index_is_reported R exact broken_world "?" 1%Z)
    as (_ & _ & _ & _ & Hwordless & _).
  split; [apply Hbad; reflexivity |].
  split; [apply Hmiss; reflexivity |].
  split; [apply Hlist; [reflexivity | discriminate] |].
  split.
  { apply (Hkey "vectors/empty.dat" (mkObject None None None None None));
      [reflexivity | discriminate | left; reflexivity]. }
  split.
  { apply (Hwordless "vectors/empty.dat"
             (Object (mkObject None None None None None)));
      reflexivity. }
  split; [| apply Hnone; reflexivity].
  apply (Hall "vectors" ["empty.dat"; "list.dat"; "broken.dat"] "broken.dat");
    [reflexivity | right; right; left; reflexivity | reflexivity
    | reflexivity].
Defined.

(** C3, counterexample.  An empty result without an index that could be
    read: where nothing exists, [search_all] returns the empty sequence
    instead of reporting that the location is missing; and on a file that
    holds [{}], no index document, [search] returns the empty sequence for
    the query [?], which is not empty. *)
Lemma empty_result_without_readable_index :
  (listing (@no_files R) "vectors" = None /\
   search_all (@no_files R) "add numbers" "vectors" 1 = ret []) /\
  (dat_file (@broken_world R) "vectors/empty.dat"
   = Some (Json (Object (mkObject None None None None None))) /\
   search (@broken_world R) "?" "vectors/empty.dat" 1 = ret []).
Proof. repeat split; reflexivity. Qed.

(** The sequence [_search] returns on a readable index and a query with
    at least one word. *)
Lemma _search_exact (w : world R) (query db_path : string) (top_k : Z)
  (module_map : Dict.t nat) (db : document R) :
  dat_file w db_path = Some (Index db) ->
  tokenize query <> [] ->
  (List.length (db_vectors db) <= List.length (db_entries db))%nat ->
  _search w query db_path top_k module_map =
  inr (map
         (fun is_ =>
            enrich_result (nth (fst is_) (db_entries db) "") (fst is_)
              (snd is_) (Path.stem db_path) module_map)
         (slice_to
            (sort_by by_score
               (scores_value (query_vector_value db (tokenize query))
                  (db_vectors db)))
            top_k)).
Proof.
  intros Hfile Hwords Hlen. unfold _search, load_index. rewrite Hfile. simpl.
  destruct (tokenize query) as [| w0 ws] eqn:Ew; [contradiction |].
  rewrite query_vector_exact by discriminate. simpl.
  rewrite score_all_exact. simpl.
  apply mapM_pure. intros [i s] Hin.
  apply slice_to_incl in Hin. apply (proj1 (sort_by_in _ _ _)) in Hin.
  apply (in_map fst) in Hin. rewrite scores_value_fst in Hin.
  apply in_seq in Hin. simpl in Hin.
  unfold nth_item. simpl fst.
  destruct (nth_error (db_entries db) i) as [e |] eqn:En.
  - rewrite (nth_error_nth _ _ _ En). reflexivity.
  - apply nth_error_None in En. lia.
Qed.

(** C9.  In a corpus of one entry every word of the vocabulary is in one
    document out of one, so every idf is [ln 1 = 0]; every weight of the
    entry's vector is 0 and so is its norm; the similarity of any vector to
    it is exactly 0, and every result of a search in the one-entry database
    has similarity 0. *)
Theorem single_entry_scores_zero (e : string) :
  exists (t : tfidf R) (v : Dict.t R),
    build_tfidf [e] = inr t /\
    Forall (fun w => doc_count [tokenize e] w = 1%nat) (vocab t) /\
    Forall (fun x => x = 0) (Dict.values (idf t)) /\
    vectors t = [v] /\
    Forall (fun x => x = 0) (Dict.values v) /\
    norm v = inr 0 /\
    (forall q : Dict.t R, cosine_sim q v = inr 0) /\
    (forall query db_path top_k module_map source_name,
        exists results,
          _search (only_index db_path (document_of t [e] source_name))
            query db_path top_k module_map = inr results /\
          Forall (fun r => similarity r = 0) results).
Proof.
  set (d := tokenize e).
  set (v := entry_vector_value (word_index (vocabulary [d]))
              (idf_value (F:=R) [d] (vocabulary [d])) d).
  assert (Hv : Forall (fun x => x = 0) (Dict.values v))
    by (apply entry_vector_value_zero, idf_value_single).
  assert (Hn : norm_value v = 0) by (apply norm_value_zero; exact Hv).
  exists (tfidf_value [e]), v.
  split; [apply build_tfidf_exact |].
  split.
  { apply Forall_forall. intros w Hw. apply doc_count_single. exact Hw. }
  split; [apply idf_value_single |].
  split; [reflexivity |].
  split; [exact Hv |].
  split; [rewrite norm_exact, Hn; reflexivity |].
  split.
  { intros q. rewrite cosine_sim_exact, cosine_value_zero_r by exact Hn.
    reflexivity. }
  intros query db_path top_k module_map source_name.
  destruct (tokenize query) as [| w0 ws] eqn:Ew.
  - exists []. split; [| constructor].
    unfold _search, load_index, only_index. simpl.
    rewrite String.eqb_refl. simpl. rewrite Ew. reflexivity.
  - eexists. split.
    + apply _search_exact.
      * unfold only_index. simpl. rewrite String.eqb_refl. reflexivity.
      * rewrite Ew. discriminate.
      * simpl. lia.
    + apply Forall_forall. intros r Hr. apply in_map_iff in Hr.
      destruct Hr as ([i s] & <- & Hin). simpl.
      apply slice_to_incl in Hin. apply (proj1 (sort_by_in _ _ _)) in Hin.
      unfold scores_value in Hin. simpl in Hin.
      destruct Hin as [Hin | []]. injection Hin as _ <-.
      apply cosine_value_zero_r. exact Hn.
Qed.

(** ** Ranking (C4) *)

Lemma by_score_true (a b : nat * R) :
  by_score a b = true <-> snd b < snd a.
Proof.
  unfold by_score, descending. simpl. unfold R_ltb.
  destruct (Rlt_dec (- snd a) (- snd b)); split; intros H;
    try reflexivity; try discriminate; lra.
Qed.

Lemma by_score_false (a b : nat * R) :
  by_score a b = false <-> snd a <= snd b.
Proof.
  unfold by_score, descending. simpl. unfold R_ltb.
  destruct (Rlt_dec (- snd a) (- snd b)); split; intros H;
    try reflexivity; try discriminate; lra.
Qed.

Lemma ranks_before_score (a b : nat * R) : ranks_before a b -> snd b <= snd a.
Proof. unfold ranks_before. intros [H | [H _]]; lra. Qed.

Lemma insert_ranked (x : nat * R) (l : list (nat * R)) :
  StronglySorted ranks_before l ->
  Forall (fun y => (fst x < fst y)%nat) l ->
  StronglySorted ranks_before (insert_by by_score x l).
Proof.
  induction l as [| y l IH]; intros Hs Hx; cbn [insert_by].
  - repeat constructor.
  - inversion Hs as [| ? ? Hs' Hy]; subst.
    inversion Hx as [| ? ? Hxy Hx']; subst.
    destruct (by_score y x) eqn:E.
    + apply by_score_true in E. constructor; [apply IH; assumption |].
      apply Forall_forall. intros z Hz.
      apply (Permutation_in _ (insert_by_perm by_score x l)) in Hz.
      destruct Hz as [<- | Hz].
      * left. exact E.
      * rewrite Forall_forall in Hy. apply Hy. exact Hz.
    + apply by_score_false in E. constructor; [exact Hs |].
      constructor.
      * unfold ranks_before. destruct (Rle_lt_or_eq_dec _ _ E) as [Hlt | Heq].
        -- left. exact Hlt.
        -- right. split; [symmetry; exact Heq | exact Hxy].
      * apply Forall_forall. intros z Hz.
        rewrite Forall_forall in Hy, Hx'.
        pose proof (ranks_before_score (Hy z Hz)) as Hzy.
        pose proof (Hx' z Hz) as Hxz.
        unfold ranks_before.
        destruct (Rle_lt_or_eq_dec (snd z) (snd x)) as [Hlt | Heq]; [lra | |].
        -- left. exact Hlt.
        -- right. split; [symmetry; exact Heq | exact Hxz].
Qed.

Lemma sort_ranked (l : list (nat * R)) :
  StronglySorted (fun a b => (fst a < fst b)%nat) l ->
  StronglySorted ranks_before (sort_by by_score l).
Proof.
  induction l as [| x l IH]; intros Hs; simpl.
  - constructor.
  - inversion Hs as [| ? ? Hs' Hx]; subst.
    apply insert_ranked; [apply IH; exact Hs' |].
    apply Forall_forall. intros y Hy.
    apply (proj1 (sort_by_in _ _ _)) in Hy.
    rewrite Forall_forall in Hx. apply Hx. exact Hy.
Qed.

Lemma increasing_first_components {A} (l : list (nat * A)) (s n : nat) :
  map fst l = seq s n ->
  StronglySorted (fun a b => (fst a < fst b)%nat) l.
Proof.
  revert s n. induction l as [| x l IH]; intros s n H.
  - constructor.
  - destruct n as [| n]; [discriminate |]. simpl in H.
    injection H as Hx Hl. constructor; [eapply IH; exact Hl |].
    apply Forall_forall. intros y Hy. apply (in_map fst) in Hy.
    rewrite Hl in Hy. apply in_seq in Hy. lia.
Qed.

(** C4, as the code has it.  In exact arithmetic, on a loaded index with
    as many vectors as entries, for a query with at least one word and
    [top_k >= 1],
    [_search] (hence [search], which only supplies the registry) returns
    the first [min(top_k, n)] entries of the ranking of the scored entries:
    the ranking is the rearrangement of the scores in which a higher
    similarity comes first and, among equal similarities, the earlier entry
    does. *)
Theorem search_ranking (w : world R) (query db_path : string) (top_k : Z)
  (module_map : Dict.t nat) (db : document R) :
  dat_file w db_path = Some (Index db) ->
  List.length (db_vectors db) = List.length (db_entries db) ->
  tokenize query <> [] ->
  (1 <= top_k)%Z ->
  exists q_vec scores ranking results,
    query_vector (db_vocab db) (db_idf db) (tokenize query) = inr q_vec /\
    score_all q_vec (db_vectors db) = inr scores /\
    map fst scores = seq 0 (List.length (db_entries db)) /\
    Permutation ranking scores /\
    StronglySorted ranks_before ranking /\
    _search w query db_path top_k module_map = inr results /\
    map (fun r => (opcode r, similarity r)) results
    = firstn (Z.to_nat top_k) ranking /\
    List.length results
    = Nat.min (Z.to_nat top_k) (List.length (db_entries db)) /\
    Forall (fun r => nth_error (db_entries db) (opcode r) = Some (entry r))
      results.
Proof.
  intros Hfile Hlen Hwords Hk.
  set (q_vec := query_vector_value db (tokenize query)).
  set (scores := scores_value q_vec (db_vectors db)).
  set (ranking := sort_by by_score scores).
  assert (Hfst : map fst scores = seq 0 (List.length (db_entries db))).
  { unfold scores. rewrite scores_value_fst, Hlen. reflexivity. }
  exists q_vec, scores, ranking. eexists.
  split; [apply query_vector_exact; exact Hwords |].
  split; [apply score_all_exact |].
  split; [exact Hfst |].
  split; [apply sort_by_perm |].
  split; [apply sort_ranked; eapply increasing_first_components; exact Hfst |].
  split; [apply _search_exact; [exact Hfile | exact Hwords | lia] |].
  fold q_vec scores ranking.
  rewrite slice_to_pos by lia.
  split; [| split].
  - rewrite map_map. simpl.
    rewrite <- (map_id (firstn (Z.to_nat top_k) ranking)) at 2.
    apply map_ext. intros [i s]. reflexivity.
  - rewrite length_map, length_firstn. unfold ranking.
    rewrite sort_by_length.
    rewrite <- (length_map fst scores), Hfst, length_seq. reflexivity.
  - apply Forall_forall. intros r Hr. apply in_map_iff in Hr.
    destruct Hr as ([i s] & <- & Hin). simpl.
    assert (Hi : In (i, s) ranking).
    { rewrite <- (firstn_skipn (Z.to_nat top_k) ranking).
      apply in_or_app. left. exact Hin. }
    apply (proj1 (sort_by_in _ _ _)) in Hi.
    apply (in_map fst) in Hi. rewrite Hfst in Hi. apply in_seq in Hi.
    simpl in Hi.
    destruct (nth_error (db_entries db) i) as [e |] eqn:En.
    + rewrite (nth_error_nth _ _ _ En). reflexivity.
    + apply nth_error_None in En. lia.
Qed.

(** ** The range of the similarity (C8) *)

Lemma Rsum_perm (xs ys : list R) : Permutation xs ys -> Rsum xs = Rsum ys.
Proof.
  induction 1; simpl; lra.
Qed.

Lemma Rsum_app (xs ys : list R) : Rsum (xs ++ ys) = Rsum xs + Rsum ys.
Proof.
  induction xs as [| x xs IH]; simpl; [lra | rewrite IH; lra].
Qed.

Lemma Rsum_map_ext {A} (f g : A -> R) (xs : list A) :
  (forall x, In x xs -> f x = g x) -> Rsum (map f xs) = Rsum (map g xs).
Proof.
  induction xs as [| x xs IH]; intros H; simpl; [reflexivity |].
  rewrite (H x (or_introl eq_refl)), IH; [reflexivity |].
  intros y Hy. apply H. right. exact Hy.
Qed.

(** Pulling one key out of a duplicate-free list of keys. *)
Lemma nodup_extract (k0 : string) (U : list string) :
  NoDup U -> In k0 U ->
  Permutation U (k0 :: filter (fun k => negb (String.eqb k k0)) U).
Proof.
  intros Hnd Hin. apply NoDup_Permutation.
  - exact Hnd.
  - constructor.
    + intros H. apply filter_In in H. destruct H as [_ H].
      rewrite String.eqb_refl in H. discriminate.
    + apply NoDup_filter. exact Hnd.
  - intros k. simpl. rewrite filter_In. split.
    + intros Hk. destruct (String.eqb k k0) eqn:E.
      * left. apply String.eqb_eq in E. congruence.
      * right. split; [exact Hk | reflexivity].
    + intros [<- | [Hk _]]; assumption.
Qed.

(** Summing [f] over the values of a dictionary is summing it over any
    duplicate-free list of keys that covers the dictionary, when absent
    keys contribute [f 0 = 0]. *)
Lemma Rsum_over_keys (f : R -> R) (v : Dict.t R) (U : list string) :
  f 0 = 0 -> Dict.wf v -> NoDup U ->
  (forall k, In k (Dict.keys v) -> In k U) ->
  Rsum (map (fun k => f (Dict.get v k 0)) U) = Rsum (map f (Dict.values v)).
Proof.
  intros Hf. revert U. induction v as [| [k0 x0] v IH]; intros U Hwf Hnd Hsub.
  - simpl. apply Rsum_zero. apply Forall_forall. intros y Hy.
    apply in_map_iff in Hy. destruct Hy as (k & <- & _). exact Hf.
  - unfold Dict.wf in Hwf. simpl in Hwf.
    inversion Hwf as [| ? ? Hnotin Hwf']; subst.
    set (U' := filter (fun k => negb (String.eqb k k0)) U).
    assert (Hperm : Permutation U (k0 :: U'))
      by (apply nodup_extract; [exact Hnd | apply Hsub; left; reflexivity]).
    rewrite (Rsum_perm (Permutation_map _ Hperm)). simpl.
    unfold Dict.get at 1. simpl. rewrite String.eqb_refl. f_equal.
    rewrite <- (IH U').
    + apply Rsum_map_ext. intros k Hk. unfold U' in Hk.
      apply filter_In in Hk. destruct Hk as [_ Hk].
      unfold Dict.get. simpl.
      rewrite String.eqb_sym. destruct (String.eqb k k0); [discriminate |].
      reflexivity.
    + exact Hwf'.
    + apply NoDup_filter. exact Hnd.
    + intros k Hk. apply filter_In. split.
      * apply Hsub. right. exact Hk.
      * destruct (String.eqb k k0) eqn:E; [| reflexivity].
        apply String.eqb_eq in E. subst. contradiction.
Qed.

Lemma Rsum_map_squares_nonneg {A} (a : A -> R) (U : list A) :
  0 <= Rsum (map (fun k => a k * a k) U).
Proof.
  apply Rsum_nonneg. apply Forall_forall. intros y Hy.
  apply in_map_iff in Hy. destruct Hy as (k & <- & _). nra.
Qed.

(** The Cauchy-Schwarz inequality for sums over a list. *)
Lemma cauchy_schwarz {A} (a b : A -> R) (U : list A) :
  Rsum (map (fun k => a k * b k) U) * Rsum (map (fun k => a k * b k) U)
  <= Rsum (map (fun k => a k * a k) U) * Rsum (map (fun k => b k * b k) U).
Proof.
  induction U as [| k U IH]; simpl; [lra |].
  set (C := Rsum (map (fun k => a k * b k) U)) in *.
  set (SA := Rsum (map (fun k => a k * a k) U)) in *.
  set (SB := Rsum (map (fun k => b k * b k) U)) in *.
  assert (HA : 0 <= SA) by apply Rsum_map_squares_nonneg.
  assert (HB : 0 <= SB) by apply Rsum_map_squares_nonneg.
  set (x := a k) in *. set (y := b k) in *.
  assert (Hcross : 2 * (x * y) * C <= x * x * SB + y * y * SA).
  { set (P := 2 * (x * y) * C). set (Q := x * x * SB + y * y * SA).
    assert (HQ : 0 <= Q) by (unfold Q; nra).
    assert (Hsq : P * P <= Q * Q).
    { assert (H1 : P * P = 4 * (x * x) * (y * y) * (C * C))
        by (unfold P; ring).
      assert (H2 : 4 * (x * x) * (y * y) * (C * C)
                   <= 4 * (x * x) * (y * y) * (SA * SB)).
      { apply Rmult_le_compat_l; [nra | exact IH]. }
      assert (H3 : Q * Q = (x * x * SB - y * y * SA) * (x * x * SB - y * y * SA)
                           + 4 * (x * x) * (y * y) * (SA * SB))
        by (unfold Q; ring).
      pose proof (Rle_0_sqr (x * x * SB - y * y * SA)) as H4.
      unfold Rsqr in H4. lra. }
    destruct (Rle_dec P Q) as [Hle | Hgt]; [exact Hle |].
    apply Rnot_le_lt in Hgt. nra. }
  nra.
Qed.

Lemma dot_value_Rsum (v1 v2 : Dict.t R) :
  dot_value v1 v2 =
  Rsum (map (fun k => Dict.get v1 k 0 * Dict.get v2 k 0)
          (set_union (Dict.keys v1) (Dict.keys v2))).
Proof. unfold dot_value. rewrite py_sum_Rsum. reflexivity. Qed.

Lemma norm_value_sqrt (v : Dict.t R) :
  norm_value v = sqrt (Rsum (map (fun x => x * x) (Dict.values v))).
Proof.
  destruct v as [| kv v].
  - simpl. symmetry. apply sqrt_0.
  - unfold norm_value. rewrite py_sum_Rsum. reflexivity.
Qed.

Lemma get_nonneg (v : Dict.t R) (k : string) :
  Forall (fun x => 0 <= x) (Dict.values v) -> 0 <= Dict.get v k 0.
Proof.
  intros H. unfold Dict.get. destruct (Dict.find v k) as [x |] eqn:E.
  - apply DictFacts.find_some_in in E. apply (in_map snd) in E.
    rewrite Forall_forall in H. apply H. exact E.
  - lra.
Qed.

Lemma dot_value_nonneg (v1 v2 : Dict.t R) :
  Forall (fun x => 0 <= x) (Dict.values v1) ->
  Forall (fun x => 0 <= x) (Dict.values v2) ->
  0 <= dot_value v1 v2.
Proof.
  intros H1 H2. rewrite dot_value_Rsum. apply Rsum_nonneg.
  apply Forall_forall. intros y Hy. apply in_map_iff in Hy.
  destruct Hy as (k & <- & _).
  apply Rmult_le_pos; apply get_nonneg; assumption.
Qed.

Lemma dot_value_bound (v1 v2 : Dict.t R) :
  Dict.wf v1 -> Dict.wf v2 ->
  dot_value v1 v2 * dot_value v1 v2 <=
  Rsum (map (fun x => x * x) (Dict.values v1)) *
  Rsum (map (fun x => x * x) (Dict.values v2)).
Proof.
  intros Hwf1 Hwf2. rewrite dot_value_Rsum.
  set (U := set_union (Dict.keys v1) (Dict.keys v2)).
  assert (HU : NoDup U) by apply NoDup_nodup.
  assert (H1 : forall k, In k (Dict.keys v1) -> In k U)
    by (intros k Hk; apply nodup_In, in_or_app; left; exact Hk).
  assert (H2 : forall k, In k (Dict.keys v2) -> In k U)
    by (intros k Hk; apply nodup_In, in_or_app; right; exact Hk).
  rewrite <- (Rsum_over_keys (fun x => x * x) (v:=v1) (U:=U)) by
    (try assumption; ring).
  rewrite <- (Rsum_over_keys (fun x => x * x) (v:=v2) (U:=U)) by
    (try assumption; ring).
  apply (cauchy_schwarz (fun k => Dict.get v1 k 0) (fun k => Dict.get v2 k 0)).
Qed.

Lemma cosine_value_range (v1 v2 : Dict.t R) :
  Dict.wf v1 -> Dict.wf v2 ->
  Forall (fun x => 0 <= x) (Dict.values v1) ->
  Forall (fun x => 0 <= x) (Dict.values v2) ->
  0 <= cosine_value v1 v2 <= 1.
Proof.
  intros Hwf1 Hwf2 Hpos1 Hpos2. unfold cosine_value.
  destruct (truthy (norm_value v1)) eqn:E1;
    destruct (truthy (norm_value v2)) eqn:E2; cbn [andb];
    try (change (@zero R exact) with 0; lra).
  apply truthy_true in E1. apply truthy_true in E2.
  pose proof (norm_value_nonneg v1) as Hn1.
  pose proof (norm_value_nonneg v2) as Hn2.
  pose proof (dot_value_nonneg v1 v2 Hpos1 Hpos2) as Hdot.
  pose proof (dot_value_bound Hwf1 Hwf2) as Hcs.
  assert (Hs1 : norm_value v1 * norm_value v1
                = Rsum (map (fun x => x * x) (Dict.values v1)))
    by (rewrite norm_value_sqrt; apply sqrt_sqrt, Rsum_squares_nonneg).
  assert (Hs2 : norm_value v2 * norm_value v2
                = Rsum (map (fun x => x * x) (Dict.values v2)))
    by (rewrite norm_value_sqrt; apply sqrt_sqrt, Rsum_squares_nonneg).
  set (n1 := norm_value v1) in *. set (n2 := norm_value v2) in *.
  set (d := dot_value v1 v2) in *.
  assert (Hprod : 0 < n1 * n2) by (apply Rmult_lt_0_compat; lra).
  assert (Hle : d <= n1 * n2).
  { destruct (Rle_dec d (n1 * n2)) as [H | H]; [exact H |].
    apply Rnot_le_lt in H.
    assert (Hsq : (n1 * n2) * (n1 * n2) < d * d) by nra.
    assert (Heq : (n1 * n2) * (n1 * n2) = (n1 * n1) * (n2 * n2)) by ring.
    rewrite Heq, Hs1, Hs2 in Hsq. lra. }
  cbn [fdiv fmul exact].
  split.
  - apply Rmult_le_pos; [exact Hdot |].
    apply Rlt_le, Rinv_0_lt_compat. exact Hprod.
  - apply (Rmult_le_reg_r (n1 * n2)); [exact Hprod |].
    unfold Rdiv. rewrite Rmult_assoc, Rinv_l by lra. lra.
Qed.

(** C8, in exact arithmetic.  For two vectors with non-negative weights
    [cosine_sim] returns a number between 0 and 1, and it returns exactly 0
    when one of the vectors is empty or has norm zero. *)
Theorem cosine_sim_range (v1 v2 : Dict.t R) :
  Dict.wf v1 -> Dict.wf v2 ->
  Forall (fun x => 0 <= x) (Dict.values v1) ->
  Forall (fun x => 0 <= x) (Dict.values v2) ->
  exists s : R,
    cosine_sim v1 v2 = inr s /\
    0 <= s <= 1 /\
    (v1 = [] \/ v2 = [] \/ norm v1 = inr 0 \/ norm v2 = inr 0 -> s = 0).
Proof.
  intros Hwf1 Hwf2 Hpos1 Hpos2.
  exists (cosine_value v1 v2). split; [apply cosine_sim_exact |].
  split; [apply cosine_value_range; assumption |].
  intros [-> | [-> | [H | H]]].
  - apply cosine_value_zero_l. reflexivity.
  - apply cosine_value_zero_r. reflexivity.
  - rewrite norm_exact in H. injection H as H.
    apply cosine_value_zero_l. exact H.
  - rewrite norm_exact in H. injection H as H.
    apply cosine_value_zero_r. exact H.
Qed.

Lemma cosine_sim_range_witness :
  Dict.wf vec_x /\ Dict.wf vec_y /\
  exists s : R,
    cosine_sim vec_x vec_y = inr s /\
    0 <= s <= 1 /\
    (vec_x = [] \/ vec_y = [] \/ norm vec_x = inr 0 \/ norm vec_y = inr 0 ->
     s = 0).
Proof.
  assert (Hx : Dict.wf vec_x)
    by (repeat constructor; simpl; intuition discriminate).
  assert (Hy : Dict.wf vec_y)
    by (repeat constructor; simpl; intuition discriminate).
  split; [exact Hx |]. split; [exact Hy |].
  apply (cosine_sim_range Hx Hy); repeat constructor; simpl; lra.
Defined.

(** C8, counterexample.  In binary64 the similarity of the vector
    [{"0": 2.0, "1": 3.0}] to itself is [13 / (sqrt 13 * sqrt 13)], which
    rounds to the float just above 1. *)
Lemma cosine_sim_binary64_exceeds_one :
  exists s : PrimFloat.float,
    cosine_sim vec_2_3 vec_2_3 = inr s /\
    PrimFloat.ltb (of_int 1) s = true /\
    s = PrimFloat.next_up (of_int 1).
Proof.
  eexists. split; [vm_compute; reflexivity |].
  split; vm_compute; reflexivity.
Qed.

(** ** The smoke test (C5) *)

Lemma mymod_entries : split_entries mymod_source = [entry_add; entry_print].
Proof. vm_compute. reflexivity. Qed.

Lemma mymod_registry : load_module_id_map (Some mymod_manifest) = [("mymod", 0%nat)].
Proof. vm_compute. reflexivity. Qed.

Lemma mymod_index_value {F} {arith : Arith F} {lg : Log F} :
  tfidf_value (F:=F) [entry_add; entry_print] = mymod_index.
Proof. vm_compute. reflexivity. Qed.

Lemma mymod_query_vector_value {F} {arith : Arith F} {lg : Log F} :
  query_vector_value (F:=F) mymod_document (tokenize "how to add numbers")
  = mymod_query_vector.
Proof. vm_compute. reflexivity. Qed.

Lemma idf_of_nonneg (n df : nat) :
  (1 <= df)%nat -> (df <= n)%nat -> 0 <= idf_of (F:=R) n df.
Proof.
  intros Hdf Hn. unfold idf_of. simpl.
  pose proof (ratio_ge_1 Hdf Hn) as H1.
  destruct (Rle_lt_or_eq_dec _ _ H1) as [Hlt | <-].
  - rewrite <- ln_1. apply Rlt_le, ln_increasing; lra.
  - rewrite ln_1. lra.
Qed.

Lemma weight_nonneg (c len n df : nat) :
  (1 <= len)%nat -> (1 <= df)%nat -> (df <= n)%nat ->
  0 <= weight (F:=R) c len n df.
Proof.
  intros Hlen Hdf Hn. unfold weight. simpl.
  apply Rmult_le_pos; [| apply idf_of_nonneg; assumption].
  apply Rmult_le_pos; [apply pos_INR |].
  apply Rlt_le, Rinv_0_lt_compat, lt_0_INR. lia.
Qed.

Lemma dot_value_disjoint (v1 v2 : Dict.t R) :
  (forall k, In k (Dict.keys v1) -> ~ In k (Dict.keys v2)) ->
  dot_value v1 v2 = 0.
Proof.
  intros Hdis. rewrite dot_value_Rsum. apply Rsum_zero.
  apply Forall_forall. intros y Hy. apply in_map_iff in Hy.
  destruct Hy as (k & <- & _). unfold Dict.get.
  destruct (Dict.find v1 k) as [x |] eqn:E1; [| ring].
  destruct (Dict.find v2 k) as [z |] eqn:E2; [| ring].
  exfalso. apply (Hdis k).
  - apply DictFacts.find_some_in in E1. apply (in_map fst) in E1. exact E1.
  - apply DictFacts.find_some_in in E2. apply (in_map fst) in E2. exact E2.
Qed.

Lemma cosine_value_dot_zero (v1 v2 : Dict.t R) :
  dot_value v1 v2 = 0 -> cosine_value v1 v2 = 0.
Proof.
  intros H. unfold cosine_value. rewrite H.
  destruct (truthy (norm_value v1) && truthy (norm_value v2)); simpl.
  - unfold Rdiv. ring.
  - reflexivity.
Qed.

Lemma cosine_value_nonneg (v1 v2 : Dict.t R) :
  Forall (fun x => 0 <= x) (Dict.values v1) ->
  Forall (fun x => 0 <= x) (Dict.values v2) ->
  0 <= cosine_value v1 v2.
Proof.
  intros H1 H2. unfold cosine_value.
  destruct (truthy (norm_value v1)) eqn:E1;
    destruct (truthy (norm_value v2)) eqn:E2; cbn [andb];
    try (change (@zero R exact) with 0; lra).
  apply truthy_true in E1. apply truthy_true in E2.
  pose proof (norm_value_nonneg v1). pose proof (norm_value_nonneg v2).
  cbn [fdiv fmul exact].
  apply Rmult_le_pos; [apply dot_value_nonneg; assumption |].
  apply Rlt_le, Rinv_0_lt_compat, Rmult_lt_0_compat; lra.
Qed.

Lemma top1_of_two (c0 c1 : R) :
  c1 <= c0 ->
  slice_to (sort_by by_score [(0%nat, c0); (1%nat, c1)]) 1 = [(0%nat, c0)].
Proof.
  intros H. unfold sort_by. cbn [fold_right insert_by].
  rewrite (proj2 (by_score_false (1%nat, c1) (0%nat, c0))) by exact H.
  reflexivity.
Qed.

(** C5.  The two-entry source of the smoke test, vectorized as [mymod],
    then searched for [how to add numbers] with [top_k = 1] and a registry
    that maps [mymod] to 0 (the one the test's manifest yields): exactly
    one result, the operation [add] with its two parameters and the
    signature [0.0(a, b)]. *)
Theorem search_add_numbers_example :
  exists (w1 : world R) (r : Result R),
    vectorize_file no_files "mymod.txt" mymod_source "vectors"
    = inr (true, w1) /\
    load_module_id_map (Some mymod_manifest) = [("mymod", 0%nat)] /\
    _search w1 "how to add numbers" "vectors/mymod.dat" 1 [("mymod", 0%nat)]
    = inr [r] /\
    kind r = "op" /\
    database r = "mymod" /\
    module_id r = Some 0%nat /\
    op_name r = "add" /\
    params r = ["a"; "b"] /\
    signature r = "0.0(a, b)" /\
    module_name r = "mymod" /\
    opcode r = 0%nat /\
    entry r = entry_add.
Proof.
  set (w1 := write_index (F:=R) no_files "vectors" "mymod.dat" mymod_document).
  set (c0 := cosine_value (F:=R) mymod_query_vector mymod_vector_add).
  exists w1, (enrich_result entry_add 0 c0 "mymod" [("mymod", 0%nat)]).
  split.
  { unfold vectorize_file. cbv zeta. rewrite mymod_entries. cbv iota.
    rewrite build_tfidf_exact, mymod_index_value. reflexivity. }
  split; [exact mymod_registry |].
  split; [| repeat split; reflexivity].
  rewrite (@_search_exact w1 _ _ _ _ mymod_document);
    [| reflexivity | discriminate | simpl; lia].
  rewrite mymod_query_vector_value.
  change (scores_value (F:=R) mymod_query_vector (db_vectors mymod_document))
    with [(0%nat, c0);
          (1%nat, cosine_value (F:=R) mymod_query_vector mymod_vector_print)].
  rewrite (@cosine_value_dot_zero mymod_query_vector mymod_vector_print).
  - rewrite top1_of_two.
    + reflexivity.
    + apply cosine_value_nonneg; cbn [Dict.values map];
        repeat (apply Forall_cons; [apply weight_nonneg; lia |]);
        apply Forall_nil.
  - apply dot_value_disjoint. intros k Hk Hk'. simpl in Hk, Hk'.
    destruct Hk as [<- | [<- | []]];
      repeat (destruct Hk' as [Hk' | Hk']; [discriminate Hk' |]);
      exact Hk'.
Qed.

Lemma search_ranking_witness :
  dat_file (only_index "tiny.dat" tiny_db) "tiny.dat" = Some (Index tiny_db) /\
  tokenize "b" = ["b"] /\
  exists q_vec scores ranking results,
    query_vector (db_vocab tiny_db) (db_idf tiny_db) (tokenize "b")
    = inr q_vec /\
    score_all q_vec (db_vectors tiny_db) = inr scores /\
    map fst scores = seq 0 (List.length (db_entries tiny_db)) /\
    Permutation ranking scores /\
    StronglySorted ranks_before ranking /\
    _search (only_index "tiny.dat" tiny_db) "b" "tiny.dat" 2
      [("tiny", 0%nat)] = inr results /\
    map (fun r => (opcode r, similarity r)) results
    = firstn (Z.to_nat 2) ranking /\
    List.length results
    = Nat.min (Z.to_nat 2) (List.length (db_entries tiny_db)) /\
    Forall (fun r => nth_error (db_entries tiny_db) (opcode r) = Some (entry r))
      results.
Proof.
  split; [reflexivity |]. split; [reflexivity |].
  apply (@search_ranking (only_index "tiny.dat" tiny_db) "b" "tiny.dat" 2%Z
           [("tiny", 0%nat)] tiny_db).
  - reflexivity.
  - reflexivity.
  - discriminate.
  - lia.
Defined.

(** C4, counterexample.  A query can be non-empty and still contain no
    word: for [?] the three-entry index yields no result at all, where the
    claim promises [min(1, 3) = 1].  And in binary64 the results need not
    be in descending order: a similarity that is [NaN] compares false with
    every number, so the sort leaves the three scored entries of [nan_db]
    as they are, the first below the third. *)
Lemma search_ranking_needs_word_and_order :
  (tokenize "?" = [] /\
   List.length (db_entries tiny_db) = 3%nat /\
   List.length (db_vectors tiny_db) = 3%nat /\
   _search (only_index "tiny.dat" tiny_db) "?" "tiny.dat" 1 [("tiny", 0%nat)]
   = inr []) /\
  (exists r0 r1 r2 : Result PrimFloat.float,
      _search (only_index "nan.dat" nan_db) "a" "nan.dat" 3 []
      = inr [r0; r1; r2] /\
      opcode r0 = 0%nat /\ opcode r1 = 1%nat /\ opcode r2 = 2%nat /\
      PrimFloat.eqb (similarity r1) (similarity r1) = false /\
      similarity r2 = of_int 1 /\
      PrimFloat.ltb (similarity r0) (similarity r2) = true).
Proof.
  split; [repeat split; reflexivity |].
  do 3 eexists. split; [vm_compute; reflexivity |].
  repeat split; vm_compute; reflexivity.
Qed.

(** ** Further properties of the query engine *)

Section SortByKey.

Context {A : Type} (key : A -> R).

Lemma insert_descending (x : A) (l : list A) :
  StronglySorted (fun a b => key b <= key a) l ->
  StronglySorted (fun a b => key b <= key a)
    (insert_by (descending key) x l).
Proof.
  induction l as [| y l IH]; intros Hs; cbn [insert_by].
  - repeat constructor.
  - inversion Hs as [| ? ? Hs' Hy]; subst. unfold descending at 1.
    cbn [flt fneg exact]. unfold R_ltb. destruct (Rlt_dec (- key y) (- key x)) as [Hlt | Hge].
    + constructor; [apply IH; exact Hs' |].
      apply Forall_forall. intros z Hz.
      apply (Permutation_in _ (insert_by_perm (descending key) x l)) in Hz.
      destruct Hz as [<- | Hz]; [lra |].
      rewrite Forall_forall in Hy. apply Hy. exact Hz.
    + constructor; [exact Hs |]. constructor; [lra |].
      apply Forall_forall. intros z Hz.
      rewrite Forall_forall in Hy. pose proof (Hy z Hz). lra.
Qed.

Lemma sort_descending (l : list A) :
  StronglySorted (fun a b => key b <= key a) (sort_by (descending key) l).
Proof.
  induction l as [| x l IH]; simpl.
  - constructor.
  - apply insert_descending. exact IH.
Qed.

End SortByKey.

Lemma firstn_sorted {A} (R : A -> A -> Prop) (n : nat) (l : list A) :
  StronglySorted R l -> StronglySorted R (firstn n l).
Proof.
  revert n. induction l as [| x l IH]; intros n Hs.
  - rewrite firstn_nil. constructor.
  - destruct n as [| n]; [constructor |]. simpl.
    inversion Hs as [| ? ? Hs' Hx]; subst.
    constructor; [apply IH; exact Hs' |].
    apply Forall_forall. intros y Hy.
    rewrite Forall_forall in Hx. apply Hx.
    rewrite <- (firstn_skipn n l). apply in_or_app. left. exact Hy.
Qed.

Lemma slice_to_sorted {A} (R : A -> A -> Prop) (l : list A) (k : Z) :
  StronglySorted R l -> StronglySorted R (slice_to l k).
Proof.
  intros H. unfold slice_to. destruct (0 <=? k)%Z; apply firstn_sorted, H.
Qed.

(** X2.  Whatever [search_all] returns is sorted by descending similarity,
    and holds at most [top_k] results when [top_k] is not negative. *)
Theorem search_all_sorted (w : world R) (query build_dir : string) (top_k : Z)
  (results : list (Result R)) :
  search_all w query build_dir top_k = inr results ->
  StronglySorted (fun a b => similarity b <= similarity a) results /\
  ((0 <= top_k)%Z -> (Z.of_nat (List.length results) <= top_k)%Z).
Proof.
  unfold search_all. intros H. inv_bind H. injection H as <-. split.
  - apply slice_to_sorted. apply (sort_descending (@similarity R)).
  - intros Hk. rewrite slice_to_pos by exact Hk.
    rewrite length_firstn. lia.
Qed.

Lemma search_all_sorted_witness :
  exists results : list (Result R),
    search_all tiny_world "b" "vectors" 2 = inr results /\
    StronglySorted (fun a b => similarity b <= similarity a) results /\
    ((0 <= 2)%Z -> (Z.of_nat (List.length results) <= 2)%Z).
Proof.
  assert (H : exists results,
             search_all tiny_world "b" "vectors" 2 = inr results).
  { unfold search_all.
    change (glob_dat tiny_world "vectors") with ["vectors/tiny.dat"].
    cbn [mapM].
    rewrite (@_search_exact tiny_world "b" "vectors/tiny.dat" 2%Z
               (load_module_id_map (manifest tiny_world)) tiny_db);
      [| reflexivity | discriminate | simpl; lia].
    eexists. reflexivity. }
  destruct H as (results & H). exists results.
  split; [exact H |].
  exact (@search_all_sorted tiny_world "b" "vectors" 2%Z results H).
Defined.

(** ** Further properties of the vectorizer *)

Lemma idf_value_nonneg (docs : list (list string)) :
  Forall (fun x => 0 <= x)
    (Dict.values (idf_value (F:=R) docs (vocabulary docs))).
Proof.
  unfold idf_value, Dict.values. rewrite map_map. simpl.
  apply Forall_forall. intros x Hx. apply in_map_iff in Hx.
  destruct Hx as (w & <- & Hw).
  apply (@idf_of_nonneg (List.length docs) (doc_count docs w)).
  - apply doc_count_pos. exact Hw.
  - apply doc_count_le.
Qed.

Lemma ratio_nonneg (c len : nat) : (1 <= len)%nat -> 0 <= INR c / INR len.
Proof.
  intros H. apply Rmult_le_pos; [apply pos_INR |].
  apply Rlt_le, Rinv_0_lt_compat, lt_0_INR. lia.
Qed.

Lemma entry_vector_value_nonneg (word_idx : Dict.t nat) (idf : Dict.t R)
  (doc : list string) :
  Forall (fun x => 0 <= x) (Dict.values idf) ->
  Forall (fun x => 0 <= x) (Dict.values (entry_vector_value word_idx idf doc)).
Proof.
  intros Hidf. destruct doc as [| w0 doc]; [constructor |].
  unfold entry_vector_value. apply dict_of_list_values.
  rewrite map_map. apply Forall_forall. intros x Hx.
  apply in_map_iff in Hx. destruct Hx as (w & <- & _).
  unfold weight_item. simpl snd. cbn [fmul fdiv of_int exact].
  apply Rmult_le_pos.
  - apply ratio_nonneg. simpl. lia.
  - apply get_nonneg. exact Hidf.
Qed.

Lemma entry_vector_value_wf {F} {arith : Arith F} (word_idx : Dict.t nat)
  (idf : Dict.t F) (doc : list string) :
  Dict.wf (entry_vector_value word_idx idf doc).
Proof.
  destruct doc as [| w0 doc]; [apply DictFacts.wf_nil |].
  apply dict_of_list_wf.
Qed.

Lemma query_vector_value_nonneg (db : document R) (words : list string) :
  words <> [] ->
  Forall (fun x => 0 <= x) (Dict.values (db_idf db)) ->
  Forall (fun x => 0 <= x) (Dict.values (query_vector_value db words)).
Proof.
  intros Hne Hidf. unfold query_vector_value. apply dict_of_list_values.
  rewrite map_map. apply Forall_forall. intros x Hx.
  apply in_map_iff in Hx. destruct Hx as (w & <- & _).
  unfold weight_item. simpl snd. cbn [fmul fdiv of_int exact].
  apply Rmult_le_pos.
  - apply ratio_nonneg. destruct words; [contradiction | simpl; lia].
  - apply get_nonneg. exact Hidf.
Qed.

(** X3.  Every vector of a built index is a dictionary of non-negative
    weights, and every similarity that a search in the written index
    reports lies between 0 and 1 (in exact arithmetic). *)
Theorem built_index_similarity_range (entries : list string)
  (source_name query db_path : string) (top_k : Z)
  (module_map : Dict.t nat) :
  exists (t : tfidf R) (results : list (Result R)),
    build_tfidf entries = inr t /\
    Forall (fun v => Dict.wf v /\ Forall (fun x => 0 <= x) (Dict.values v))
      (vectors t) /\
    _search (only_index db_path (document_of t entries source_name))
      query db_path top_k module_map = inr results /\
    Forall (fun r => 0 <= similarity r <= 1) results.
Proof.
  set (t := tfidf_value (F:=R) entries).
  set (db := document_of t entries source_name).
  assert (Hvecs : Forall (fun v => Dict.wf v /\
                                   Forall (fun x => 0 <= x) (Dict.values v))
                    (vectors t)).
  { unfold t, tfidf_value. simpl. apply Forall_forall. intros v Hv.
    apply in_map_iff in Hv. destruct Hv as (doc & <- & _). split.
    - apply entry_vector_value_wf.
    - apply entry_vector_value_nonneg, idf_value_nonneg. }
  assert (Hfile : dat_file (only_index db_path db) db_path = Some (Index db))
    by (unfold only_index; simpl; rewrite String.eqb_refl; reflexivity).
  exists t. fold db.
  destruct (tokenize query) as [| w0 ws] eqn:Ew.
  - exists []. split; [apply build_tfidf_exact |]. split; [exact Hvecs |].
    split; [| constructor].
    unfold _search, load_index. rewrite Hfile. simpl. rewrite Ew. reflexivity.
  - eexists. split; [apply build_tfidf_exact |]. split; [exact Hvecs |].
    split.
    + apply _search_exact; [exact Hfile | rewrite Ew; discriminate |].
      unfold db, t, tfidf_value. simpl. rewrite !length_map. lia.
    + apply Forall_forall. intros r Hr. apply in_map_iff in Hr.
      destruct Hr as ([i s] & <- & Hin). simpl.
      apply slice_to_incl in Hin. apply (proj1 (sort_by_in _ _ _)) in Hin.
      unfold scores_value in Hin. apply in_map_iff in Hin.
      destruct Hin as ([j v] & Heq & Hjv). injection Heq as _ <-. simpl.
      apply in_combine_r in Hjv.
      rewrite Forall_forall in Hvecs. destruct (Hvecs v Hjv) as [Hwf Hpos].
      apply cosine_value_range.
      * apply dict_of_list_wf.
      * exact Hwf.
      * apply query_vector_value_nonneg; [rewrite Ew; discriminate |].
        apply idf_value_nonneg.
      * exact Hpos.
Qed.

(** ** Strings, character by character *)

Lemma chars_inj (s t : string) : chars s = chars t -> s = t.
Proof.
  intros H. rewrite <- (string_of_list_ascii_of_string s),
    <- (string_of_list_ascii_of_string t). unfold chars in H. rewrite H.
  reflexivity.
Qed.

Lemma chars_append (s t : string) :
  chars (String.append s t) = chars s ++ chars t.
Proof.
  induction s as [| c s IH]; simpl; [reflexivity |].
  unfold chars in *. simpl. rewrite IH. reflexivity.
Qed.

Lemma mem_chars (c : ascii) (s : string) :
  Str.mem c s = true <-> In c (chars s).
Proof.
  induction s as [| a s IH]; simpl.
  - split; [discriminate | intros []].
  - rewrite orb_true_iff, IH. unfold chars. simpl.
    rewrite Ascii.eqb_eq. reflexivity.
Qed.

Lemma mem_false_chars (c : ascii) (s : string) :
  Str.mem c s = false <-> ~ In c (chars s).
Proof.
  rewrite <- mem_chars. destruct (Str.mem c s); split; intros H;
    try reflexivity; try discriminate; try congruence.
Qed.

Lemma chars_rev_onto (s acc : string) :
  chars (Str.rev_onto s acc) = rev (chars s) ++ chars acc.
Proof.
  revert acc. induction s as [| c s IH]; intros acc; simpl.
  - reflexivity.
  - rewrite IH. unfold chars. simpl. rewrite <- app_assoc. reflexivity.
Qed.

Lemma chars_rev (s : string) : chars (Str.rev s) = rev (chars s).
Proof. unfold Str.rev. rewrite chars_rev_onto. apply app_nil_r. Qed.

Lemma rev_involutive (s : string) : Str.rev (Str.rev s) = s.
Proof.
  apply chars_inj. rewrite !chars_rev. apply List.rev_involutive.
Qed.

Lemma chars_lstrip (s : string) : chars (Str.lstrip s) = drop_spaces (chars s).
Proof.
  induction s as [| c s IH]; simpl; [reflexivity |].
  unfold chars in *. simpl. destruct (Str.is_space c); [exact IH | reflexivity].
Qed.

Lemma chars_strip (s : string) :
  chars (Str.strip s) = rev (drop_spaces (rev (drop_spaces (chars s)))).
Proof.
  unfold Str.strip, Str.rstrip.
  rewrite chars_rev, chars_lstrip, chars_rev, chars_lstrip. reflexivity.
Qed.

Lemma drop_spaces_split (cs : list ascii) :
  exists pre, cs = pre ++ drop_spaces cs /\
              Forall (fun c => Str.is_space c = true) pre.
Proof.
  induction cs as [| c cs (pre & Hpre & Hall)]; simpl.
  - exists []. split; [reflexivity | constructor].
  - destruct (Str.is_space c) eqn:E.
    + exists (c :: pre). split; [simpl; f_equal; exact Hpre |].
      constructor; assumption.
    + exists []. split; [reflexivity | constructor].
Qed.

Lemma drop_spaces_incl (cs : list ascii) (c : ascii) :
  In c (drop_spaces cs) -> In c cs.
Proof.
  destruct (drop_spaces_split cs) as (pre & Hpre & _). intros H.
  rewrite Hpre. apply in_or_app. right. exact H.
Qed.

Lemma drop_spaces_fixed (cs : list ascii) :
  match cs with [] => True | c :: _ => Str.is_space c = false end ->
  drop_spaces cs = cs.
Proof.
  destruct cs as [| c cs]; simpl; [reflexivity |]. intros ->. reflexivity.
Qed.

Lemma drop_spaces_head (cs : list ascii) :
  match drop_spaces cs with [] => True | c :: _ => Str.is_space c = false end.
Proof.
  induction cs as [| c cs IH]; simpl; [exact I |].
  destruct (Str.is_space c) eqn:E; [exact IH | exact E].
Qed.

Lemma drop_spaces_idem (cs : list ascii) :
  drop_spaces (drop_spaces cs) = drop_spaces cs.
Proof. apply drop_spaces_fixed, drop_spaces_head. Qed.

(** Trimming on both sides leaves a list that starts and ends with a
    character other than a space. *)
Lemma trim_both_fixed (cs : list ascii) :
  let t := rev (drop_spaces (rev (drop_spaces cs))) in
  drop_spaces t = t /\ drop_spaces (rev t) = rev t.
Proof.
  intros t. split.
  - apply drop_spaces_fixed.
    destruct (drop_spaces_split (rev (drop_spaces cs))) as (pre & Hpre & _).
    assert (Hd : drop_spaces cs = t ++ rev pre).
    { apply (f_equal (@rev ascii)) in Hpre.
      rewrite List.rev_involutive, rev_app_distr in Hpre. exact Hpre. }
    destruct t as [| c t']; [exact I |].
    pose proof (drop_spaces_head cs) as Hh. rewrite Hd in Hh. exact Hh.
  - unfold t. rewrite List.rev_involutive. apply drop_spaces_idem.
Qed.

Lemma strip_idempotent (s : string) : Str.strip (Str.strip s) = Str.strip s.
Proof.
  apply chars_inj. rewrite chars_strip.
  destruct (trim_both_fixed (chars s)) as [H1 H2].
  rewrite <- chars_strip in H1, H2. rewrite H1, H2.
  apply List.rev_involutive.
Qed.

Lemma strip_trimmed (s : string) : trimmed (Str.strip s).
Proof. apply strip_idempotent. Qed.

Lemma strip_incl (s : string) (c : ascii) :
  In c (chars (Str.strip s)) -> In c (chars s).
Proof.
  rewrite chars_strip. intros H. apply in_rev in H.
  apply drop_spaces_incl in H. apply in_rev in H.
  apply drop_spaces_incl in H. exact H.
Qed.

Lemma strip_mem_false (s : string) (c : ascii) :
  Str.mem c s = false -> Str.mem c (Str.strip s) = false.
Proof.
  rewrite !mem_false_chars. intros H Hin. apply H, strip_incl, Hin.
Qed.

(** ** Tokens *)

Lemma lower_char_not_upper (c : ascii) : Str.is_upper (Str.lower_char c) = false.
Proof. destruct c as [[] [] [] [] [] [] [] []]; reflexivity. Qed.

Lemma chars_lower (s : string) :
  chars (Str.lower s) = map Str.lower_char (chars s).
Proof.
  induction s as [| c s IH]; simpl; [reflexivity |].
  unfold chars in *. simpl. rewrite IH. reflexivity.
Qed.

Lemma nonempty_chars (s : string) : nonempty s = true <-> chars s <> [].
Proof.
  destruct s; unfold chars; simpl; split; intros H; try discriminate;
    try reflexivity; congruence.
Qed.

Lemma word_runs_spec (s cur : string) :
  Forall (fun c => Str.is_word c = true) (chars cur) ->
  Forall
    (fun w => nonempty w = true /\
              Forall (fun c => Str.is_word c = true /\
                               (In c (chars cur) \/ In c (chars s)))
                (chars w))
    (Str.word_runs s cur) /\
  List.concat (map chars (Str.word_runs s cur))
  = rev (chars cur) ++ filter Str.is_word (chars s).
Proof.
  assert (Hflush : forall cur, Forall (fun c => Str.is_word c = true) (chars cur) ->
            forall s0, cur <> EmptyString ->
            nonempty (Str.rev cur) = true /\
            Forall (fun c => Str.is_word c = true /\
                             (In c (chars cur) \/ In c (chars s0)))
              (chars (Str.rev cur))).
  { intros cur0 Hcur0 s0 Hne. split.
    - apply nonempty_chars. rewrite chars_rev. intros H.
      apply (f_equal (@rev ascii)) in H. rewrite List.rev_involutive in H.
      simpl in H. apply Hne. apply chars_inj. exact H.
    - rewrite chars_rev. apply Forall_forall. intros c Hc.
      apply in_rev in Hc. rewrite Forall_forall in Hcur0. auto. }
  revert cur. induction s as [| a s IH]; intros cur Hcur.
  - simpl. destruct cur as [| b cur'] eqn:Ecur.
    + split; [constructor | reflexivity].
    + rewrite <- Ecur in *. split.
      * constructor; [| constructor].
        assert (Hne : cur <> EmptyString) by congruence.
        exact (Hflush cur Hcur EmptyString Hne).
      * simpl. rewrite chars_rev, !app_nil_r. reflexivity.
  - cbn [Str.word_runs]. change (chars (String a s)) with (a :: chars s).
    cbn [filter]. destruct (Str.is_word a) eqn:Ea.
    + destruct (IH (String a cur)) as [IH1 IH2].
      { constructor; assumption. }
      split.
      * eapply Forall_impl; [| exact IH1]. intros w [Hw1 Hw2].
        split; [exact Hw1 |].
        eapply Forall_impl; [| exact Hw2]. intros c [Hc1 Hc2].
        split; [exact Hc1 |].
        change (chars (String a cur)) with (a :: chars cur) in Hc2.
        simpl in *. tauto.
      * rewrite IH2. change (chars (String a cur)) with (a :: chars cur).
        simpl. rewrite <- app_assoc. reflexivity.
    + destruct (IH EmptyString) as [IH1 IH2]; [constructor |].
      assert (IH1' : Forall
                (fun w => nonempty w = true /\
                   Forall (fun c => Str.is_word c = true /\
                             (In c (chars cur) \/ In c (a :: chars s)))
                     (chars w))
                (Str.word_runs s EmptyString)).
      { eapply Forall_impl; [| exact IH1]. intros w [Hw1 Hw2].
        split; [exact Hw1 |].
        eapply Forall_impl; [| exact Hw2]. intros c [Hc1 Hc2].
        split; [exact Hc1 |]. simpl in *. tauto. }
      destruct cur as [| b cur'] eqn:Ecur.
      * split; [exact IH1' | rewrite IH2; reflexivity].
      * rewrite <- Ecur in *. split.
        -- constructor; [| exact IH1'].
           destruct (Hflush cur Hcur (String a s)) as [H1 H2]; [congruence |].
           split; [exact H1 | exact H2].
        -- simpl. rewrite IH2, chars_rev. reflexivity.
Qed.

(** X5.  Every token is a non-empty string of lowercase letters, digits and
    underscores, and the tokens, put end to end, are the word characters
    of the lowercased text: nothing is lost or reordered. *)
Theorem tokenize_tokens (text : string) :
  Forall
    (fun w => nonempty w = true /\
              Forall (fun c => token_char c = true) (chars w))
    (tokenize text) /\
  List.concat (map chars (tokenize text))
  = filter Str.is_word (chars (Str.lower text)).
Proof.
  unfold tokenize.
  destruct (word_runs_spec (Str.lower text) EmptyString) as [H1 H2];
    [constructor |].
  split; [| exact H2].
  eapply Forall_impl; [| exact H1]. intros w [Hw1 Hw2].
  split; [exact Hw1 |].
  eapply Forall_impl; [| exact Hw2]. intros c [Hc1 [[] | Hc2]].
  unfold token_char. rewrite Hc1. rewrite chars_lower in Hc2.
  apply in_map_iff in Hc2. destruct Hc2 as (c0 & <- & _).
  rewrite lower_char_not_upper. reflexivity.
Qed.

(** ** Operation names and parameters *)

Lemma split1_head_no_sep (c : ascii) (s : string) :
  Str.mem c (fst (Str.split1 c s)) = false.
Proof.
  induction s as [| a s IH]; simpl; [reflexivity |].
  destruct (Ascii.eqb a c) eqn:E; simpl; [reflexivity |].
  destruct (Str.split1 c s) as [h t]. simpl in *. rewrite E. exact IH.
Qed.

Lemma split1_parts (c : ascii) (s : string) :
  match Str.split1 c s with
  | (h, []) => s = h
  | (h, r :: _) => s = String.append h (String c r)
  end.
Proof.
  induction s as [| a s IH]; simpl; [reflexivity |].
  destruct (Ascii.eqb a c) eqn:E.
  - apply Ascii.eqb_eq in E. subst. reflexivity.
  - destruct (Str.split1 c s) as [h [| r t]]; simpl; rewrite IH; reflexivity.
Qed.

(** X6.  The operation name of an entry is the text before its first bar
    (the whole text when there is none), trimmed: it contains no bar and
    has no surrounding whitespace. *)
Theorem parse_op_name_clean (entry : string) :
  exists head : string,
    (entry = head \/ exists rest, entry = String.append head (String "|" rest)) /\
    Str.mem "|" head = false /\
    parse_op_name entry = Str.strip head /\
    trimmed (parse_op_name entry) /\
    Str.mem "|" (parse_op_name entry) = false.
Proof.
  exists (fst (Str.split1 "|" entry)).
  pose proof (split1_parts "|" entry) as Hparts.
  pose proof (split1_head_no_sep "|" entry) as Hno.
  split.
  { destruct (Str.split1 "|" entry) as [h [| r t]]; simpl.
    - left. exact Hparts.
    - right. exists r. exact Hparts. }
  split; [exact Hno |]. split; [reflexivity |].
  split; [apply strip_trimmed | apply strip_mem_false; exact Hno].
Qed.

(** *** Pieces of a text cut at a character *)

Lemma prefix_char (c a : ascii) (s : string) :
  prefix (String c EmptyString) (String a s) = Ascii.eqb c a.
Proof.
  simpl. destruct (ascii_dec c a) as [-> | Hne].
  - rewrite Ascii.eqb_refl. destruct s; reflexivity.
  - symmetry. apply Ascii.eqb_neq. exact Hne.
Qed.

Lemma split_char_pieces (c : ascii) (s cur : string) :
  ~ In c (chars cur) ->
  Forall
    (fun p => ~ In c (chars p) /\
              forall x, In x (chars p) -> In x (chars cur) \/ In x (chars s))
    (Str.split_scan (String c EmptyString) s 0 cur).
Proof.
  revert cur. induction s as [| a s IH]; intros cur Hcur.
  - simpl. constructor; [| constructor]. rewrite chars_rev. split.
    + intros H. apply in_rev in H. contradiction.
    + intros x Hx. apply in_rev in Hx. left. exact Hx.
  - cbn [Str.split_scan]. rewrite prefix_char.
    change (chars (String a s)) with (a :: chars s).
    destruct (Ascii.eqb c a) eqn:E.
    + constructor.
      * rewrite chars_rev. split.
        -- intros H. apply in_rev in H. contradiction.
        -- intros x Hx. apply in_rev in Hx. left. exact Hx.
      * simpl. eapply Forall_impl; [| apply (IH EmptyString); intros []].
        intros p [Hp1 Hp2]. split; [exact Hp1 |].
        intros x Hx. destruct (Hp2 x Hx) as [[] | H]. right. right. exact H.
    + apply Ascii.eqb_neq in E.
      eapply Forall_impl; [| apply (IH (String a cur))].
      * intros p [Hp1 Hp2]. split; [exact Hp1 |].
        intros x Hx. destruct (Hp2 x Hx) as [H | H].
        -- change (chars (String a cur)) with (a :: chars cur) in H.
           destruct H as [<- | H]; [right; left; reflexivity | left; exact H].
        -- right. right. exact H.
      * change (chars (String a cur)) with (a :: chars cur).
        intros [H | H]; [congruence | contradiction].
Qed.

(** *** The parameter pattern *)

Lemma span_fst_all (p : ascii -> bool) (s : string) :
  Forall (fun c => p c = true) (chars (fst (ParamRe.span p s))).
Proof.
  induction s as [| c s IH]; simpl; [constructor |].
  destruct (p c) eqn:E; [| constructor].
  destruct (ParamRe.span p s) as [a b]. simpl in *.
  constructor; assumption.
Qed.

Lemma space_not_dot (c : ascii) : Str.is_space c = true -> ParamRe.not_dot c = true.
Proof. destruct c as [[] [] [] [] [] [] [] []]; intros H; try reflexivity; discriminate H. Qed.

Lemma group_no_dot (s g : string) :
  ParamRe.group s = Some g ->
  g <> EmptyString /\ Forall (fun c => ParamRe.not_dot c = true) (chars g).
Proof.
  unfold ParamRe.group.
  pose proof (span_fst_all Str.is_space s) as Hws.
  destruct (ParamRe.span Str.is_space s) as [ws rest]. simpl in Hws.
  pose proof (span_fst_all ParamRe.not_dot rest) as Hbody.
  destruct (ParamRe.span ParamRe.not_dot rest) as [body rest']. simpl in Hbody.
  destruct body as [| b body'].
  - destruct (Str.rev ws) as [| c r] eqn:Er; [discriminate |].
    intros [= <-]. split; [discriminate |].
    constructor; [| constructor]. apply space_not_dot.
    rewrite Forall_forall in Hws. apply Hws.
    apply in_rev. rewrite <- chars_rev, Er. left. reflexivity.
  - intros [= <-]. split; [discriminate | exact Hbody].
Qed.

Lemma search_no_dot (s g : string) :
  ParamRe.search s = Some g ->
  g <> EmptyString /\ Forall (fun c => ParamRe.not_dot c = true) (chars g).
Proof.
  assert (Hhere : forall s0, ParamRe.match_here s0 = Some g ->
            g <> EmptyString /\
            Forall (fun c => ParamRe.not_dot c = true) (chars g)).
  { intros s0. unfold ParamRe.match_here, ParamRe.tail.
    destruct (ParamRe.literal "parameter" s0) as [r |]; [| discriminate].
    destruct (ParamRe.literal "s" r) as [r1 |].
    - destruct (ParamRe.literal ":" r1) as [r2 |].
      + destruct (ParamRe.group r2) as [g2 |] eqn:Eg.
        * intros [= <-]. eapply group_no_dot. exact Eg.
        * destruct (ParamRe.literal ":" r) as [r3 |]; [| discriminate].
          apply group_no_dot.
      + destruct (ParamRe.literal ":" r) as [r3 |]; [| discriminate].
        apply group_no_dot.
    - destruct (ParamRe.literal ":" r) as [r3 |]; [| discriminate].
      apply group_no_dot. }
  induction s as [| a s IH]; cbn [ParamRe.search].
  - destruct (ParamRe.match_here EmptyString) eqn:E; [| discriminate].
    intros [= <-]. apply (Hhere _ E).
  - destruct (ParamRe.match_here (String a s)) eqn:E.
    + intros [= <-]. apply (Hhere _ E).
    + exact IH.
Qed.

(** X7.  Every parsed parameter is a non-empty text without surrounding
    whitespace that contains neither a comma nor a period. *)
Theorem parse_params_clean (entry : string) :
  Forall
    (fun p => nonempty p = true /\ trimmed p /\
              Str.mem "," p = false /\ Str.mem "." p = false)
    (parse_params entry).
Proof.
  unfold parse_params.
  destruct (ParamRe.search entry) as [raw |] eqn:Es; [| constructor].
  apply search_no_dot in Es. destruct Es as [_ Hraw].
  pose proof (@split_char_pieces "," raw EmptyString (fun H => H)) as Hpieces.
  change (Str.split_scan "," raw 0 EmptyString) with (Str.split "," raw)
    in Hpieces.
  apply Forall_forall. intros p Hp. apply in_map_iff in Hp.
  destruct Hp as (piece & <- & Hin). apply filter_In in Hin.
  destruct Hin as [Hin Hne].
  rewrite Forall_forall in Hpieces. destruct (Hpieces piece Hin) as [Hc Hsub].
  split; [exact Hne |]. split; [apply strip_trimmed |]. split.
  - apply strip_mem_false. apply mem_false_chars. exact Hc.
  - apply strip_mem_false. apply mem_false_chars. intros Hdot.
    destruct (Hsub _ Hdot) as [[] | Hraw'].
    rewrite Forall_forall in Hraw. specialize (Hraw _ Hraw').
    discriminate Hraw.
Qed.

(** ** The registry's names *)

Lemma record_name_clean (e : string) :
  trimmed (record_name e) /\ Str.mem "|" (record_name e) = false.
Proof.
  unfold record_name. split; [apply strip_trimmed |].
  apply strip_mem_false, split1_head_no_sep.
Qed.

Lemma fold_register_invariant (P : string -> Prop) (items : list (nat * string))
  (acc : Dict.t nat) :
  (forall e, nonempty (record_name e) = true -> P (record_name e)) ->
  Dict.wf acc -> Forall P (Dict.keys acc) ->
  Dict.wf (fold_left register items acc) /\
  Forall P (Dict.keys (fold_left register items acc)).
Proof.
  intros HP. revert acc. induction items as [| [i e] items IH];
    intros acc Hwf Hall; cbn [fold_left].
  - split; assumption.
  - apply IH; unfold register; fold (record_name e);
      destruct (nonempty (record_name e)) eqn:E; try assumption.
    + apply DictFacts.wf_set. exact Hwf.
    + apply Forall_forall. intros k Hk.
      apply (proj1 (DictFacts.in_keys_set _ _ _ _)) in Hk.
      destruct Hk as [-> | Hk]; [apply HP; exact E |].
      rewrite Forall_forall in Hall. apply Hall. exact Hk.
Qed.

(** X8.  The registry is a dictionary whose keys are pairwise distinct,
    non-empty, trimmed and free of bars, whatever the manifest holds; a
    missing manifest gives the empty registry. *)
Theorem registry_names (manifest : option string) :
  let module_map := load_module_id_map manifest in
  Dict.wf module_map /\
  Forall
    (fun name => nonempty name = true /\ trimmed name /\
                 Str.mem "|" name = false)
    (Dict.keys module_map) /\
  (manifest = None -> module_map = []).
Proof.
  destruct manifest as [content |]; simpl.
  - destruct (@fold_register_invariant
                (fun name => nonempty name = true /\ trimmed name /\
                             Str.mem "|" name = false)
                (enumerate (split_entries content)) []) as [H1 H2].
    + intros e He. split; [exact He | apply record_name_clean].
    + apply DictFacts.wf_nil.
    + constructor.
    + split; [exact H1 |]. split; [exact H2 | discriminate].
  - split; [apply DictFacts.wf_nil |]. split; [constructor | reflexivity].
Qed.

(** ** What a search returns *)

Lemma _search_results {F : Type} {arith : Arith F} (w : world F)
  (query db_path : string) (top_k : Z) (module_map : Dict.t nat)
  (db : document F) (rs : list (Result F)) :
  dat_file w db_path = Some (Index db) ->
  _search w query db_path top_k module_map = inr rs ->
  Forall
    (fun r => exists i s e,
         nth_error (db_entries db) i = Some e /\
         r = enrich_result e i s (Path.stem db_path) module_map)
    rs.
Proof.
  intros Hfile H.
  rewrite (@_search_index F arith w query db_path top_k module_map db Hfile)
    in H.
  destruct (tokenize query) as [| w0 ws].
  - injection H as <-. constructor.
  - inv_bind H. inv_bind H. apply mapM_ok in H.
    induction H as [| [i s] r sl rs' Hr _ IH]; constructor; [| exact IH].
    simpl in Hr. unfold nth_item in Hr.
    destruct (nth_error (db_entries db) i) as [e |] eqn:En; [| discriminate].
    injection Hr as <-. exists i, s, e. split; [exact En | reflexivity].
Qed.

Lemma registry_find_position (content : string) (i : nat) (name : string) :
  Forall (fun n => n <> "") (record_names content) ->
  NoDup (record_names content) ->
  nth_error (record_names content) i = Some name ->
  Dict.find (load_module_id_map (Some content)) name = Some i.
Proof.
  intros Hne Hnd Hi. unfold load_module_id_map, enumerate.
  rewrite fold_register_find. fold (record_names content).
  assert (Hn : nonempty name = true).
  { apply nonempty_true. rewrite Forall_forall in Hne. apply Hne.
    eapply nth_error_In. exact Hi. }
  rewrite Hn.
  assert (Hl : last_named (record_names content) name 0 = Some (0 + i)%nat).
  { apply last_named_spec. exists i. split; [reflexivity |].
    split; [exact Hi |]. intros j Hj Hjn.
    assert (i = j); [| lia].
    eapply (proj1 (NoDup_nth_error (record_names content)) Hnd).
    - apply nth_error_Some. congruence.
    - congruence. }
  rewrite Hl. reflexivity.
Qed.

(** X9.  A search in the category database, with the registry loaded from
    the manifest the database was built from, resolves every result: when
    the records are named and no name repeats, each result is of kind
    [category], names its module by its operation name, has no parameters
    and no signature, and its module id is its opcode. *)
Theorem category_results_resolve {F : Type} {arith : Arith F} (w : world F)
  (content query db_path : string) (top_k : Z) (db : document F)
  (rs : list (Result F)) :
  manifest w = Some content ->
  dat_file w db_path = Some (Index db) ->
  db_entries db = split_entries content ->
  Path.stem db_path = "vector-categories" ->
  Forall (fun n => n <> "") (record_names content) ->
  NoDup (record_names content) ->
  search w query db_path top_k = inr rs ->
  Forall
    (fun r => kind r = "category" /\ module_name r = op_name r /\
              module_id r = Some (opcode r) /\
              params r = [] /\ signature r = "")
    rs.
Proof.
  intros Hman Hfile Hentries Hstem Hne Hnd Hsearch.
  unfold search in Hsearch. rewrite Hman in Hsearch.
  pose proof (@_search_results F arith w query db_path top_k
                (load_module_id_map (Some content)) db rs Hfile Hsearch)
    as Hrs.
  eapply Forall_impl; [| exact Hrs].
  intros r (i & s & e & Hi & ->). rewrite Hstem.
  unfold enrich_result. cbv zeta. rewrite String.eqb_refl.
  cbn [kind module_name op_name module_id opcode params signature].
  repeat split; try reflexivity.
  unfold Dict.get_opt.
  rewrite (@registry_find_position content i (parse_op_name e));
    try assumption; [reflexivity |].
  unfold record_names. rewrite nth_error_map, <- Hentries, Hi. reflexivity.
Qed.

Lemma category_results_resolve_witness :
  exists rs : list (Result R),
    search category_world "beta" "vectors/vector-categories.dat" 2 = inr rs /\
    List.length rs = 2%nat /\
    Forall
      (fun r => kind r = "category" /\ module_name r = op_name r /\
                module_id r = Some (opcode r) /\
                params r = [] /\ signature r = "")
      rs.
Proof.
  assert (H : exists rs,
             search category_world "beta" "vectors/vector-categories.dat" 2
             = inr rs /\ List.length rs = 2%nat).
  { unfold search.
    rewrite (@_search_exact category_world "beta"
               "vectors/vector-categories.dat" 2%Z
               (load_module_id_map (manifest category_world)) category_db);
      [| reflexivity | discriminate | simpl; lia].
    eexists. split; [reflexivity |].
    rewrite length_map, slice_to_pos, length_firstn, sort_by_length by lia.
    reflexivity. }
  destruct H as (rs & Hrs & Hlen). exists rs.
  split; [exact Hrs |]. split; [exact Hlen |].
  apply (@category_results_resolve R exact category_world
           manifest_alpha_beta "beta" "vectors/vector-categories.dat" 2%Z
           category_db rs).
  - reflexivity.
  - reflexivity.
  - reflexivity.
  - reflexivity.
  - change (record_names manifest_alpha_beta) with ["alpha"; "beta"].
    repeat constructor; discriminate.
  - change (record_names manifest_alpha_beta) with ["alpha"; "beta"].
    repeat constructor; simpl; intuition discriminate.
  - exact Hrs.
Defined.

(** ** Decimal numerals *)

Lemma to_uint_nonnil (n : nat) : Nat.to_uint n <> Decimal.Nil.
Proof.
  intros H. pose proof (Unsigned.of_to n) as Hn. rewrite H in Hn.
  simpl in Hn. subst n. discriminate H.
Qed.

Lemma of_nat_inj (a b : nat) : Str.of_nat a = Str.of_nat b -> a = b.
Proof.
  unfold Str.of_nat. intros H.
  apply (f_equal NilZero.uint_of_string) in H.
  rewrite !NilZero.usu in H by apply to_uint_nonnil.
  injection H as H. apply Unsigned.to_uint_inj. exact H.
Qed.

(** ** The weights of an index *)

Lemma term_counts_get_acc (doc : list string) (acc : Dict.t nat) (w : string) :
  Dict.get
    (fold_left (fun tf w => Dict.set tf w (Dict.get tf w 0 + 1)%nat) doc acc)
    w 0%nat
  = (Dict.get acc w 0 + count_occ string_dec doc w)%nat.
Proof.
  revert acc. induction doc as [| x doc IH]; intros acc; simpl.
  - lia.
  - rewrite IH. unfold Dict.get at 1.
    destruct (string_dec x w) as [-> | Hne].
    + rewrite DictFacts.find_set_same. fold (Dict.get acc w 0%nat). lia.
    + rewrite DictFacts.find_set_other by exact Hne.
      fold (Dict.get acc w 0%nat). lia.
Qed.

Lemma term_counts_get (doc : list string) (w : string) :
  Dict.get (term_counts doc) w 0%nat = count_occ string_dec doc w.
Proof. unfold term_counts. rewrite term_counts_get_acc. reflexivity. Qed.

Lemma term_counts_wf (doc : list string) : Dict.wf (term_counts doc).
Proof.
  unfold term_counts.
  assert (H : forall acc : Dict.t nat, Dict.wf acc ->
            Dict.wf (fold_left
                       (fun tf w => Dict.set tf w (Dict.get tf w 0 + 1)%nat)
                       doc acc)).
  { induction doc as [| x doc IH]; intros acc Hacc; simpl; [exact Hacc |].
    apply IH, DictFacts.wf_set, Hacc. }
  apply H, DictFacts.wf_nil.
Qed.

Lemma find_swapped_enumerate (vocab : list string) (s i : nat) (w : string) :
  NoDup vocab -> nth_error vocab i = Some w ->
  Dict.find
    (map (fun iw : nat * string => (snd iw, fst iw))
       (combine (seq s (List.length vocab)) vocab)) w
  = Some (s + i)%nat.
Proof.
  revert s i. induction vocab as [| x vocab IH]; intros s i Hnd Hi.
  - destruct i; discriminate.
  - inversion Hnd as [| ? ? Hx Hnd']; subst. simpl.
    destruct i as [| i]; simpl in Hi.
    + injection Hi as ->. rewrite String.eqb_refl. f_equal. lia.
    + destruct (String.eqb x w) eqn:E.
      * apply String.eqb_eq in E. subst. exfalso. apply Hx.
        eapply nth_error_In. exact Hi.
      * rewrite (IH (S s) i Hnd' Hi). f_equal. lia.
Qed.

Lemma word_index_position (vocab : list string) (i : nat) (w : string) :
  NoDup vocab -> nth_error vocab i = Some w ->
  Dict.get (word_index vocab) w 0%nat = i.
Proof.
  intros Hnd Hi. rewrite word_index_nodup by exact Hnd.
  unfold Dict.get, enumerate.
  rewrite (@find_swapped_enumerate vocab 0 i w Hnd Hi). reflexivity.
Qed.

(** Looking a key up in a list of items built with an injective key. *)
Lemma find_map_injective {V} (key : string -> string) (val : string -> V)
  (xs : list string) (x : string) :
  (forall y, In y xs -> key y = key x -> y = x) ->
  Dict.find (map (fun y => (key y, val y)) xs) (key x) =
  if in_dec string_dec x xs then Some (val x) else None.
Proof.
  induction xs as [| y xs IH]; intros Hinj.
  - reflexivity.
  - cbn [map Dict.find fst snd].
    destruct (String.eqb (key y) (key x)) eqn:E.
    + apply String.eqb_eq in E.
      pose proof (Hinj y (or_introl eq_refl) E) as ->.
      destruct (in_dec string_dec x (x :: xs)) as [_ | Hn];
        [reflexivity | exfalso; apply Hn; left; reflexivity].
    + rewrite IH by (intros z Hz; apply Hinj; right; exact Hz).
      apply String.eqb_neq in E.
      destruct (in_dec string_dec x xs) as [Hin | Hout];
        destruct (in_dec string_dec x (y :: xs)) as [Hin' | Hout'];
        try reflexivity.
      * exfalso. apply Hout'. right. exact Hin.
      * destruct Hin' as [-> | Hin']; [congruence | contradiction].
Qed.

Lemma vocab_key_injective (vocab : list string) (a b : string) :
  NoDup vocab -> In a vocab -> In b vocab ->
  Str.of_nat (Dict.get (word_index vocab) a 0%nat)
  = Str.of_nat (Dict.get (word_index vocab) b 0%nat) ->
  a = b.
Proof.
  intros Hnd Ha Hb H. apply of_nat_inj in H.
  apply In_nth_error in Ha. destruct Ha as (pa & Hpa).
  apply In_nth_error in Hb. destruct Hb as (pb & Hpb).
  rewrite (@word_index_position vocab pa a Hnd Hpa),
    (@word_index_position vocab pb b Hnd Hpb) in H.
  subst pb. congruence.
Qed.

Lemma entry_vector_value_nonempty {F} {arith : Arith F}
  (word_idx : Dict.t nat) (idf : Dict.t F) (doc : list string) :
  doc <> [] ->
  entry_vector_value word_idx idf doc
  = dict_of_list
      (map (weight_item word_idx idf (term_counts doc) (List.length doc))
         (Dict.keys (term_counts doc))).
Proof. destruct doc; [congruence | reflexivity]. Qed.

Lemma entry_vector_value_lookup (docs : list (list string))
  (doc : list string) (i : nat) (w : string) :
  In doc docs ->
  nth_error (vocabulary docs) i = Some w ->
  Dict.get_opt
    (entry_vector_value (word_index (vocabulary docs))
       (idf_value (F:=R) docs (vocabulary docs)) doc)
    (Str.of_nat i)
  = if str_in w doc
    then Some (weight (count_occ string_dec doc w) (List.length doc)
                 (List.length docs) (doc_count docs w))
    else None.
Proof.
  intros Hdoc Hi.
  pose proof (vocabulary_nodup docs) as Hnd.
  assert (Hw : In w (vocabulary docs)) by (eapply nth_error_In; exact Hi).
  destruct (list_eq_dec string_dec doc []) as [-> | Hne]; [reflexivity |].
  assert (Hsub : forall y, In y (Dict.keys (term_counts doc)) ->
                           In y (vocabulary docs)).
  { intros y Hy. apply vocabulary_in. exists doc. split; [exact Hdoc |].
    apply term_counts_keys. exact Hy. }
  unfold Dict.get_opt. rewrite entry_vector_value_nonempty by exact Hne.
  set (widx := word_index (vocabulary docs)) in *.
  set (idf := idf_value (F:=R) docs (vocabulary docs)).
  set (tf := term_counts doc) in *.
  rewrite dict_of_list_nodup.
  - rewrite <- (@word_index_position (vocabulary docs) i w Hnd Hi). fold widx.
    unfold weight_item.
    rewrite (find_map_injective
               (fun y => Str.of_nat (Dict.get widx y 0%nat))
               (fun y => fmul (fdiv (of_int (Dict.get tf y 0%nat))
                                 (of_int (List.length doc)))
                           (Dict.get idf y zero))).
    + unfold str_in.
      destruct (in_dec string_dec w (Dict.keys tf)) as [Hin | Hout];
        destruct (in_dec string_dec w doc) as [Hin' | Hout'].
      * f_equal. unfold weight, idf_of. unfold tf.
        rewrite term_counts_get. f_equal.
        unfold idf, idf_value, Dict.get.
        rewrite find_map_self by exact Hw. reflexivity.
      * exfalso. apply Hout'. apply term_counts_keys. exact Hin.
      * exfalso. apply Hout. apply term_counts_keys. exact Hin'.
      * reflexivity.
    + intros y Hy Hkey.
      apply (@vocab_key_injective (vocabulary docs) y w Hnd);
        [apply Hsub; exact Hy | exact Hw | exact Hkey].
  - rewrite map_map. cbn [fst weight_item].
    apply NoDup_map_NoDup_ForallPairs; [| apply term_counts_wf].
    intros a b Ha Hb Hkey.
    apply (@vocab_key_injective (vocabulary docs) a b Hnd);
      [apply Hsub; exact Ha | apply Hsub; exact Hb | exact Hkey].
Qed.

(** X10.  What [build_tfidf] computes.  The vocabulary is the sorted set
    of the words of the entries, the idf of a word is [ln (N / df)], and
    the vector of an entry maps the numeral of the position of a
    vocabulary word to [(occurrences / length) * idf] when the word occurs
    in the entry, and has no key for it otherwise. *)
Theorem build_tfidf_weights (entries : list string) :
  let docs := map tokenize entries in
  exists t : tfidf R,
    build_tfidf entries = inr t /\
    vocab t = vocabulary docs /\
    idf t
    = map (fun w => (w, idf_of (List.length docs) (doc_count docs w)))
        (vocab t) /\
    Forall2
      (fun doc v =>
         forall i w,
           nth_error (vocab t) i = Some w ->
           Dict.get_opt v (Str.of_nat i)
           = if str_in w doc
             then Some (weight (count_occ string_dec doc w) (List.length doc)
                          (List.length docs) (doc_count docs w))
             else None)
      docs (vectors t).
Proof.
  intros docs. exists (tfidf_value entries).
  split; [apply build_tfidf_exact |]. split; [reflexivity |].
  split; [reflexivity |].
  unfold tfidf_value. fold docs. cbn [vocab vectors].
  assert (H : forall ds, incl ds docs ->
            Forall2
              (fun doc v =>
                 forall i w,
                   nth_error (vocabulary docs) i = Some w ->
                   Dict.get_opt v (Str.of_nat i)
                   = if str_in w doc
                     then Some (weight (count_occ string_dec doc w)
                                  (List.length doc) (List.length docs)
                                  (doc_count docs w))
                     else None)
              ds
              (map (entry_vector_value (word_index (vocabulary docs))
                      (idf_value (F:=R) docs (vocabulary docs))) ds)).
  { induction ds as [| d ds IH]; intros Hincl; simpl; constructor.
    - intros i w Hi. apply entry_vector_value_lookup; [| exact Hi].
      apply Hincl. left. reflexivity.
    - apply IH. intros x Hx. apply Hincl. right. exact Hx. }
  apply H. apply incl_refl.
Qed.

(** ** Symmetry and self-similarity *)

Lemma set_union_perm (xs ys : list string) :
  Permutation (set_union xs ys) (set_union ys xs).
Proof.
  unfold set_union. apply NoDup_Permutation; try apply NoDup_nodup.
  intros k. rewrite !nodup_In, !in_app_iff. tauto.
Qed.

Lemma dot_value_sym (v1 v2 : Dict.t R) : dot_value v1 v2 = dot_value v2 v1.
Proof.
  rewrite !dot_value_Rsum.
  rewrite (Rsum_perm
             (Permutation_map (fun k => Dict.get v1 k 0 * Dict.get v2 k 0)
                (set_union_perm (Dict.keys v1) (Dict.keys v2)))).
  apply Rsum_map_ext. intros k _. ring.
Qed.

(** X11.  In exact arithmetic the similarity is symmetric. *)
Theorem cosine_sim_symmetric (v1 v2 : Dict.t R) :
  cosine_sim v1 v2 = cosine_sim v2 v1.
Proof.
  rewrite !cosine_sim_exact. f_equal. unfold cosine_value.
  rewrite (andb_comm (truthy (norm_value v1))), (dot_value_sym v1 v2).
  destruct (truthy (norm_value v2) && truthy (norm_value v1));
    [| reflexivity].
  cbn [fdiv fmul exact]. rewrite (Rmult_comm (norm_value v1)). reflexivity.
Qed.

Lemma dot_value_self (v : Dict.t R) :
  Dict.wf v -> dot_value v v = Rsum (map (fun x => x * x) (Dict.values v)).
Proof.
  intros Hwf. rewrite dot_value_Rsum.
  apply (@Rsum_over_keys (fun x => x * x) v
           (set_union (Dict.keys v) (Dict.keys v))).
  - ring.
  - exact Hwf.
  - apply NoDup_nodup.
  - intros k Hk. apply nodup_In, in_or_app. left. exact Hk.
Qed.

Lemma Rsum_squares_pos (xs : list R) :
  Exists (fun x => x <> 0) xs -> 0 < Rsum (map (fun x => x * x) xs).
Proof.
  induction 1 as [x xs Hx | x xs _ IH]; simpl.
  - pose proof (Rsum_squares_nonneg xs).
    assert (0 < x * x) by nra. lra.
  - assert (0 <= x * x) by nra. lra.
Qed.

(** X12.  In exact arithmetic a vector with a non-zero weight has
    similarity exactly 1 to itself. *)
Theorem cosine_sim_self (v : Dict.t R) :
  Dict.wf v ->
  Exists (fun x => x <> 0) (Dict.values v) ->
  cosine_sim v v = inr 1.
Proof.
  intros Hwf Hex. rewrite cosine_sim_exact. f_equal. unfold cosine_value.
  pose proof (Rsum_squares_pos Hex) as Hpos.
  assert (Hn : 0 < norm_value v)
    by (rewrite norm_value_sqrt; apply sqrt_lt_R0; exact Hpos).
  assert (Hsq : norm_value v * norm_value v
                = Rsum (map (fun x => x * x) (Dict.values v)))
    by (rewrite norm_value_sqrt; apply sqrt_sqrt; lra).
  rewrite (proj2 (truthy_true (norm_value v))) by lra.
  cbn [andb fdiv fmul exact].
  rewrite (dot_value_self Hwf), <- Hsq. field. lra.
Qed.

Lemma cosine_sim_self_witness :
  Dict.wf vec_x /\ cosine_sim vec_x vec_x = inr 1.
Proof.
  assert (Hwf : Dict.wf vec_x)
    by (repeat constructor; simpl; intuition discriminate).
  split; [exact Hwf |].
  apply (@cosine_sim_self vec_x Hwf).
  apply Exists_cons_hd. simpl. lra.
Defined.

(** ** Queries outside the vocabulary *)

Lemma query_counts_none (vocab words : list string) :
  (forall w, In w words -> ~ In w vocab) ->
  query_counts (word_index vocab) words = [].
Proof.
  unfold query_counts. generalize (@nil (string * nat)).
  induction words as [| w words IH]; intros acc H; simpl; [reflexivity |].
  assert (Hc : Dict.contains (word_index vocab) w = false).
  { destruct (Dict.contains (word_index vocab) w) eqn:E; [| reflexivity].
    apply (proj1 (DictFacts.contains_iff _ _)) in E.
    apply (proj1 (word_index_keys _ _)) in E.
    exfalso. apply (H w); [left; reflexivity | exact E]. }
  rewrite Hc. apply IH. intros x Hx. apply H. right. exact Hx.
Qed.

Lemma sort_by_no_swap {A} (lt : A -> A -> bool) (l : list A) :
  (forall a b, In a l -> In b l -> lt a b = false) -> sort_by lt l = l.
Proof.
  induction l as [| x l IH]; intros H; simpl; [reflexivity |].
  rewrite IH by (intros a b Ha Hb; apply H; right; assumption).
  destruct l as [| y l']; [reflexivity |]. cbn [insert_by].
  rewrite H; [reflexivity | right; left; reflexivity | left; reflexivity].
Qed.

Lemma scores_of_empty_query (vectors : list (Dict.t R)) :
  scores_value [] vectors
  = map (fun i => (i, 0)) (seq 0 (List.length vectors)).
Proof.
  unfold scores_value, enumerate. generalize 0%nat.
  induction vectors as [| v vs IH]; intros s; simpl; [reflexivity |].
  rewrite IH. f_equal. f_equal. apply cosine_value_zero_l. reflexivity.
Qed.

Lemma firstn_of_seq (k s n : nat) : firstn k (seq s n) = seq s (Nat.min k n).
Proof.
  revert s n. induction k as [| k IH]; intros s n; [reflexivity |].
  destruct n as [| n]; [reflexivity |]. simpl. rewrite IH. reflexivity.
Qed.

Lemma firstn_map_seq {A} (f : nat -> A) (k n : nat) :
  firstn k (map f (seq 0 n)) = map f (seq 0 (Nat.min k n)).
Proof. rewrite firstn_map, firstn_of_seq. reflexivity. Qed.

(** X13.  A query with words none of which is in the vocabulary still
    returns results: the first [min(top_k, n)] entries in file order, each
    with similarity 0. *)
Theorem search_out_of_vocabulary (w : world R) (query db_path : string)
  (top_k : Z) (module_map : Dict.t nat) (db : document R) :
  dat_file w db_path = Some (Index db) ->
  List.length (db_vectors db) = List.length (db_entries db) ->
  tokenize query <> [] ->
  (forall x, In x (tokenize query) -> ~ In x (db_vocab db)) ->
  (0 <= top_k)%Z ->
  _search w query db_path top_k module_map
  = inr (map
           (fun i => enrich_result (nth i (db_entries db) "") i 0
                       (Path.stem db_path) module_map)
           (seq 0 (Nat.min (Z.to_nat top_k) (List.length (db_entries db))))).
Proof.
  intros Hfile Hlen Hwords Hout Hk.
  rewrite (@_search_exact w query db_path top_k module_map db Hfile Hwords)
    by lia.
  f_equal. unfold query_vector_value.
  rewrite query_counts_none by exact Hout.
  change (dict_of_list (map _ (Dict.keys []))) with (@nil (string * R)).
  rewrite scores_of_empty_query, Hlen.
  rewrite sort_by_no_swap.
  - rewrite slice_to_pos by exact Hk. rewrite firstn_map_seq, map_map.
    reflexivity.
  - intros a b Ha Hb. apply in_map_iff in Ha. apply in_map_iff in Hb.
    destruct Ha as (i & <- & _). destruct Hb as (j & <- & _).
    apply by_score_false. simpl. lra.
Qed.

Lemma search_out_of_vocabulary_witness :
  tokenize "zebra" = ["zebra"] /\
  _search tiny_world "zebra" "vectors/tiny.dat" 2 []
  = inr [enrich_result "a" 0 0 "tiny" []; enrich_result "b" 1 0 "tiny" []].
Proof.
  split; [reflexivity |].
  apply (@search_out_of_vocabulary tiny_world "zebra" "vectors/tiny.dat" 2%Z
           [] tiny_db).
  - reflexivity.
  - reflexivity.
  - discriminate.
  - intros x [<- | []] [H | [H | []]]; discriminate H.
  - lia.
Defined.

(** ** Slices that are not a positive prefix *)

(** X14.  [top_k = 0] gives the empty sequence, and a negative [top_k]
    counts from the end of the ranking: [n - |top_k|] results (none when
    [|top_k|] exceeds [n]), as the slice [scores[:top_k]] has it. *)
Theorem search_nonpositive_top_k (w : world R) (query db_path : string)
  (top_k : Z) (module_map : Dict.t nat) (db : document R) :
  dat_file w db_path = Some (Index db) ->
  List.length (db_vectors db) = List.length (db_entries db) ->
  tokenize query <> [] ->
  (top_k <= 0)%Z ->
  exists rs,
    _search w query db_path top_k module_map = inr rs /\
    List.length rs
    = if (top_k =? 0)%Z then 0%nat
      else (List.length (db_entries db) - Z.to_nat (- top_k))%nat.
Proof.
  intros Hfile Hlen Hwords Hk.
  rewrite (@_search_exact w query db_path top_k module_map db Hfile Hwords)
    by lia.
  eexists. split; [reflexivity |].
  rewrite length_map. unfold slice_to.
  destruct (top_k =? 0)%Z eqn:E0.
  - apply Z.eqb_eq in E0. subst. reflexivity.
  - apply Z.eqb_neq in E0.
    destruct (0 <=? top_k)%Z eqn:E; [apply Z.leb_le in E; lia |].
    rewrite length_firstn, sort_by_length.
    unfold scores_value. rewrite length_map. unfold enumerate.
    rewrite length_combine, length_seq, Hlen. lia.
Qed.

Lemma search_nonpositive_top_k_witness :
  exists rs,
    _search tiny_world "b" "vectors/tiny.dat" (-1) [] = inr rs /\
    List.length rs = 2%nat.
Proof.
  apply (@search_nonpositive_top_k tiny_world "b" "vectors/tiny.dat" (-1)%Z
           [] tiny_db).
  - reflexivity.
  - reflexivity.
  - discriminate.
  - lia.
Defined.

(** ** More vectors than entries *)

Lemma mapM_raises_only {A B} (f : A -> result B) (xs : list A) (e0 : exn) :
  (forall x e, In x xs -> f x = inl e -> e = e0) ->
  (exists x, In x xs /\ f x = inl e0) ->
  mapM f xs = inl e0.
Proof.
  induction xs as [| y ys IH]; intros Honly (x & Hin & Hx).
  - contradiction.
  - simpl. destruct (f y) as [e | b] eqn:Ey; simpl.
    + f_equal. apply (Honly y e); [left; reflexivity | exact Ey].
    + destruct Hin as [-> | Hin]; [congruence |].
      rewrite IH; [reflexivity | | exists x; split; assumption].
      intros z e Hz. apply Honly. right. exact Hz.
Qed.

Lemma _search_unfold {F : Type} {arith : Arith F} (w : world F)
  (query db_path : string) (top_k : Z) (module_map : Dict.t nat)
  (db : document F) :
  dat_file w db_path = Some (Index db) ->
  tokenize query <> [] ->
  _search w query db_path top_k module_map
  = (q_vec <- query_vector (db_vocab db) (db_idf db) (tokenize query) ;;
     scores <- score_all q_vec (db_vectors db) ;;
     mapM
       (fun is_ =>
          entry <- nth_item (db_entries db) (fst is_) ;;
          ret (enrich_result entry (fst is_) (snd is_) (Path.stem db_path)
                 module_map))
       (slice_to (sort_by by_score scores) top_k)).
Proof.
  intros Hfile Hwords. unfold _search, load_index. rewrite Hfile.
  destruct (tokenize query) as [| w0 ws]; [contradiction | reflexivity].
Qed.

(** X15.  On an index document with more vectors than entries, a search
    that keeps every scored vector raises [IndexError]. *)
Theorem search_more_vectors_than_entries (w : world R)
  (query db_path : string) (top_k : Z) (module_map : Dict.t nat)
  (db : document R) :
  dat_file w db_path = Some (Index db) ->
  tokenize query <> [] ->
  (List.length (db_entries db) < List.length (db_vectors db))%nat ->
  (Z.of_nat (List.length (db_vectors db)) <= top_k)%Z ->
  _search w query db_path top_k module_map = raise IndexError.
Proof.
  intros Hfile Hwords Hlen Hk.
  rewrite (@_search_unfold R exact w query db_path top_k module_map db
             Hfile Hwords).
  rewrite query_vector_exact by exact Hwords. cbn [bind].
  rewrite score_all_exact. cbn [bind].
  set (scores := scores_value (query_vector_value db (tokenize query))
                   (db_vectors db)).
  assert (Hfst : map fst scores = seq 0 (List.length (db_vectors db)))
    by apply scores_value_fst.
  rewrite slice_to_pos by lia.
  rewrite firstn_all2
    by (rewrite sort_by_length, <- (length_map fst scores), Hfst, length_seq;
        lia).
  apply mapM_raises_only.
  - intros [i s] e _. cbn [fst snd]. unfold nth_item, raise, ret.
    destruct (nth_error (db_entries db) i); simpl; intros H;
      [discriminate H | injection H as <-; reflexivity].
  - assert (Hin : In (List.length (db_entries db)) (map fst scores))
      by (rewrite Hfst; apply in_seq; lia).
    apply in_map_iff in Hin. destruct Hin as ([i s] & Hi & Hin).
    simpl in Hi. subst i. exists (List.length (db_entries db), s).
    split; [apply sort_by_in; exact Hin |].
    cbn [fst snd]. unfold nth_item.
    rewrite (proj2 (nth_error_None _ _)) by lia. reflexivity.
Qed.

Lemma search_more_vectors_than_entries_witness :
  _search (only_index "lopsided.dat" lopsided_db) "a" "lopsided.dat" 2 []
  = raise IndexError.
Proof.
  apply (@search_more_vectors_than_entries
           (only_index "lopsided.dat" lopsided_db) "a" "lopsided.dat" 2%Z []
           lopsided_db).
  - reflexivity.
  - discriminate.
  - simpl. lia.
  - simpl. lia.
Defined.

(** ** One index file in the collection *)

Lemma sort_sorted_id {A} (key : A -> R) (l : list A) :
  StronglySorted (fun a b => key b <= key a) l ->
  sort_by (descending key) l = l.
Proof.
  induction 1 as [| x l Hs IH Hx]; simpl; [reflexivity |].
  rewrite IH. destruct l as [| y l']; [reflexivity |]. cbn [insert_by].
  inversion Hx as [| ? ? Hy _]; subst.
  unfold descending. cbn [flt fneg exact].
  rewrite R_ltb_false by lra. reflexivity.
Qed.

Lemma _search_sorted (w : world R) (query db_path : string) (top_k : Z)
  (module_map : Dict.t nat) (rs : list (Result R)) :
  _search w query db_path top_k module_map = inr rs ->
  StronglySorted (fun a b => similarity b <= similarity a) rs /\
  ((0 <= top_k)%Z -> (List.length rs <= Z.to_nat top_k)%nat).
Proof.
  unfold _search. intros H. inv_bind H.
  destruct (tokenize query) as [| w0 ws].
  { injection H as <-. split; [constructor | simpl; lia]. }
  do 5 inv_bind H.
  pose proof (mapM_length _ _ H) as Hlen.
  apply mapM_ok in H.
  assert (Hs : StronglySorted (fun x y : nat * R => snd y <= snd x)
                 (slice_to (sort_by by_score a4) top_k))
    by (apply slice_to_sorted, (sort_descending (@snd nat R))).
  split.
  - revert Hs. clear Hlen.
    induction H as [| [i s] r sl rs' Hr Hrest IH]; intros Hs;
      [constructor |].
    inversion Hs as [| ? ? Hs' Hall]; subst.
    constructor; [apply IH; exact Hs' |].
    assert (Hsim : similarity r = s).
    { simpl in Hr. do 2 inv_bind Hr. injection Hr as <-. reflexivity. }
    rewrite Hsim. clear IH Hs Hs' Hr.
    induction Hrest as [| [j s'] r' sl' rs'' Hr' _ IH']; constructor.
    + inversion Hall as [| ? ? Hj _]; subst. simpl in Hj.
      simpl in Hr'. do 2 inv_bind Hr'. injection Hr' as <-. exact Hj.
    + apply IH'. inversion Hall; assumption.
  - intros Hk. rewrite Hlen, slice_to_pos, length_firstn by exact Hk. lia.
Qed.

(** X16.  When the collection holds exactly one [.dat] file, whatever else
    the directory lists, [search_all] with [top_k >= 0] is [search] on that
    file: the same results or the same exception. *)
Theorem search_all_single_index (w : world R) (query build_dir : string)
  (top_k : Z) (names : list string) (name : string) :
  listing w build_dir = Some names ->
  filter Path.is_dat names = [name] ->
  (0 <= top_k)%Z ->
  search_all w query build_dir top_k
  = search w query (Path.join build_dir name) top_k.
Proof.
  intros Hls Hdat Hk. unfold search_all, search, glob_dat.
  rewrite Hls, Hdat. cbn [map mapM].
  destruct (_search w query (Path.join build_dir name) top_k
              (load_module_id_map (manifest w))) as [e | rs] eqn:E;
    [reflexivity |].
  destruct (@_search_sorted _ _ _ _ _ rs E) as [Hs Hlen].
  cbn [bind ret List.concat]. rewrite app_nil_r.
  change (sort_by by_similarity rs) with (sort_by (descending (@similarity R)) rs).
  rewrite (@sort_sorted_id _ (@similarity R) rs Hs).
  rewrite slice_to_pos by exact Hk.
  rewrite firstn_all2 by (apply Hlen; exact Hk). reflexivity.
Qed.

Lemma search_all_single_index_witness :
  search_all tiny_world "b" "vectors" 2
  = search tiny_world "b" "vectors/tiny.dat" 2.
Proof.
  apply (@search_all_single_index tiny_world "b" "vectors" 2%Z
           ["tiny.dat"; "notes.txt"] "tiny.dat").
  - reflexivity.
  - reflexivity.
  - lia.
Defined.

(** ** Signatures *)

Lemma uint_digits (d : Decimal.uint) :
  Forall (fun c => Str.is_digit c = true) (chars (NilEmpty.string_of_uint d)).
Proof.
  induction d; simpl; try constructor; try reflexivity; assumption.
Qed.

Lemma of_nat_digits (n : nat) :
  Forall (fun c => Str.is_digit c = true) (chars (Str.of_nat n)).
Proof.
  unfold Str.of_nat, NilZero.string_of_uint.
  destruct (Nat.to_uint n) eqn:E; try (rewrite <- E; apply uint_digits).
  repeat constructor.
Qed.

Lemma cut_at_separator {A} (c : A) (l1 l2 r1 r2 : list A) :
  ~ In c l1 -> ~ In c l2 ->
  l1 ++ c :: r1 = l2 ++ c :: r2 -> l1 = l2 /\ r1 = r2.
Proof.
  revert l2. induction l1 as [| x l1 IH]; intros l2 H1 H2 H.
  - destruct l2 as [| y l2]; simpl in H.
    + injection H as ->. split; reflexivity.
    + injection H as -> _. exfalso. apply H2. left. reflexivity.
  - destruct l2 as [| y l2]; simpl in H.
    + injection H as -> _. exfalso. apply H1. left. reflexivity.
    + injection H as -> H.
      destruct (IH l2) as [-> ->]; try exact H.
      * intros Hin. apply H1. right. exact Hin.
      * intros Hin. apply H2. right. exact Hin.
      * split; reflexivity.
Qed.

Lemma make_signature_chars (module_id : option nat) (opcode : nat)
  (params : list string) :
  exists tail_,
    chars (make_signature module_id opcode params)
    = chars (match module_id with
             | None => "?"
             | Some m => Str.of_nat m
             end)
      ++ "."%char :: chars (Str.of_nat opcode) ++ "("%char :: tail_.
Proof.
  unfold make_signature. destruct params as [| p ps].
  - exists [")"%char]. cbn [String.concat].
    rewrite !chars_append. reflexivity.
  - eexists. cbn [String.concat].
    rewrite !chars_append. reflexivity.
Qed.

Lemma digits_without (c : ascii) (s : string) :
  Str.is_digit c = false ->
  Forall (fun x => Str.is_digit x = true) (chars s) -> ~ In c (chars s).
Proof.
  intros Hc Hs Hin. rewrite Forall_forall in Hs.
  rewrite (Hs c Hin) in Hc. discriminate.
Qed.

(** X17.  A signature determines the module id and the opcode it was made
    from: equal signatures come from equal ids and equal opcodes. *)
Theorem make_signature_injective (module_id module_id' : option nat)
  (opcode opcode' : nat) (params params' : list string) :
  make_signature module_id opcode params
  = make_signature module_id' opcode' params' ->
  module_id = module_id' /\ opcode = opcode'.
Proof.
  intros H. apply (f_equal chars) in H.
  destruct (make_signature_chars module_id opcode params) as (t1 & H1).
  destruct (make_signature_chars module_id' opcode' params') as (t2 & H2).
  rewrite H1, H2 in H. clear H1 H2.
  assert (Hmid : forall m : option nat,
            ~ In "."%char (chars (match m with
                                  | None => "?"
                                  | Some k => Str.of_nat k
                                  end))).
  { intros [k |].
    - apply digits_without; [reflexivity | apply of_nat_digits].
    - simpl. intros [Hc | []]. discriminate Hc. }
  apply cut_at_separator in H; [| apply Hmid | apply Hmid].
  destruct H as [Hm Ho].
  apply cut_at_separator in Ho;
    [| apply digits_without; [reflexivity | apply of_nat_digits]
     | apply digits_without; [reflexivity | apply of_nat_digits]].
  destruct Ho as [Ho _]. apply chars_inj, of_nat_inj in Ho.
  split; [| exact Ho].
  destruct module_id as [a |], module_id' as [b |].
  - apply chars_inj, of_nat_inj in Hm. congruence.
  - exfalso. pose proof (of_nat_digits a) as Hd. rewrite Hm in Hd.
    inversion Hd as [| ? ? Hq _]. discriminate Hq.
  - exfalso. pose proof (of_nat_digits b) as Hd. rewrite <- Hm in Hd.
    inversion Hd as [| ? ? Hq _]. discriminate Hq.
  - reflexivity.
Qed.

Lemma make_signature_injective_witness :
  make_signature (Some 2%nat) 17 ["x"; "y"]
  = make_signature (Some 2%nat) 17 ["x"; "y"] /\
  Some 2%nat = Some 2%nat /\ 17%nat = 17%nat.
Proof.
  split; [reflexivity |].
  apply (@make_signature_injective (Some 2%nat) (Some 2%nat) 17 17
           ["x"; "y"] ["x"; "y"]).
  reflexivity.
Defined.

(** ** The vocabulary is canonical *)

Lemma ascii_compare_refl (a : ascii) : Ascii.compare a a = Eq.
Proof. unfold Ascii.compare. apply N.compare_refl. Qed.

Lemma ascii_compare_lt_trans (a b c : ascii) :
  Ascii.compare a b = Lt -> Ascii.compare b c = Lt -> Ascii.compare a c = Lt.
Proof.
  unfold Ascii.compare. rewrite !N.compare_lt_iff. apply N.lt_trans.
Qed.

Lemma string_compare_lt_trans (s1 s2 s3 : string) :
  String.compare s1 s2 = Lt -> String.compare s2 s3 = Lt ->
  String.compare s1 s3 = Lt.
Proof.
  revert s2 s3. induction s1 as [| a s1 IH]; intros [| b s2] [| c s3];
    simpl; try congruence.
  destruct (Ascii.compare a b) eqn:Eab; try discriminate;
    destruct (Ascii.compare b c) eqn:Ebc; try discriminate; intros H1 H2.
  - apply Ascii.compare_eq_iff in Eab, Ebc. subst.
    rewrite ascii_compare_refl. eapply IH; eassumption.
  - apply Ascii.compare_eq_iff in Eab. subst. rewrite Ebc. reflexivity.
  - apply Ascii.compare_eq_iff in Ebc. subst. rewrite Eab. reflexivity.
  - rewrite (ascii_compare_lt_trans _ _ _ Eab Ebc). reflexivity.
Qed.

Lemma str_lt_trans (a b c : string) : str_lt a b -> str_lt b c -> str_lt a c.
Proof.
  unfold str_lt, String.ltb. intros H1 H2.
  destruct (String.compare a b) eqn:E1; try discriminate.
  destruct (String.compare b c) eqn:E2; try discriminate.
  rewrite (string_compare_lt_trans _ _ _ E1 E2). reflexivity.
Qed.

Lemma str_lt_irrefl (a : string) : ~ str_lt a a.
Proof.
  unfold str_lt, String.ltb. intros H.
  pose proof (String.compare_antisym a a) as Ha.
  destruct (String.compare a a); simpl in Ha; discriminate.
Qed.

Lemma str_lt_total (a b : string) : a <> b -> String.ltb a b = false -> str_lt b a.
Proof.
  unfold str_lt, String.ltb. intros Hne H.
  rewrite String.compare_antisym.
  destruct (String.compare a b) eqn:E; simpl; try reflexivity; try discriminate.
  apply String.compare_eq_iff in E. contradiction.
Qed.

Lemma insert_str_sorted (x : string) (l : list string) :
  StronglySorted str_lt l -> ~ In x l ->
  StronglySorted str_lt (insert_by String.ltb x l).
Proof.
  induction l as [| y l IH]; intros Hs Hx; cbn [insert_by].
  - repeat constructor.
  - inversion Hs as [| ? ? Hs' Hy]; subst.
    destruct (String.ltb y x) eqn:E.
    + constructor.
      * apply IH; [exact Hs' | intros H; apply Hx; right; exact H].
      * apply Forall_forall. intros z Hz.
        apply (Permutation_in _ (insert_by_perm String.ltb x l)) in Hz.
        destruct Hz as [<- | Hz]; [exact E |].
        rewrite Forall_forall in Hy. apply Hy. exact Hz.
    + assert (Hxy : str_lt x y).
      { apply str_lt_total; [| exact E].
        intros ->. apply Hx. left. reflexivity. }
      constructor; [exact Hs |]. constructor; [exact Hxy |].
      apply Forall_forall. intros z Hz. rewrite Forall_forall in Hy.
      eapply str_lt_trans; [exact Hxy | apply Hy; exact Hz].
Qed.

Lemma sort_strings_sorted (l : list string) :
  NoDup l -> StronglySorted str_lt (sort_by String.ltb l).
Proof.
  induction 1 as [| x l Hx Hnd IH]; simpl; [constructor |].
  apply insert_str_sorted; [exact IH |].
  intros H. apply Hx. apply (proj1 (sort_by_in String.ltb l x)). exact H.
Qed.

Lemma sorted_strings_unique (l1 l2 : list string) :
  StronglySorted str_lt l1 -> StronglySorted str_lt l2 ->
  (forall x, In x l1 <-> In x l2) -> l1 = l2.
Proof.
  intros H1. revert l2. induction H1 as [| x l1 Hs1 IH Hx1]; intros l2 H2 Heq.
  - destruct l2 as [| y l2]; [reflexivity |].
    exfalso. apply (proj2 (Heq y)). left. reflexivity.
  - destruct H2 as [| y l2 Hs2 Hy2].
    + exfalso. apply (proj1 (Heq x)). left. reflexivity.
    + rewrite Forall_forall in Hx1, Hy2.
      assert (Hxy : x = y).
      { destruct (proj1 (Heq x) (or_introl eq_refl)) as [-> | Hin];
          [reflexivity |].
        destruct (proj2 (Heq y) (or_introl eq_refl)) as [-> | Hin'];
          [reflexivity |].
        exfalso. apply (@str_lt_irrefl x).
        eapply str_lt_trans; [apply Hx1; exact Hin' | apply Hy2; exact Hin]. }
      subst y. f_equal. apply IH; [exact Hs2 |].
      intros z. split; intros Hz.
      * destruct (proj1 (Heq z) (or_intror Hz)) as [<- | H]; [| exact H].
        exfalso. apply (@str_lt_irrefl x). apply Hx1. exact Hz.
      * destruct (proj2 (Heq z) (or_intror Hz)) as [<- | H]; [| exact H].
        exfalso. apply (@str_lt_irrefl x). apply Hy2. exact Hz.
Qed.

(** X18.  The vocabulary lists exactly the words of the tokenized entries,
    each once, in strictly increasing order of [sorted]. *)
Theorem vocabulary_sorted (docs : list (list string)) :
  StronglySorted str_lt (vocabulary docs) /\
  NoDup (vocabulary docs) /\
  (forall w, In w (vocabulary docs) <-> exists d, In d docs /\ In w d).
Proof.
  split; [apply sort_strings_sorted, NoDup_nodup |].
  split; [apply vocabulary_nodup | apply vocabulary_in].
Qed.

(** X19.  The vocabulary, and with it the position that names a word in
    every vector, depends only on which words occur: corpora with the same
    words, in whatever order and however often, have the same vocabulary. *)
Theorem vocabulary_canonical (docs docs' : list (list string)) :
  (forall w, In w (List.concat docs) <-> In w (List.concat docs')) ->
  vocabulary docs = vocabulary docs'.
Proof.
  intros H. apply sorted_strings_unique.
  - apply sort_strings_sorted, NoDup_nodup.
  - apply sort_strings_sorted, NoDup_nodup.
  - intros x. unfold vocabulary. rewrite !sort_by_in, !nodup_In. apply H.
Qed.

Lemma vocabulary_canonical_witness :
  vocabulary docs_ab_c = vocabulary docs_c_ba.
Proof.
  apply (@vocabulary_canonical docs_ab_c docs_c_ba).
  intros w. simpl. tauto.
Defined.

(** ** Which sources are vectorized *)

Lemma drop_spaces_keeps (cs : list ascii) (x : ascii) :
  Str.is_space x = false -> In x cs -> In x (drop_spaces cs).
Proof.
  intros Hx. induction cs as [| c cs IH]; intros Hin; simpl; [exact Hin |].
  destruct (Str.is_space c) eqn:E; [| exact Hin].
  destruct Hin as [-> | Hin]; [congruence | apply IH; exact Hin].
Qed.

Lemma strip_keeps (s : string) (x : ascii) :
  Str.is_space x = false -> In x (chars s) -> In x (chars (Str.strip s)).
Proof.
  intros Hx Hin. rewrite chars_strip. apply -> in_rev.
  apply drop_spaces_keeps; [exact Hx |]. apply -> in_rev.
  apply drop_spaces_keeps; assumption.
Qed.

Lemma drop_spaces_all (cs : list ascii) :
  Forall (fun c => Str.is_space c = true) cs -> drop_spaces cs = [].
Proof.
  induction 1 as [| c cs Hc _ IH]; simpl; [reflexivity |].
  rewrite Hc. exact IH.
Qed.

Lemma strip_blank (s : string) :
  Forall (fun c => Str.is_space c = true) (chars s) -> Str.strip s = EmptyString.
Proof.
  intros H. apply chars_inj.
  rewrite chars_strip, (@drop_spaces_all (chars s) H). reflexivity.
Qed.

(** Every character of a piece is a character of the text. *)
Lemma split_scan_incl (sep s : string) (skip : nat) (cur : string) :
  Forall
    (fun p => forall x, In x (chars p) -> In x (chars cur) \/ In x (chars s))
    (Str.split_scan sep s skip cur).
Proof.
  revert skip cur. induction s as [| a s IH]; intros skip cur.
  - simpl. constructor; [| constructor]. intros x Hx.
    rewrite chars_rev in Hx. apply in_rev in Hx. left. exact Hx.
  - cbn [Str.split_scan]. change (chars (String a s)) with (a :: chars s).
    destruct skip as [| k].
    + destruct (prefix sep (String a s)).
      * constructor.
        -- intros x Hx. rewrite chars_rev in Hx. apply in_rev in Hx.
           left. exact Hx.
        -- eapply Forall_impl; [| apply IH]. intros p Hp x Hx.
           destruct (Hp x Hx) as [[] | H]. right. right. exact H.
      * eapply Forall_impl; [| apply IH]. intros p Hp x Hx.
        destruct (Hp x Hx) as [H | H].
        -- change (chars (String a cur)) with (a :: chars cur) in H.
           destruct H as [<- | H]; [right; left; reflexivity | left; exact H].
        -- right. right. exact H.
    + eapply Forall_impl; [| apply IH]. intros p Hp x Hx.
      destruct (Hp x Hx) as [H | H]; [left; exact H | right; right; exact H].
Qed.

(** A character that is no whitespace ends up in a piece: only line feeds
    are cut out. *)
Lemma split_blank_line_keeps (s : string) (skip : nat) (cur : string)
  (x : ascii) :
  Str.is_space x = false ->
  (skip = 0%nat \/
   skip = 1%nat /\ exists s', s = String "010"%char s') ->
  In x (chars cur) \/ In x (chars s) ->
  exists p, In p (Str.split_scan blank_line s skip cur) /\ In x (chars p).
Proof.
  intros Hx. revert skip cur. induction s as [| a s IH]; intros skip cur Hskip Hin.
  - destruct Hskip as [-> | [_ (s' & Hs')]]; [| discriminate].
    simpl. exists (Str.rev cur). split; [left; reflexivity |].
    rewrite chars_rev. apply -> in_rev.
    destruct Hin as [H | []]. exact H.
  - change (chars (String a s)) with (a :: chars s) in Hin.
    cbn [Str.split_scan]. destruct Hskip as [-> | [-> (s' & Hs')]].
    + destruct (prefix blank_line (String a s)) eqn:Ep.
      * destruct Hin as [Hc | Hs].
        -- exists (Str.rev cur). split; [left; reflexivity |].
           rewrite chars_rev. apply -> in_rev. exact Hc.
        -- assert (Ha : a = "010"%char /\ exists s', s = String "010"%char s').
           { apply prefix_correct in Ep. unfold blank_line, newline in Ep.
             cbn [String.append String.length substring] in Ep.
             injection Ep as -> Ep. split; [reflexivity |].
             destruct s as [| b s']; [discriminate Ep |].
             cbn [substring] in Ep. injection Ep as -> _.
             exists s'. reflexivity. }
           destruct Ha as [-> Hnext].
           destruct Hs as [<- | Hs]; [discriminate Hx |].
           destruct (IH 1%nat EmptyString) as (p & Hp & Hxp).
           ++ right. split; [reflexivity | exact Hnext].
           ++ right. exact Hs.
           ++ exists p. split; [right; exact Hp | exact Hxp].
      * apply (IH 0%nat (String a cur)); [left; reflexivity |].
        change (chars (String a cur)) with (a :: chars cur).
        destruct Hin as [H | [<- | H]];
          [left; right; exact H | left; left; reflexivity | right; exact H].
    + injection Hs' as -> ->.
      apply (IH 0%nat cur); [left; reflexivity |].
      destruct Hin as [H | [<- | H]];
        [left; exact H | discriminate Hx | right; exact H].
Qed.

Lemma split_entries_nonempty_iff (content : string) :
  split_entries content <> [] <->
  exists c, In c (chars content) /\ Str.is_space c = false.
Proof.
  unfold split_entries. split.
  - intros H.
    destruct (filter (fun e => nonempty (Str.strip e))
                (Str.split blank_line content)) as [| p ps] eqn:E;
      [exfalso; apply H; reflexivity |].
    assert (Hp : In p (filter (fun e => nonempty (Str.strip e))
                         (Str.split blank_line content)))
      by (rewrite E; left; reflexivity).
    apply filter_In in Hp. destruct Hp as [Hp Hne].
    apply nonempty_chars in Hne.
    destruct (chars (Str.strip p)) as [| c cs] eqn:Ec; [congruence |].
    assert (Hc : In c (chars (Str.strip p))) by (rewrite Ec; left; reflexivity).
    exists c. split.
    + apply strip_incl in Hc.
      pose proof (split_scan_incl blank_line content 0 EmptyString) as Hincl.
      rewrite Forall_forall in Hincl.
      destruct (Hincl p Hp c Hc) as [[] | H']. exact H'.
    + destruct (trim_both_fixed (chars p)) as [Hfix _].
      rewrite <- chars_strip, Ec in Hfix. simpl in Hfix.
      destruct (Str.is_space c) eqn:Esp; [| reflexivity].
      exfalso. pose proof (drop_spaces_head cs) as Hh.
      assert (Hlen : List.length (drop_spaces cs) = S (List.length cs))
        by (rewrite Hfix; reflexivity).
      destruct (drop_spaces_split cs) as (pre & Hpre & _).
      apply (f_equal (@List.length ascii)) in Hpre.
      rewrite length_app in Hpre. lia.
  - intros (c & Hc & Hsp) H.
    destruct (@split_blank_line_keeps content 0 EmptyString c Hsp)
      as (p & Hp & Hcp); [left; reflexivity | right; exact Hc |].
    assert (Hin : In p (filter (fun e => nonempty (Str.strip e))
                          (Str.split blank_line content))).
    { apply filter_In. split; [exact Hp |].
      apply nonempty_chars. intros Hnil.
      pose proof (@strip_keeps p c Hsp Hcp) as Hk. rewrite Hnil in Hk.
      contradiction. }
    apply (in_map Str.strip) in Hin. rewrite H in Hin. contradiction.
Qed.

Lemma has_text_entries (content : string) :
  has_text content <-> split_entries content <> [].
Proof.
  rewrite split_entries_nonempty_iff. unfold has_text.
  split; intros (c & Hc & Hsp); exists c; split; try exact Hsp;
    apply mem_chars; exact Hc.
Qed.

Lemma append_inj_l (d x y : string) :
  String.append d x = String.append d y -> x = y.
Proof.
  induction d as [| c d IH]; simpl; intros H; [exact H |].
  injection H as H. apply IH. exact H.
Qed.

Lemma join_inj (dir a b : string) : Path.join dir a = Path.join dir b -> a = b.
Proof.
  unfold Path.join. intros H. apply append_inj_l in H.
  simpl in H. injection H as H. exact H.
Qed.

Lemma write_index_same {F} (w : world F) (build_dir name : string)
  (data : document F) :
  dat_file (write_index w build_dir name data) (Path.join build_dir name)
  = Some (Index data).
Proof. unfold write_index. simpl. rewrite String.eqb_refl. reflexivity. Qed.

Lemma write_index_other {F} (w : world F) (build_dir name p : string)
  (data : document F) :
  p <> Path.join build_dir name ->
  dat_file (write_index w build_dir name data) p = dat_file w p.
Proof.
  intros H. unfold write_index. simpl.
  apply String.eqb_neq in H. rewrite H. reflexivity.
Qed.

Lemma vectorize_file_exact (w : world R)
  (source_name content build_dir : string) :
  vectorize_file w source_name content build_dir =
  match split_entries content with
  | [] => inr (false, w)
  | _ :: _ =>
      inr (true,
           write_index w build_dir (out_name source_name)
             (document_of (tfidf_value (split_entries content))
                (split_entries content) source_name))
  end.
Proof.
  unfold vectorize_file. destruct (split_entries content) as [| e es] eqn:E.
  - reflexivity.
  - rewrite build_tfidf_exact. reflexivity.
Qed.

(** X20.  [vectorize_file], given the text read from its source, never
    raises.  It answers [True] exactly when
    the source text has a character other than whitespace; it then writes
    the index of the entries of the text, with the name of the source as
    metadata, to [build_dir / name] with [.txt] replaced by [.dat], and
    leaves every other file as it was.  Otherwise it answers [False] and
    writes nothing. *)
Theorem vectorize_file_outcome (w : world R)
  (source_name content build_dir : string) :
  let out_path := Path.join build_dir (out_name source_name) in
  exists (b : bool) (w' : world R),
    vectorize_file w source_name content build_dir = inr (b, w') /\
    (b = true <-> has_text content) /\
    (b = false -> w' = w) /\
    (b = true ->
     exists t,
       build_tfidf (split_entries content) = inr t /\
       dat_file w' out_path
       = Some (Index (document_of t (split_entries content) source_name)) /\
       forall p, p <> out_path -> dat_file w' p = dat_file w p).
Proof.
  intros out_path. rewrite vectorize_file_exact.
  pose proof (has_text_entries content) as Htext.
  destruct (split_entries content) as [| e es] eqn:E.
  - exists false, w. split; [reflexivity |]. split.
    + split; [discriminate |]. intros H. apply Htext in H. congruence.
    + split; [reflexivity | discriminate].
  - eexists true, _. split; [reflexivity |]. split.
    + split; [intros _; apply Htext; discriminate | reflexivity].
    + split; [discriminate |]. intros _.
      exists (tfidf_value (e :: es)). split; [apply build_tfidf_exact |].
      split; [apply write_index_same |].
      intros p Hp. apply write_index_other. exact Hp.
Qed.

(** ** Searching what was built *)

Lemma built_document_scores (entries : list string) (source_name : string)
  (words : list string) :
  let db := document_of (tfidf_value (F:=R) entries) entries source_name in
  words <> [] ->
  Forall (fun is_ => 0 <= snd is_ <= 1)
    (scores_value (query_vector_value db words) (db_vectors db)).
Proof.
  intros db Hwords. unfold scores_value.
  apply Forall_forall. intros [i s] Hin. apply in_map_iff in Hin.
  destruct Hin as ([j v] & Heq & Hjv). injection Heq as _ <-.
  apply in_combine_r in Hjv. cbn [snd].
  unfold db, document_of, tfidf_value in Hjv. cbn [db_vectors vectors] in Hjv.
  apply in_map_iff in Hjv. destruct Hjv as (doc & <- & _).
  apply cosine_value_range.
  - apply dict_of_list_wf.
  - apply entry_vector_value_wf.
  - apply query_vector_value_nonneg; [exact Hwords | apply idf_value_nonneg].
  - apply entry_vector_value_nonneg, idf_value_nonneg.
Qed.

(** X21.  A source with text, once vectorized, can be searched at the path
    it was written to: for a query with a word and [top_k >= 1] the search
    returns [min(top_k, n)] results for the [n] entries of the source, each
    naming one of these entries by its position, carrying the stem of the
    written file as database name, with a similarity between 0 and 1. *)
Theorem vectorize_then_search (w : world R)
  (source_name content build_dir query : string) (top_k : Z)
  (module_map : Dict.t nat) :
  let out_path := Path.join build_dir (out_name source_name) in
  has_text content ->
  tokenize query <> [] ->
  (1 <= top_k)%Z ->
  exists (w' : world R) (rs : list (Result R)),
    vectorize_file w source_name content build_dir = inr (true, w') /\
    _search w' query out_path top_k module_map = inr rs /\
    List.length rs
    = Nat.min (Z.to_nat top_k) (List.length (split_entries content)) /\
    Forall
      (fun r =>
         nth_error (split_entries content) (opcode r) = Some (entry r) /\
         database r = Path.stem out_path /\
         0 <= similarity r <= 1)
      rs.
Proof.
  intros out_path Htext Hwords Hk.
  apply has_text_entries in Htext.
  set (entries := split_entries content) in *.
  set (db := document_of (tfidf_value (F:=R) entries) entries source_name).
  exists (write_index w build_dir (out_name source_name) db). eexists.
  split.
  { rewrite vectorize_file_exact. fold entries.
    destruct entries; [congruence | reflexivity]. }
  assert (Hlen : List.length (db_vectors db) = List.length (db_entries db))
    by (unfold db, document_of, tfidf_value; simpl; rewrite !length_map;
        reflexivity).
  split.
  { apply _search_exact; [apply write_index_same | exact Hwords | lia]. }
  set (scores := scores_value (query_vector_value db (tokenize query))
                   (db_vectors db)).
  assert (Hfst : map fst scores = seq 0 (List.length entries)).
  { unfold scores. rewrite scores_value_fst, Hlen. reflexivity. }
  rewrite slice_to_pos by lia. split.
  - rewrite length_map, length_firstn, sort_by_length.
    rewrite <- (length_map fst scores), Hfst, length_seq. reflexivity.
  - apply Forall_forall. intros r Hr. apply in_map_iff in Hr.
    destruct Hr as ([i s] & <- & Hin). cbn [fst snd].
    assert (Hi : In (i, s) scores).
    { apply (proj1 (sort_by_in by_score scores (i, s))).
      rewrite <- (firstn_skipn (Z.to_nat top_k) (sort_by by_score scores)).
      apply in_or_app. left. exact Hin. }
    cbn [entry opcode database similarity enrich_result].
    split; [| split; [reflexivity |]].
    + assert (Hlt : (i < List.length entries)%nat).
      { apply (in_map fst) in Hi. rewrite Hfst in Hi.
        apply in_seq in Hi. simpl in Hi. lia. }
      change (db_entries db) with entries.
      destruct (nth_error entries i) as [e |] eqn:En.
      * rewrite (nth_error_nth _ _ _ En). reflexivity.
      * apply nth_error_None in En. lia.
    + pose proof (@built_document_scores entries source_name
                    (tokenize query) Hwords) as Hrange.
      rewrite Forall_forall in Hrange. apply (Hrange (i, s)). exact Hi.
Qed.

Lemma vectorize_then_search_witness :
  exists (w' : world R) (rs : list (Result R)),
    vectorize_file no_files "mymod.txt" mymod_source "vectors"
    = inr (true, w') /\
    _search w' "print a value" "vectors/mymod.dat" 5 [] = inr rs /\
    List.length rs
    = Nat.min (Z.to_nat 5) (List.length (split_entries mymod_source)) /\
    Forall
      (fun r =>
         nth_error (split_entries mymod_source) (opcode r) = Some (entry r) /\
         database r = Path.stem "vectors/mymod.dat" /\
         0 <= similarity r <= 1)
      rs.
Proof.
  apply (@vectorize_then_search no_files "mymod.txt" mymod_source "vectors"
           "print a value" 5%Z []).
  - exists "a"%char. split; reflexivity.
  - discriminate.
  - lia.
Defined.

(** ** Building every index *)

Lemma vectorize_each_spec (sources : list (string * string))
  (build_dir : string) (w : world R) :
  NoDup (map (fun s => out_name (fst s)) sources) ->
  exists w' : world R,
    vectorize_each w sources build_dir = inr w' /\
    (forall source_name content,
        In (source_name, content) sources -> has_text content ->
        exists t,
          build_tfidf (split_entries content) = inr t /\
          dat_file w' (Path.join build_dir (out_name source_name))
          = Some (Index (document_of t (split_entries content) source_name))) /\
    (forall p,
        (forall source_name content,
            In (source_name, content) sources -> has_text content ->
            p <> Path.join build_dir (out_name source_name)) ->
        dat_file w' p = dat_file w p).
Proof.
  revert w. induction sources as [| [name content] rest IH]; intros w Hnd.
  - exists w. split; [reflexivity |]. split; [intros ? ? [] | reflexivity].
  - cbn [map fst] in Hnd. inversion Hnd as [| ? ? Hfresh Hnd']; subst.
    cbn [vectorize_each]. rewrite vectorize_file_exact.
    pose proof (has_text_entries content) as Htext.
    set (w1 := match split_entries content with
               | [] => w
               | _ :: _ =>
                   write_index w build_dir (out_name name)
                     (document_of (tfidf_value (split_entries content))
                        (split_entries content) name)
               end).
    destruct (IH w1 Hnd') as (w' & Hrun & Hwritten & Hframe).
    exists w'. split.
    { destruct (split_entries content); exact Hrun. }
    assert (Hrest : forall n c, In (n, c) rest ->
              Path.join build_dir (out_name name)
              <> Path.join build_dir (out_name n)).
    { intros n c Hin Heq. apply join_inj in Heq. apply Hfresh.
      rewrite Heq. apply (in_map (fun s => out_name (fst s)) rest (n, c) Hin). }
    split.
    + intros n c [Heq | Hin] Hc.
      * injection Heq as <- <-.
        exists (tfidf_value (split_entries content)).
        split; [apply build_tfidf_exact |].
        rewrite Hframe by (intros n c Hin _; apply (Hrest n c Hin)).
        unfold w1. apply (proj1 Htext) in Hc.
        destruct (split_entries content); [congruence |].
        apply write_index_same.
      * apply Hwritten; assumption.
    + intros p Hp. rewrite Hframe.
      * unfold w1. destruct (split_entries content) eqn:E; [reflexivity |].
        apply write_index_other. apply (Hp name content).
        -- left. reflexivity.
        -- apply (proj2 Htext). discriminate.
      * intros n c Hin Hc. apply (Hp n c); [right; exact Hin | exact Hc].
Qed.

(** X22.  [vectorize_all], given the texts read from its sources, never
    raises.  When no two sources are written
    to the same file name, every source with text has its index at
    [build_dir / name] with [.txt] replaced by [.dat] afterwards, and every
    file that is not such a path is left as it was; sources without text
    write nothing. *)
Theorem vectorize_all_writes (w : world R) (sources : list (string * string))
  (build_dir : string) :
  NoDup (map (fun s => out_name (fst s)) sources) ->
  exists w' : world R,
    vectorize_all w sources build_dir = inr w' /\
    (forall source_name content,
        In (source_name, content) sources -> has_text content ->
        exists t,
          build_tfidf (split_entries content) = inr t /\
          dat_file w' (Path.join build_dir (out_name source_name))
          = Some (Index (document_of t (split_entries content) source_name))) /\
    (forall p,
        (forall source_name content,
            In (source_name, content) sources -> has_text content ->
            p <> Path.join build_dir (out_name source_name)) ->
        dat_file w' p = dat_file w p).
Proof.
  intros Hnd.
  destruct (@vectorize_each_spec sources build_dir w Hnd)
    as (w' & Hrun & Hrest).
  exists w'. split; [| exact Hrest].
  unfold vectorize_all. destruct sources; exact Hrun.
Qed.

Lemma vectorize_all_writes_witness :
  exists w' : world R,
    vectorize_all no_files two_sources "vectors" = inr w' /\
    (forall source_name content,
        In (source_name, content) two_sources -> has_text content ->
        exists t,
          build_tfidf (split_entries content) = inr t /\
          dat_file w' (Path.join "vectors" (out_name source_name))
          = Some (Index (document_of t (split_entries content) source_name))) /\
    (forall p,
        (forall source_name content,
            In (source_name, content) two_sources -> has_text content ->
            p <> Path.join "vectors" (out_name source_name)) ->
        dat_file w' p = dat_file no_files p).
Proof.
  apply (@vectorize_all_writes no_files two_sources "vectors").
  change (map (fun s => out_name (fst s)) two_sources)
    with ["mymod.dat"; "empty.dat"].
  repeat constructor; simpl; intuition discriminate.
Defined.

(** ** The index store (C6) *)

Section JsonFacts.

Context {F : Type}.

Lemma key_text_injective_on_str (items : list (Json.key * Json.value F)) :
  Forall (fun kv => exists s, fst kv = Json.KStr s) items ->
  map (fun kv => Json.KStr (Json.key_text (fst kv))) items = map fst items.
Proof.
  induction 1 as [| kv items (s & Hs) _ IH]; simpl; [reflexivity |].
  rewrite IH, Hs. reflexivity.
Qed.

(** Members with distinct names are read back as they stand. *)
Lemma load_members (items : list (Json.key * Json.value F)) :
  NoDup (map fst items) ->
  Forall (fun kv => exists s, fst kv = Json.KStr s) items ->
  map (fun kv => (Json.KStr (fst kv), snd kv))
    (dict_of_list (map (fun kv => (Json.key_text (fst kv), snd kv)) items))
  = items.
Proof.
  intros Hnd Hstr. rewrite dict_of_list_nodup.
  - rewrite map_map. cbn [fst snd].
    rewrite <- (map_id items) at 2. apply map_ext_in. intros [k v] Hin.
    rewrite Forall_forall in Hstr. destruct (Hstr _ Hin) as (s & Hs).
    cbn [fst snd] in *. subst k. reflexivity.
  - rewrite map_map. cbn [fst].
    apply (NoDup_map_inv Json.KStr). rewrite map_map.
    rewrite key_text_injective_on_str by exact Hstr. exact Hnd.
Qed.

(** What is written without a tuple and under distinct string keys is read
    back unchanged. *)
Lemma load_dump_stable (v : Json.value F) :
  Json.stable v -> Json.load (Json.dump v) = v.
Proof.
  revert v. fix IH 1. intros [| b | z | x | s | items | items | items] Hv;
    try reflexivity.
  - cbn [Json.dump Json.load]. f_equal. cbn [Json.stable] in Hv.
    induction items as [| v items IHl]; [reflexivity |].
    destruct Hv as (Hv & Hrest). cbn [map].
    rewrite (IH v Hv), (IHl Hrest). reflexivity.
  - destruct Hv.
  - cbn [Json.dump Json.load]. cbn [Json.stable] in Hv.
    destruct Hv as (Hnd & Hall). f_equal.
    assert (Hstr : Forall (fun kv => exists s, fst kv = Json.KStr s) items).
    { clear Hnd. induction items as [| kv items IHl]; constructor.
      - exact (proj1 Hall).
      - apply IHl. exact (proj2 (proj2 Hall)). }
    assert (Hmap : map (fun m => (fst m, Json.load (snd m)))
                     (map (fun kv => (Json.key_text (fst kv),
                                      Json.dump (snd kv))) items)
                   = map (fun kv => (Json.key_text (fst kv), snd kv)) items).
    { clear Hnd Hstr. induction items as [| [k v] items IHl];
        [reflexivity |].
      destruct Hall as (_ & Hv & Hrest). cbn [map fst snd].
      rewrite (IH v Hv), (IHl Hrest). reflexivity. }
    rewrite Hmap. apply load_members; assumption.
Qed.

Lemma stable_strings (l : list string) :
  Json.stable (Json.VList (map (@Json.VStr F) l)).
Proof. induction l as [| s l IH]; simpl; [exact I | split; [exact I | exact IH]]. Qed.

Lemma stable_dict {V} (item : V -> Json.value F) (d : Dict.t V) :
  Dict.wf d ->
  (forall x, Json.stable (item x)) ->
  Json.stable (Json.dict_value item d).
Proof.
  intros Hwf Hitem. unfold Json.dict_value. cbn [Json.stable]. split.
  - rewrite map_map. cbn [fst].
    rewrite <- (map_map fst Json.KStr).
    unfold Dict.wf, Dict.keys in Hwf.
    induction Hwf as [| k ks Hk _ IHk]; simpl; constructor; [| exact IHk].
    intros Hin. apply in_map_iff in Hin. destruct Hin as (k' & Hk' & Hin).
    injection Hk' as ->. exact (Hk Hin).
  - clear Hwf. induction d as [| [k x] d IH]; simpl; [exact I |].
    split; [exists k; reflexivity |]. split; [apply Hitem | exact IH].
Qed.

(** An index document whose dictionaries have each key once is written
    and read back unchanged. *)
Lemma data_object_stable (data : document F) :
  Dict.wf (db_idf data) ->
  Forall (@Dict.wf F) (db_vectors data) ->
  Dict.wf (db_metadata data) ->
  Json.stable (Json.data_object data).
Proof.
  intros Hidf Hvecs Hmeta. unfold Json.data_object.
  hnf. split.
  { repeat constructor; simpl; intuition discriminate. }
  hnf. split; [exists "vocab"; reflexivity |].
  split; [exact (stable_strings (db_vocab data)) |].
  hnf. split; [exists "idf"; reflexivity |].
  split; [exact (stable_dict (@Json.VFloat F) Hidf (fun _ => I)) |].
  hnf. split; [exists "vectors"; reflexivity |]. split.
  { cbn [snd]. induction Hvecs as [| v vs Hv _ IH]; [exact I |].
    split; [exact (stable_dict (@Json.VFloat F) Hv (fun _ => I)) | exact IH]. }
  hnf. split; [exists "entries"; reflexivity |].
  split; [exact (stable_strings (db_entries data)) |].
  hnf. split; [exists "metadata"; reflexivity |].
  split; [exact (stable_dict (@Json.VStr F) Hmeta (fun _ => I)) | exact I].
Qed.

End JsonFacts.

(** The model is not the identity: a key that is no string comes back as
    its text, and a tuple as a list. *)
Lemma load_dump_int_keyed :
  Json.load (Json.dump int_keyed)
  = Json.VDict [(Json.KStr "1", Json.VList [Json.VFloat 0; Json.VStr "a"])].
Proof. reflexivity. Qed.

(** C6.  The index of every list of entries, completed by [vectorize_file]
    with the entries and the name of the source, is read back by
    [json.load] from what [json.dump] wrote as the same object: the same
    vocabulary in the same order, the same idf values, the same vectors,
    the same entries and the same metadata.  Every dictionary of it has
    string keys, each once, and it holds lists, no tuples. *)
Theorem persisted_index_round_trip (entries : list string)
  (source_name : string) :
  exists t : tfidf R,
    build_tfidf entries = inr t /\
    Json.stable (Json.data_object (document_of t entries source_name)) /\
    Json.load (Json.dump (Json.data_object (document_of t entries source_name)))
    = Json.data_object (document_of t entries source_name).
Proof.
  exists (tfidf_value entries). split; [apply build_tfidf_exact |].
  assert (Hs : Json.stable
                 (Json.data_object
                    (document_of (tfidf_value (F:=R) entries) entries
                       source_name))).
  { apply data_object_stable.
    - unfold Dict.wf. cbn [document_of db_idf idf tfidf_value].
      rewrite idf_value_keys. apply vocabulary_nodup.
    - cbn [document_of db_vectors vectors tfidf_value].
      apply Forall_forall. intros v Hv. apply in_map_iff in Hv.
      destruct Hv as (doc & <- & _). apply entry_vector_value_wf.
    - repeat constructor. simpl. intuition. }
  split; [exact Hs | apply load_dump_stable; exact Hs].
Qed.
